(** * The e-commerce crawl engine: a shallow embedding and its properties

    The development follows the route handler of the crawler
    (class [EcommerceCrawler] and the [POST] handler that relays its
    updates):

    - [Regex]: the fragment of JavaScript regular expressions the source
      uses, with a backtracking matcher, [test] and the [exec] loop;
    - [Patterns]: [PRODUCT_PATTERNS], [NAVIGATION_PATTERNS] and the link
      pattern of [extractUrls];
    - [Crawler]: the state of one [EcommerceCrawler], the synchronous pieces
      of [crawlUrl] and [crawl], and a small-step semantics of the
      cooperative scheduling of its promises;
    - [Orchestrator]: the [onUpdate] wrapper of [POST] and the batch of
      crawlers it starts.

    JavaScript strings are modelled as [string]; a [Set<string>] is a
    duplicate-free list in insertion order (the order [Array.from] and the
    spread of a [Set] observe); numbers that the source treats as integers
    are [Z]; the progress percentage is an exact rational. *)

From Stdlib Require Import String Ascii List Bool ZArith QArith Qminmax Lia.
From Stdlib Require Import Arith PeanoNat Wellfounded Relation_Operators.
Import ListNotations.

Local Open Scope string_scope.
Local Open Scope list_scope.

Set Implicit Arguments.

(* ================================================================== *)
(** ** Regular expressions *)

Module Regex.

(** One-character matchers.  Every pattern of the source carries the [i]
    flag, so characters are compared after case folding. *)
Inductive cls : Type :=
| CChar (c : ascii)                               (* a literal *)
| CDot                                            (* [.] *)
| CDigit                                          (* [\d] *)
| CSet (neg : bool) (ranges : list (ascii * ascii)). (* [[...]], [[^...]] *)

Inductive re : Type :=
| Eps
| Chr (c : cls)
| Seq (r1 r2 : re)
| Alt (r1 r2 : re)
| Star (r : re)        (* greedy *)
| Cap (r : re)         (* the capturing group *)
| Eol.                 (* [$], without the [m] flag *)

Definition Plus (r : re) : re := Seq r (Star r).
Definition Opt (r : re) : re := Alt r Eps.

Fixpoint lit (s : string) : re :=
  match s with
  | EmptyString => Eps
  | String c EmptyString => Chr (CChar c)
  | String c s' => Seq (Chr (CChar c)) (lit s')
  end.

Definition is_upper (c : ascii) : bool :=
  let n := nat_of_ascii c in (65 <=? n)%nat && (n <=? 90)%nat.
Definition is_lower (c : ascii) : bool :=
  let n := nat_of_ascii c in (97 <=? n)%nat && (n <=? 122)%nat.

(** The other-case variant of an ASCII letter; other characters are left
    alone (canonicalisation never maps a character below 128 to one above
    or the other way round). *)
Definition swap_case (c : ascii) : ascii :=
  if is_upper c then ascii_of_nat (nat_of_ascii c + 32)
  else if is_lower c then ascii_of_nat (nat_of_ascii c - 32)
  else c.

Definition in_range (c : ascii) (r : ascii * ascii) : bool :=
  let n := nat_of_ascii c in
  (nat_of_ascii (fst r) <=? n)%nat && (n <=? nat_of_ascii (snd r))%nat.

Definition in_ranges_ci (c : ascii) (rs : list (ascii * ascii)) : bool :=
  existsb (in_range c) rs || existsb (in_range (swap_case c)) rs.

Definition is_line_terminator (c : ascii) : bool :=
  let n := nat_of_ascii c in (n =? 10)%nat || (n =? 13)%nat.

Definition cls_match (k : cls) (c : ascii) : bool :=
  match k with
  | CChar a => Ascii.eqb a c || Ascii.eqb a (swap_case c)
  | CDot => negb (is_line_terminator c)
  | CDigit => in_range c ("0"%char, "9"%char)
  | CSet neg rs => xorb neg (in_ranges_ci c rs)
  end.

(** The result of a successful match attempt: the text of the capturing
    group, if it took part, and the input left after the match. *)
Definition result : Type := option string * string.

Definition orelse (a b : option result) : option result :=
  match a with Some _ => a | None => b end.

(** [prefix_upto s rest] is the part of [s] consumed when [rest] is what
    is left of it. *)
Definition prefix_upto (s rest : string) : string :=
  substring 0 (String.length s - String.length rest) s.

(** Backtracking matcher in continuation-passing style: [m r s cap k]
    matches [r] at the head of [s] and hands the rest of the input to [k];
    alternatives are tried left to right and [Star] takes as many
    iterations as it can before giving one back.  An iteration of [Star]
    that consumes nothing is rejected, as the language definition has
    it. *)
Fixpoint m (r : re) (s : string) (cap : option string)
           (k : string -> option string -> option result) {struct r}
  : option result :=
  match r with
  | Eps => k s cap
  | Chr c =>
      match s with
      | String a s' => if cls_match c a then k s' cap else None
      | EmptyString => None
      end
  | Seq r1 r2 => m r1 s cap (fun s1 cap1 => m r2 s1 cap1 k)
  | Alt r1 r2 => orelse (m r1 s cap k) (m r2 s cap k)
  | Star r1 =>
      (fix iter (fuel : nat) (s0 : string) (cap0 : option string)
         : option result :=
         match fuel with
         | O => k s0 cap0
         | S fuel' =>
             orelse
               (m r1 s0 cap0
                  (fun s1 cap1 =>
                     if (String.length s1 <? String.length s0)%nat
                     then iter fuel' s1 cap1
                     else None))
               (k s0 cap0)
         end) (String.length s) s cap
  | Cap r1 => m r1 s cap (fun s1 _ => k s1 (Some (prefix_upto s s1)))
  | Eol => match s with EmptyString => k s cap | _ => None end
  end.

Definition match_here (r : re) (s : string) : option result :=
  m r s None (fun rest cap => Some (cap, rest)).

(** The leftmost match at or after the start of [s]. *)
Fixpoint search (r : re) (s : string) : option result :=
  match match_here r s with
  | Some res => Some res
  | None =>
      match s with
      | EmptyString => None
      | String _ s' => search r s'
      end
  end.

(** [RegExp.prototype.test] of a pattern without the [g] flag. *)
Definition test (r : re) (s : string) : bool :=
  match search r s with Some _ => true | None => false end.

(** The loop [while ((match = re.exec(s)) !== null)] of a pattern with the
    [g] flag, collecting [match[1]]: each search resumes where the
    previous match ended.  A match that consumes nothing would leave
    [lastIndex] in place; the loop model stops there (the link pattern
    cannot match the empty string). *)
Fixpoint exec_all (fuel : nat) (r : re) (s : string) : list string :=
  match fuel with
  | O => []
  | S fuel' =>
      match search r s with
      | None => []
      | Some (cap, rest) =>
          let c := match cap with Some c => c | None => EmptyString end in
          if (String.length rest <? String.length s)%nat
          then c :: exec_all fuel' r rest
          else [c]
      end
  end.

Definition captures (r : re) (s : string) : list string :=
  exec_all (String.length s) r s.

End Regex.

(* ================================================================== *)
(** ** The pattern tables of the source *)

Module Patterns.
Import Regex.

Definition slash : re := Chr (CChar "/"%char).
Definition not_slash : re := Chr (CSet true [("/"%char, "/"%char)]).
Definition digit : re := Chr CDigit.
(** [[a-zA-Z0-9-]] *)
Definition slug_char : re :=
  Chr (CSet false [("a"%char, "z"%char); ("A"%char, "Z"%char);
                   ("0"%char, "9"%char); ("-"%char, "-"%char)]).

Fixpoint sequence (rs : list re) : re :=
  match rs with
  | [] => Eps
  | [r] => r
  | r :: rs' => Seq r (sequence rs')
  end.

(** [PRODUCT_PATTERNS], in the order of the source. *)
Definition PRODUCT_PATTERNS : list re :=
  [ lit "/product/";
    lit "/item/";
    lit "/p/";
    lit "/products/";
    lit "/dp/";
    lit "/goods/";
    lit "/detail/";
    lit "/buy/";
    (* /\/shop\/.*\/\d+/i *)
    sequence [lit "/shop/"; Star (Chr CDot); slash; Plus digit];
    (* /\/[^/]+\/[^/]+\/[^/]+\.(html|htm)$/i *)
    sequence [slash; Plus not_slash; slash; Plus not_slash; slash; Plus not_slash;
              lit "."; Cap (Alt (lit "html") (lit "htm")); Eol];
    (* /\/\d+\.html?$/i *)
    sequence [slash; Plus digit; lit ".htm"; Opt (lit "l"); Eol];
    (* /\/[a-zA-Z0-9-]+\/[a-zA-Z0-9-]+\/[a-zA-Z0-9-]+$/i *)
    sequence [slash; Plus slug_char; slash; Plus slug_char; slash; Plus slug_char;
              Eol] ].

(** [NAVIGATION_PATTERNS], in the order of the source. *)
Definition NAVIGATION_PATTERNS : list re :=
  map lit
    [ "/category/"; "/categories/"; "/collection/"; "/collections/";
      "/brand/"; "/brands/"; "/shop/"; "/store/"; "/catalog/"; "/browse/";
      "/men/"; "/women/"; "/kids/"; "/sale/"; "/new/"; "/trending/" ].

(** The double quote (code 34) and the apostrophe (code 39). *)
Definition dquote : ascii := "034"%char.
Definition squote : ascii := "039"%char.
Definition quote : re :=
  Chr (CSet false [(dquote, dquote); (squote, squote)]).
Definition not_quote : re :=
  Chr (CSet true [(dquote, dquote); (squote, squote)]).
Definition not_gt : re := Chr (CSet true [(">"%char, ">"%char)]).

(** [linkRegex] of [extractUrls], with the flags [g] and [i]: the text
    [<a], one or more characters other than [>], [href=], a quote of
    either kind, the captured group of one or more characters that are not
    quotes, a quote of either kind, any characters other than [>], and
    [>]. *)
Definition linkRegex : re :=
  sequence [lit "<a"; Plus not_gt; lit "href="; quote; Cap (Plus not_quote);
            quote; Star not_gt; lit ">"].

(** [isProductUrl] and [isNavigationUrl]: [Array.prototype.some] over the
    table. *)
Definition isProductUrl (url : string) : bool :=
  existsb (fun pattern => test pattern url) PRODUCT_PATTERNS.

Definition isNavigationUrl (url : string) : bool :=
  existsb (fun pattern => test pattern url) NAVIGATION_PATTERNS.

End Patterns.

(* ================================================================== *)
(** ** Data model *)

(** [CrawlRequest], for one domain. *)
Record Config : Type := mkConfig {
  domain : string;
  maxDepth : Z;
  maxPages : Z;
  concurrency : Z
}.

Inductive Status : Type := pending | crawling | completed | error.

(** [Partial<CrawlUpdate>]: a field is [None] when the object literal does
    not have the key. *)
Record Update : Type := mkUpdate {
  u_domain : option string;
  u_productUrls : option (list string);
  u_status : option Status;
  u_progress : option Q;
  u_error : option string
}.

(** The entries of [queue]: [{ url, depth }]. *)
Record CrawlTarget : Type := mkTarget {
  url : string;
  depth : Z
}.

(** What [fetch] and [response.text] can do. *)
Inductive FetchOutcome : Type :=
| Responded (status : Z) (text : option string) (* [None]: reading the body threw *)
| TimedOut                                      (* [AbortSignal.timeout] fired *)
| TransportError.                               (* [fetch] rejected otherwise *)

(** [Set<string>], in insertion order. *)
Definition set_has (x : string) (l : list string) : bool :=
  existsb (String.eqb x) l.

Definition set_add (x : string) (l : list string) : list string :=
  if set_has x l then l else l ++ [x].

(** [[...new Set(urls)]] *)
Definition dedup (urls : list string) : list string :=
  fold_left (fun acc u => set_add u acc) urls [].

Fixpoint replace_nth {A} (i : nat) (x : A) (l : list A) : list A :=
  match l, i with
  | [], _ => []
  | _ :: l', O => x :: l'
  | y :: l', S i' => y :: replace_nth i' x l'
  end.

Fixpoint remove_nth {A} (i : nat) (l : list A) : list A :=
  match l, i with
  | [], _ => []
  | _ :: l', O => l'
  | y :: l', S i' => y :: remove_nth i' l'
  end.

(* ================================================================== *)
(** ** One crawler *)

Module Crawler.
Import Patterns.

(** What the run has done so far, oldest first. *)
Inductive Event : Type :=
| EvShift (t : CrawlTarget)            (* [queue.shift()] returned [t] *)
| EvVisit (u : string) (d : Z)         (* [visitedUrls.add(u)] in [crawlUrl(u, d)] *)
| EvFetch (u : string)                 (* [fetchPage(u)] was called *)
| EvUpdate (upd : Update)              (* [onUpdate(upd)] *)
| EvPush (t : CrawlTarget).            (* [queue.push(t)] *)

(** A promise of [activePromises]: the call [crawlUrl(url, depth)] with its
    [then] and [finally] callbacks. *)
Inductive Task : Type :=
| Fetching (u : string) (d : Z) (progress : Q)
    (* suspended at [await this.fetchPage(url)] *)
| Resolved (newUrls : list string) (d : Z)
    (* [crawlUrl] has returned [newUrls]; the [then] callback is due *)
| Settling.
    (* the [then] callback has run; the [finally] callback is due *)

(** Where [crawl] stands.

    JavaScript runs one job at a time.  [crawl] runs from one suspension
    to the next without interruption, and its only suspension is
    [await Promise.race(activePromises)]; the pieces of a promise (the rest
    of [crawlUrl] after the fetch, the [then] callback, the [finally]
    callback) run as jobs of their own while [crawl] is suspended.  The
    order of these jobs is left open here: any promise may take its next
    piece, which covers every order the event loop can choose.  [crawl]
    resumes once a promise of the race has settled, that is, once a
    [finally] callback has run since it suspended.

    Nothing in the [try] block of [crawl] throws: [fetchPage] catches what
    [fetch] throws, the [URL] constructor is called inside [try], and
    [onUpdate] is taken to succeed.  So the [catch] branch, the only place
    that sends the status [error], has no step here. *)
Inductive Pc : Type :=
| AtOuter                  (* about to test the condition of the outer loop *)
| AtInner                  (* about to test the condition of the inner loop *)
| AtRace (settled : bool)  (* suspended at [await Promise.race(...)];
                              [settled]: one of the raced promises has settled *)
| Returned.                (* [crawl] has returned *)

Record State : Type := mkState {
  visitedUrls : list string;
  productUrls : list string;
  queue : list CrawlTarget;
  activePromises : list Task;
  pc : Pc;
  log : list Event
}.

Definition set_pc (p : Pc) (s : State) : State :=
  mkState (visitedUrls s) (productUrls s) (queue s) (activePromises s) p (log s).

Definition set_active (a : list Task) (s : State) : State :=
  mkState (visitedUrls s) (productUrls s) (queue s) a (pc s) (log s).

Definition record (e : Event) (s : State) : State :=
  mkState (visitedUrls s) (productUrls s) (queue s) (activePromises s) (pc s)
          (log s ++ [e]).

Definition onUpdate (upd : Update) (s : State) : State := record (EvUpdate upd) s.

Definition size (l : list string) : Z := Z.of_nat (List.length l).

(** Readings of the log. *)
Definition updates (l : list Event) : list Update :=
  flat_map (fun e => match e with EvUpdate u => [u] | _ => [] end) l.

Definition fetches (l : list Event) : list string :=
  flat_map (fun e => match e with EvFetch u => [u] | _ => [] end) l.

Definition visits (l : list Event) : list (string * Z) :=
  flat_map (fun e => match e with EvVisit u d => [(u, d)] | _ => [] end) l.

Definition shifted (l : list Event) : list CrawlTarget :=
  flat_map (fun e => match e with EvShift t => [t] | _ => [] end) l.

Definition pushed (l : list Event) : list CrawlTarget :=
  flat_map (fun e => match e with EvPush t => [t] | _ => [] end) l.

(** A product-discovery update: it supplies [productUrls] and no
    [status]. *)
Definition is_discovery (upd : Update) : bool :=
  match u_productUrls upd, u_status upd with
  | Some _, None => true
  | _, _ => false
  end.

(** The update that reports an admission: it supplies [progress] and
    nothing else. *)
Definition is_admission (upd : Update) : bool :=
  match u_productUrls upd, u_status upd with
  | None, None => true
  | _, _ => false
  end.

(** The progress values carried by the updates that [keep] selects. *)
Definition progress_values (keep : Update -> bool) (l : list Update) : list Q :=
  flat_map
    (fun upd =>
       if keep upd
       then match u_progress upd with Some p => [p] | None => [] end
       else [])
    l.

(** Every earlier value is at most every later one. *)
Definition nondecreasing (l : list Q) : Prop :=
  forall l1 a l2 b l3, l = l1 ++ a :: l2 ++ b :: l3 -> (a <= b)%Q.

(** The status of the last update that carries one. *)
Definition terminal_status (l : list Update) : option Status :=
  fold_left
    (fun acc upd => match u_status upd with Some st => Some st | None => acc end)
    l None.

(** The object literals passed to [onUpdate]. *)
Definition upd_crawling : Update :=
  mkUpdate None None (Some crawling) (Some 0%Q) None.
Definition upd_progress (p : Q) : Update :=
  mkUpdate None None None (Some p) None.
Definition upd_products (l : list string) (p : Q) : Update :=
  mkUpdate None (Some l) None (Some p) None.
Definition upd_completed (l : list string) : Update :=
  mkUpdate None (Some l) (Some completed) (Some 100%Q) None.

(** The progress values of the updates other than product discoveries,
    and of the admission updates. *)
Definition reports_of (l : list Event) : list Q :=
  progress_values (fun upd => negb (is_discovery upd)) (updates l).

Definition admissions_of (l : list Event) : list Q :=
  progress_values is_admission (updates l).

(** Every product-discovery update repeats a value that an earlier
    admission update carried. *)
Definition echoes (l : list Update) : Prop :=
  forall l1 upd l2,
    l = l1 ++ upd :: l2 -> is_discovery upd = true ->
    exists p, u_progress upd = Some p /\ In (upd_progress p) l1.

(** The shape of the updates the engine sends. *)
Definition engine_update (upd : Update) : Prop :=
  u_domain upd = None /\ u_error upd = None /\ u_progress upd <> None
  /\ u_status upd <> Some error /\ u_status upd <> Some pending.

Section Run.

Variable cfg : Config.

(** The platform: the network, and the [URL] class.
    [fetch u] is what the request for [u] comes to (a run asks for a URL
    at most once, so a function of the URL is all that a run can see);
    [url_href ref base] is [new URL(ref, base).href] and
    [url_hostname u] is [new URL(u).hostname], [None] when the
    constructor throws. *)
Variable fetch : string -> FetchOutcome.
Variable url_href : string -> string -> option string.
Variable url_hostname : string -> option string.

(** [isValidUrl] *)
Definition isValidUrl (u : string) : bool :=
  match url_hostname u, url_hostname (domain cfg) with
  | Some h, Some h0 => String.eqb h h0
  | _, _ => false
  end.

(** [extractUrls] *)
Definition extractUrls (html baseUrl : string) : list string :=
  let urls :=
    flat_map
      (fun href =>
         match url_href href baseUrl with
         | Some u => if isValidUrl u then [u] else []
         | None => []
         end)
      (Regex.captures linkRegex html) in
  dedup urls.

(** [response.ok] *)
Definition response_ok (status : Z) : bool :=
  (200 <=? status)%Z && (status <=? 299)%Z.

(** [fetchPage]: the body, or [None] for [null]. *)
Definition fetchPage (u : string) : option string :=
  match fetch u with
  | Responded status text => if response_ok status then text else None
  | TimedOut => None
  | TransportError => None
  end.

(** [Math.min((this.visitedUrls.size / this.maxPages) * 100, 100)] *)
Definition progress_value (visitedSize : Z) : Q :=
  Qmin ((inject_Z visitedSize / inject_Z (maxPages cfg)) * 100) 100.

(** The progress as the specification words it:
    [min(|visited| / maxPages, 1) * 100]. *)
Definition spec_progress (visitedSize : Z) : Q :=
  Qmin (inject_Z visitedSize / inject_Z (maxPages cfg)) 1 * 100.

(** The test that opens [crawlUrl]. *)
Definition refused (s : State) (u : string) (d : Z) : bool :=
  (d >? maxDepth cfg)%Z || set_has u (visitedUrls s)
  || (size (visitedUrls s) >=? maxPages cfg)%Z.

(** [crawlUrl(u, d)] from its call to its first suspension: either it
    returns the empty list at once, or it adds [u] to [visitedUrls],
    reports the progress, calls [fetchPage] and waits. *)
Definition crawlUrl_enter (u : string) (d : Z) (s : State) : State * Task :=
  if refused s u d then (s, Resolved [] d)
  else
    let visited := set_add u (visitedUrls s) in
    let s1 := mkState visited (productUrls s) (queue s) (activePromises s)
                      (pc s) (log s ++ [EvVisit u d]) in
    let progress := progress_value (size visited) in
    let s2 := onUpdate (upd_progress progress) s1 in
    (record (EvFetch u) s2, Fetching u d progress).

(** The filter that computes [urlsToVisit]. *)
Definition wanted (s : State) (d : Z) (extractedUrl : string) : bool :=
  negb (set_has extractedUrl (visitedUrls s))
  && (isProductUrl extractedUrl || isNavigationUrl extractedUrl || (d =? 0)%Z).

(** JavaScript truthiness of [html]: [null] and the empty string are
    falsy. *)
Definition truthy (html : option string) : option string :=
  match html with
  | Some EmptyString => None
  | other => other
  end.

(** [crawlUrl(u, d)] from the moment [fetchPage] settles to its
    return. *)
Definition crawlUrl_resume (u : string) (d : Z) (progress : Q) (s : State)
  : State * list string :=
  match truthy (fetchPage u) with
  | None => (s, [])
  | Some html =>
      let s1 :=
        if isProductUrl u then
          let products := set_add u (productUrls s) in
          onUpdate (upd_products products progress)
            (mkState (visitedUrls s) products (queue s) (activePromises s)
                     (pc s) (log s))
        else s in
      (s1, filter (wanted s1 d) (extractUrls html u))
  end.

(** The [then] callback of [crawl]: [newUrls.forEach] pushing the URLs
    that are not visited, one level below [d]. *)
Definition push (t : CrawlTarget) (s : State) : State :=
  mkState (visitedUrls s) (productUrls s) (queue s ++ [t])
          (activePromises s) (pc s) (log s ++ [EvPush t]).

Definition then_callback (newUrls : list string) (d : Z) (s : State) : State :=
  fold_left
    (fun s0 newUrl =>
       if negb (set_has newUrl (visitedUrls s0))
       then push (mkTarget newUrl (d + 1)) s0
       else s0)
    newUrls s.

(** The condition of the inner loop. *)
Definition may_start (s : State) : bool :=
  negb (Nat.eqb (List.length (queue s)) 0)
  && (Z.of_nat (List.length (activePromises s)) <? concurrency cfg)%Z
  && (size (visitedUrls s) <? maxPages cfg)%Z.

(** The condition of the outer loop. *)
Definition work_left (s : State) : bool :=
  negb (Nat.eqb (List.length (queue s)) 0)
  || negb (Nat.eqb (List.length (activePromises s)) 0).

(** One pass of the body of the inner loop. *)
Definition dispatch (s : State) : State :=
  match queue s with
  | [] => s
  | t :: rest =>
      let s1 := mkState (visitedUrls s) (productUrls s) rest
                        (activePromises s) (pc s) (log s ++ [EvShift t]) in
      let '(s2, promise) := crawlUrl_enter (url t) (depth t) s1 in
      set_active (activePromises s2 ++ [promise]) s2
  end.

(** The code of [crawl] between two suspensions, one test at a time. *)
Definition main_step (s : State) : option State :=
  match pc s with
  | AtOuter =>
      if work_left s then Some (set_pc AtInner s)
      else Some (set_pc Returned (onUpdate (upd_completed (productUrls s)) s))
  | AtInner =>
      if may_start s then Some (dispatch s)
      else if negb (Nat.eqb (List.length (activePromises s)) 0)
           then Some (set_pc (AtRace false) s)
           else Some (set_pc AtOuter s)
  | AtRace true => Some (set_pc AtOuter s)
  | AtRace false => None
  | Returned => None
  end.

(** The next piece of the [i]-th active promise.  The callbacks of a
    promise only run while [crawl] is suspended. *)
Definition promise_step (i : nat) (s : State) : option State :=
  match pc s, nth_error (activePromises s) i with
  | AtRace _, Some (Fetching u d progress) =>
      let '(s1, newUrls) := crawlUrl_resume u d progress s in
      Some (set_active (replace_nth i (Resolved newUrls d) (activePromises s1)) s1)
  | AtRace _, Some (Resolved newUrls d) =>
      let s1 := then_callback newUrls d s in
      Some (set_active (replace_nth i Settling (activePromises s1)) s1)
  | AtRace _, Some Settling =>
      Some (set_pc (AtRace true) (set_active (remove_nth i (activePromises s)) s))
  | _, _ => None
  end.

(** Who runs next is up to the event loop. *)
Inductive Choice : Type :=
| Main
| Promise (i : nat).

Definition step (c : Choice) (s : State) : option State :=
  match c with
  | Main => main_step s
  | Promise i => promise_step i s
  end.

Fixpoint run (cs : list Choice) (s : State) : option State :=
  match cs with
  | [] => Some s
  | c :: cs' =>
      match step c s with
      | Some s' => run cs' s'
      | None => None
      end
  end.

(** [crawl] up to the outer loop: the first update and the seeded
    queue. *)
Definition start : State :=
  onUpdate upd_crawling
    (mkState [] [] [mkTarget (domain cfg) 0] [] AtOuter []).

Inductive reachable : State -> Prop :=
| reach_start : reachable start
| reach_step s c s' : reachable s -> step c s = Some s' -> reachable s'.

End Run.
End Crawler.

(* ================================================================== *)
(** ** The route handler *)

Module Orchestrator.

(** The body of the request. *)
Record CrawlRequest : Type := mkRequest {
  domains : list string;
  r_maxDepth : Z;
  r_maxPages : Z;
  r_concurrency : Z
}.

(** The values an update line holds. *)
Inductive Json : Type :=
| JString (s : string)
| JNumber (q : Q)
| JStrings (l : list string).

(** An object: its own keys in creation order, the order in which
    [JSON.stringify] writes them. *)
Definition Obj : Type := list (string * Json).

Fixpoint lookup (k : string) (o : Obj) : option Json :=
  match o with
  | [] => None
  | (k', v) :: o' => if String.eqb k k' then Some v else lookup k o'
  end.

(** Defining a key: an existing key keeps its place and takes the new
    value, a new key goes last. *)
Fixpoint define (k : string) (v : Json) (o : Obj) : Obj :=
  match o with
  | [] => [(k, v)]
  | (k', v') :: o' =>
      if String.eqb k k' then (k', v) :: o' else (k', v') :: define k v o'
  end.

(** [{ ...o, ...more }] on top of [o]. *)
Definition spread (more o : Obj) : Obj :=
  fold_left (fun acc kv => define (fst kv) (snd kv) acc) more o.

Definition status_name (st : Status) : string :=
  match st with
  | pending => "pending"
  | crawling => "crawling"
  | completed => "completed"
  | error => "error"
  end.

(** The keys a partial update has. *)
Definition obj_of_update (update : Update) : Obj :=
  (match u_domain update with Some d => [("domain", JString d)] | None => [] end)
  ++ (match u_productUrls update with Some l => [("productUrls", JStrings l)] | None => [] end)
  ++ (match u_status update with Some st => [("status", JString (status_name st))] | None => [] end)
  ++ (match u_progress update with Some p => [("progress", JNumber p)] | None => [] end)
  ++ (match u_error update with Some e => [("error", JString e)] | None => [] end).

(** [fullUpdate] of the [onUpdate] closure of [POST]; the line written
    to the stream is [JSON.stringify(fullUpdate)] and a newline. *)
Definition fullUpdate (domain : string) (update : Update) : Obj :=
  spread (obj_of_update update)
    [ ("domain", JString domain);
      ("productUrls", JStrings []);
      ("status", JString "pending");
      ("progress", JNumber 0%Q) ].

Section Batch.

Variable req : CrawlRequest.
Variable fetch : string -> FetchOutcome.
Variable url_href : string -> string -> option string.
Variable url_hostname : string -> option string.

(** [new EcommerceCrawler(domain, maxDepth, maxPages, concurrency, onUpdate)] *)
Definition crawler_config (domain : string) : Config :=
  mkConfig domain (r_maxDepth req) (r_maxPages req) (r_concurrency req).

(** The crawlers of the request, each with its domain, and the lines
    enqueued on the stream so far, each with the index of the crawler
    whose [onUpdate] wrote it. *)
Record Batch : Type := mkBatch {
  crawlers : list (string * Crawler.State);
  stream : list (nat * Obj)
}.

Definition relay (i : nat) (domain : string) (before after : Crawler.State)
  : list (nat * Obj) :=
  map (fun upd => (i, fullUpdate domain upd))
      (Crawler.updates
         (skipn (List.length (Crawler.log before)) (Crawler.log after))).

(** [crawlers.map((crawler) => crawler.crawl())]: every crawler is
    started, in order. *)
Definition batch_start : Batch :=
  mkBatch
    (map (fun d => (d, Crawler.start (crawler_config d))) (domains req))
    (map (fun id => (fst id, fullUpdate (snd id) Crawler.upd_crawling))
         (combine (seq 0 (List.length (domains req))) (domains req))).

(** One step of the [i]-th crawler; its updates go to the shared
    stream.  The crawlers share nothing but the stream, so their steps
    are left to interleave in any order. *)
Definition batch_step (i : nat) (c : Crawler.Choice) (b : Batch) : option Batch :=
  match nth_error (crawlers b) i with
  | Some (d, s) =>
      match Crawler.step (crawler_config d) fetch url_href url_hostname c s with
      | Some s' =>
          Some (mkBatch (replace_nth i (d, s') (crawlers b))
                        (stream b ++ relay i d s s'))
      | None => None
      end
  | None => None
  end.

Fixpoint batch_run (steps : list (nat * Crawler.Choice)) (b : Batch) : option Batch :=
  match steps with
  | [] => Some b
  | (i, c) :: steps' =>
      match batch_step i c b with
      | Some b' => batch_run steps' b'
      | None => None
      end
  end.

Inductive batch_reachable : Batch -> Prop :=
| breach_start : batch_reachable batch_start
| breach_step b i c b' :
    batch_reachable b -> batch_step i c b = Some b' -> batch_reachable b'.

(** The lines of the [i]-th crawler, in stream order. *)
Definition keep (i : nat) (l : nat * Obj) : list Obj :=
  if Nat.eqb (fst l) i then [snd l] else [].

Definition lines_of (i : nat) (b : Batch) : list Obj :=
  flat_map (keep i) (stream b).

End Batch.
End Orchestrator.

(* ================================================================== *)
(** ** A small web to run the crawler on *)

Module TestWeb.

(** A stand-in for the [URL] class that covers what the scenarios use:
    absolute [http] and [https] URLs, and references that start with a
    slash, resolved against the origin of the base. *)
Definition scheme_of (u : string) : option string :=
  if prefix "https://" u then Some "https://"
  else if prefix "http://" u then Some "http://"
  else None.

Fixpoint until_slash (s : string) : string :=
  match s with
  | EmptyString => EmptyString
  | String c s' => if Ascii.eqb c "/"%char then EmptyString else String c (until_slash s')
  end.

Definition url_hostname (u : string) : option string :=
  match scheme_of u with
  | Some sch =>
      Some (until_slash (substring (String.length sch) (String.length u) u))
  | None => None
  end.

Definition url_href (ref base : string) : option string :=
  match scheme_of ref with
  | Some _ => Some ref
  | None =>
      if prefix "/" ref then
        match scheme_of base, url_hostname base with
        | Some sch, Some host => Some (sch ++ host ++ ref)%string
        | _, _ => None
        end
      else None
  end.

(** A site: what each URL answers; anything else is unreachable. *)
Definition Site : Type := list (string * FetchOutcome).

Fixpoint fetch_of (site : Site) (u : string) : FetchOutcome :=
  match site with
  | [] => TransportError
  | (u', out) :: site' => if String.eqb u u' then out else fetch_of site' u
  end.

Definition seed : string := "https://x.test/".
Definition product1 : string := "https://x.test/product/1".
Definition categoryA : string := "https://x.test/category/a".
Definition categoryB : string := "https://x.test/category/b".

Definition ok (body : string) : FetchOutcome := Responded 200 (Some body).

Definition seed_html : string :=
  "<html><a href='/product/1'>Widget</a> <a href='/category/a'>All</a></html>".
Definition product1_html : string :=
  "<html><h1>Widget</h1><a href='/category/b'>More</a></html>".

(** A seed page with links to [/product/1] and [/category/a]; both of
    these link to [/category/b]. *)
Definition shop : Site :=
  [ (seed, ok seed_html);
    (product1, ok product1_html);
    (categoryA, ok "<html><a href='/product/1'>Widget</a><a href='/category/b'>More</a></html>");
    (categoryB, ok "<html>Nothing here</html>") ].

Definition five_html : string :=
  "<a href='/a'>a</a><a href='/b'>b</a><a href='/c'>c</a><a href='/d'>d</a><a href='/e'>e</a>".

(** A seed page with links to five further pages. *)
Definition five_links : Site :=
  [ (seed, ok five_html);
    ("https://x.test/a", ok "a"); ("https://x.test/b", ok "b");
    ("https://x.test/c", ok "c"); ("https://x.test/d", ok "d");
    ("https://x.test/e", ok "e") ].

(** A seed whose fetch times out. *)
Definition silent : Site := [ (seed, TimedOut) ].

Definition run_on (cfg : Config) (site : Site) (cs : list Crawler.Choice)
  : option Crawler.State :=
  Crawler.run cfg (fetch_of site) url_href url_hostname cs (Crawler.start cfg).

Definition reachable_on (cfg : Config) (site : Site) : Crawler.State -> Prop :=
  Crawler.reachable cfg (fetch_of site) url_href url_hostname.

End TestWeb.

(* ================================================================== *)
(** ** The steps of a run, case by case; progress towards the end *)

Module Steps.
Import Patterns Crawler.

Section Steps.

Variable cfg : Config.
Variable fetch : string -> FetchOutcome.
Variable url_href : string -> string -> option string.
Variable url_hostname : string -> option string.

Definition fresh (s : State) (u : string) : bool :=
  negb (set_has u (visitedUrls s)).

Definition targets (d : Z) (urls : list string) : list CrawlTarget :=
  map (fun u => mkTarget u (d + 1)) urls.

Definition links (s : State) (d : Z) (html u : string) : list string :=
  filter (wanted s d) (extractUrls cfg url_href url_hostname html u).

(** Each way a state can step, with the state it leads to written
    out. *)
Inductive trans (s : State) : State -> Prop :=
| t_enter :
    pc s = AtOuter -> work_left s = true ->
    trans s (set_pc AtInner s)
| t_return :
    pc s = AtOuter -> work_left s = false ->
    trans s (set_pc Returned (onUpdate (upd_completed (productUrls s)) s))
| t_refuse t rest :
    pc s = AtInner -> may_start cfg s = true -> queue s = t :: rest ->
    ((depth t >? maxDepth cfg)%Z || set_has (url t) (visitedUrls s)
     || (size (visitedUrls s) >=? maxPages cfg)%Z) = true ->
    trans s (mkState (visitedUrls s) (productUrls s) rest
                     (activePromises s ++ [Resolved [] (depth t)])
                     (pc s) (log s ++ [EvShift t]))
| t_admit t rest :
    pc s = AtInner -> may_start cfg s = true -> queue s = t :: rest ->
    (depth t >? maxDepth cfg)%Z = false ->
    set_has (url t) (visitedUrls s) = false ->
    (size (visitedUrls s) >=? maxPages cfg)%Z = false ->
    let p := progress_value cfg (size (visitedUrls s ++ [url t])) in
    trans s (mkState (visitedUrls s ++ [url t]) (productUrls s) rest
                     (activePromises s ++ [Fetching (url t) (depth t) p])
                     (pc s)
                     (log s ++ [EvShift t; EvVisit (url t) (depth t);
                                EvUpdate (upd_progress p); EvFetch (url t)]))
| t_await :
    pc s = AtInner -> may_start cfg s = false -> activePromises s <> [] ->
    trans s (set_pc (AtRace false) s)
| t_loop :
    pc s = AtInner -> may_start cfg s = false -> activePromises s = [] ->
    trans s (set_pc AtOuter s)
| t_wake :
    pc s = AtRace true ->
    trans s (set_pc AtOuter s)
| t_fail b i u d p :
    pc s = AtRace b -> nth_error (activePromises s) i = Some (Fetching u d p) ->
    truthy (fetchPage fetch u) = None ->
    trans s (set_active (replace_nth i (Resolved [] d) (activePromises s)) s)
| t_page b i u d p html :
    pc s = AtRace b -> nth_error (activePromises s) i = Some (Fetching u d p) ->
    truthy (fetchPage fetch u) = Some html -> isProductUrl u = false ->
    trans s (set_active
               (replace_nth i (Resolved (links s d html u) d) (activePromises s)) s)
| t_product b i u d p html :
    pc s = AtRace b -> nth_error (activePromises s) i = Some (Fetching u d p) ->
    truthy (fetchPage fetch u) = Some html -> isProductUrl u = true ->
    trans s (mkState (visitedUrls s) (set_add u (productUrls s)) (queue s)
                     (replace_nth i (Resolved (links s d html u) d)
                                  (activePromises s))
                     (pc s)
                     (log s ++ [EvUpdate (upd_products (set_add u (productUrls s)) p)]))
| t_then b i newUrls d :
    pc s = AtRace b -> nth_error (activePromises s) i = Some (Resolved newUrls d) ->
    trans s (mkState (visitedUrls s) (productUrls s)
                     (queue s ++ targets d (filter (fresh s) newUrls))
                     (replace_nth i Settling (activePromises s))
                     (pc s)
                     (log s ++ map EvPush (targets d (filter (fresh s) newUrls))))
| t_finally b i :
    pc s = AtRace b -> nth_error (activePromises s) i = Some Settling ->
    trans s (mkState (visitedUrls s) (productUrls s) (queue s)
                     (remove_nth i (activePromises s)) (AtRace true) (log s)).

(** The depths a queue entry and a promise can have. *)
Definition target_ok (t : CrawlTarget) : Prop :=
  (depth t = 0 \/ depth t <= maxDepth cfg + 1)%Z.

Definition task_ok (t : Task) : Prop :=
  match t with
  | Fetching _ d _ => (d <= maxDepth cfg)%Z
  | Resolved newUrls d => NoDup newUrls /\ (newUrls = [] \/ (d <= maxDepth cfg)%Z)
  | Settling => True
  end.

(** The largest value reported so far. *)
Definition ceiling (s : State) : Q :=
  match pc s with
  | Returned => 100
  | _ => match visitedUrls s with
         | [] => 0
         | _ => progress_value cfg (size (visitedUrls s))
         end
  end.

(** The states of a run whose seed page cannot be had: the seed is
    still in the queue, or the queue is empty and at most the one
    promise of the seed is left. *)
Definition after_failed_seed (s : State) : Prop :=
  productUrls s = []
  /\ ((queue s = [mkTarget (domain cfg) 0] /\ activePromises s = []
       /\ visitedUrls s = [] /\ (pc s = AtOuter \/ pc s = AtInner))
      \/ (queue s = []
          /\ (activePromises s = []
              \/ (exists p, activePromises s = [Fetching (domain cfg) 0 p])
              \/ (exists d, activePromises s = [Resolved [] d])
              \/ activePromises s = [Settling]))).

(** The states of a run with [maxPages = 1] whose seed page links to a
    further page: up to the expansion of the seed as in any run, and from
    then on the seed visited, the queue not empty and at most the promise
    of the seed left. *)
Definition seed_only (s : State) : Prop :=
  pc s <> Returned
  /\ Forall (fun upd => u_status upd <> Some completed) (updates (log s))
  /\ ((queue s = [mkTarget (domain cfg) 0] /\ activePromises s = []
       /\ visitedUrls s = [])
      \/ (queue s = [] /\ visitedUrls s = [domain cfg]
          /\ exists p, activePromises s = [Fetching (domain cfg) 0 p])
      \/ (queue s = [] /\ visitedUrls s = [domain cfg]
          /\ exists newUrls,
              activePromises s = [Resolved newUrls 0]
              /\ exists u, In u newUrls /\ u <> domain cfg)
      \/ (queue s <> [] /\ visitedUrls s = [domain cfg]
          /\ (activePromises s = [Settling] \/ activePromises s = []))).

(** The only place where the loop of [crawl] can turn without doing
    anything: nothing may start, nothing is in flight, the queue is not
    empty. *)
Definition idle (s : State) : Prop :=
  pc s = AtInner /\ may_start cfg s = false /\ activePromises s = []
  /\ queue s <> [].

(** What is left to do, in four figures compared from the left: pages
    that may still be admitted; fetches in flight; callbacks and queue
    entries to go through; tests of [crawl] before its next suspension. *)
Definition pages_left (s : State) : nat :=
  Z.to_nat (maxPages cfg - size (visitedUrls s)).

Definition in_flight (s : State) : nat :=
  List.length (filter (fun t => match t with Fetching _ _ _ => true | _ => false end)
                      (activePromises s)).

Definition task_weight (t : Task) : nat :=
  match t with
  | Fetching _ _ _ => 0
  | Resolved newUrls _ => 3 * List.length newUrls + 2
  | Settling => 1
  end.

Definition weight (s : State) : nat :=
  3 * List.length (queue s) + list_sum (map task_weight (activePromises s)).

Definition rank (s : State) : nat :=
  match pc s with
  | Returned => 0
  | AtOuter => if work_left s then 5 else 1
  | AtInner => 4
  | AtRace false => 3
  | AtRace true => 6
  end.

Definition measure (s : State) : nat * (nat * (nat * nat)) :=
  (pages_left s, (in_flight s, (weight s, rank s))).

Definition smaller : nat * (nat * (nat * nat)) -> nat * (nat * (nat * nat)) -> Prop :=
  slexprod _ _ lt (slexprod _ _ lt (slexprod _ _ lt lt)).

(** On every schedule the run comes to a state where [P] holds: [P]
    holds now, or the state can step and every step leads to a state
    of which the same is true. *)
Inductive inevitably (P : State -> Prop) (s : State) : Prop :=
| inev_now : P s -> inevitably P s
| inev_later :
    (exists c s', step cfg fetch url_href url_hostname c s = Some s') ->
    (forall c s', step cfg fetch url_href url_hostname c s = Some s' ->
                  inevitably P s') ->
    inevitably P s.

End Steps.
End Steps.

(* ================================================================== *)
(** ** The run from a seed page with a product link and a category link *)

Module Storefront.
Import Crawler TestWeb.

(** [maxDepth = 1], [maxPages = 10], [concurrency = 2]. *)
Definition cfg : Config := mkConfig seed 1 10 2.

Definition child (u : string) : Prop := u = product1 \/ u = categoryA.

Definition queued_ok (t : CrawlTarget) : Prop :=
  depth t = 2%Z \/ (depth t = 1%Z /\ child (url t)).

Definition promise_ok (t : Task) : Prop :=
  match t with
  | Fetching u d _ => d = 1%Z /\ child u
  | Resolved newUrls d => d = 1%Z \/ newUrls = []
  | Settling => True
  end.

(** The product page is still to come, is being fetched, or is
    recorded. *)
Definition product_pending (s : State) : Prop :=
  (In (mkTarget product1 1) (queue s) /\ ~ In product1 (visitedUrls s))
  \/ (exists p, In (Fetching product1 1 p) (activePromises s))
  \/ productUrls s = [product1].

(** Up to the expansion of the seed page. *)
Definition seed_phase (s : State) : Prop :=
  productUrls s = []
  /\ ((queue s = [mkTarget seed 0] /\ activePromises s = []
       /\ visitedUrls s = [] /\ (pc s = AtOuter \/ pc s = AtInner))
      \/ (queue s = [] /\ visitedUrls s = [seed]
          /\ exists p, activePromises s = [Fetching seed 0 p])
      \/ (queue s = [] /\ visitedUrls s = [seed]
          /\ activePromises s = [Resolved [product1; categoryA] 0])).

(** From then on. *)
Definition crawl_phase (s : State) : Prop :=
  incl (visitedUrls s) [seed; product1; categoryA]
  /\ (productUrls s = [] \/ productUrls s = [product1])
  /\ Forall queued_ok (queue s)
  /\ Forall promise_ok (activePromises s)
  /\ product_pending s.

Definition shape (s : State) : Prop := seed_phase s \/ crawl_phase s.

End Storefront.

(* ================================================================== *)
(** ** Schedules on the small web *)

Module Runs.
Import Crawler TestWeb.

(** The state a schedule leads to (the start, should the schedule ask for
    a step that is not enabled). *)
Definition state_after (cfg : Config) (site : Site) (cs : list Choice) : State :=
  match run_on cfg site cs with
  | Some s => s
  | None => Crawler.start cfg
  end.

(** [maxDepth = 0]. *)
Definition shallow : Config := mkConfig seed 0 10 2.
(** [concurrency = 1], [maxDepth = 2]. *)
Definition one_at_a_time : Config := mkConfig seed 2 10 1.
(** [maxPages = 1]. *)
Definition one_page : Config := mkConfig seed 3 1 2.

(** The seed is dispatched, [crawl] suspends, the fetch of the seed
    settles and the callbacks of its promise run. *)
Definition seed_done : list Choice :=
  [Main; Main; Main; Promise 0; Promise 0; Promise 0].

(** ... [crawl] resumes and dispatches both links of the seed, then the
    fetch of the first one settles. *)
Definition first_of_two : list Choice :=
  seed_done ++ [Main; Main; Main; Main; Main; Promise 0].

(** ... and the run goes on to the end. *)
Definition to_the_end : list Choice :=
  first_of_two
  ++ [Promise 1; Promise 0; Promise 0; Promise 0; Promise 0;
      Main; Main; Main; Main; Main;
      Promise 0; Promise 0; Promise 0; Promise 0; Main; Main].

(** ... [crawl] resumes and dispatches the first link of the seed. *)
Definition first_link : list Choice := seed_done ++ [Main; Main; Main].

(** With one promise at a time: the seed, then the product page up to its
    [finally] callback, then the category page up to its [then]
    callback. *)
Definition page_by_page : list Choice :=
  seed_done
  ++ [Main; Main; Main; Main; Promise 0; Promise 0; Promise 0]
  ++ [Main; Main; Main; Main; Promise 0; Promise 0].

(** ... [crawl] resumes and tests the outer condition. *)
Definition back_in_loop : list Choice := seed_done ++ [Main; Main].

(** States of these runs. *)
Definition midrun : State := state_after Storefront.cfg shop first_of_two.
Definition before_push : State :=
  state_after one_at_a_time shop (removelast page_by_page).
Definition after_push : State := state_after one_at_a_time shop page_by_page.
Definition awaiting_seed : State :=
  state_after Storefront.cfg silent [Main; Main; Main].

(** A seed that times out and a second domain that answers. *)
Definition other_seed : string := "https://y.test/".

Definition two_domains : Site :=
  [ (seed, TimedOut);
    (other_seed, ok "<html><a href='/item/7'>Seven</a></html>");
    ("https://y.test/item/7", ok "<html>Seven</html>") ].

Definition request : Orchestrator.CrawlRequest :=
  Orchestrator.mkRequest [seed; other_seed] 1 10 2.

(** The second crawler of the batch up to the discovery of its product,
    with the first crawler taking a step now and then. *)
Definition second_finds_product : list (nat * Choice) :=
  [(1, Main); (0, Main); (1, Main); (1, Main); (0, Main); (1, Promise 0);
   (1, Promise 0); (1, Promise 0); (0, Main); (1, Main); (1, Main); (1, Main);
   (1, Main); (0, Promise 0); (1, Promise 0)]%nat.

Definition batch_after (steps : list (nat * Choice)) : Orchestrator.Batch :=
  match Orchestrator.batch_run request (fetch_of two_domains) url_href url_hostname
                               steps (Orchestrator.batch_start request) with
  | Some b => b
  | None => Orchestrator.batch_start request
  end.

Definition batch_found : Orchestrator.Batch := batch_after second_finds_product.

Definition second_found : State :=
  state_after (Orchestrator.crawler_config request other_seed) two_domains
              (seed_done ++ [Main; Main; Main; Main; Promise 0]).

End Runs.

(* ================================================================== *)
(** ** What the sets and the queue of a crawler hold *)

Module Holdings.
Import Patterns Crawler.

Section Holdings.

Variable cfg : Config.
Variable fetch : string -> FetchOutcome.
Variable url_href : string -> string -> option string.
Variable url_hostname : string -> option string.

(** The seed itself, or a URL that [isValidUrl] accepts. *)
Definition same_host (u : string) : Prop :=
  u = domain cfg \/ isValidUrl cfg url_hostname u = true.

(** A URL that one of the two pattern tables matches. *)
Definition shaped (u : string) : Prop :=
  isProductUrl u = true \/ isNavigationUrl u = true.

(** The links of a page at depth [d] that the crawl follows. *)
Definition followed (d : Z) (x : string) : Prop := d = 0%Z \/ shaped x.

(** The fetch of [u] ends with a success status and a body that is not
    empty. *)
Definition fetched_ok (u : string) : Prop :=
  exists status body,
    fetch u = Responded status (Some body)
    /\ response_ok status = true /\ body <> EmptyString.

(** The URLs a promise holds. *)
Definition task_urls (t : Task) : list string :=
  match t with
  | Fetching u _ _ => [u]
  | Resolved newUrls _ => newUrls
  | Settling => []
  end.

(** [l'] begins with [l]. *)
Definition prefix_of (l l' : list string) : Prop :=
  exists rest, l' = l ++ rest.

(** Every earlier list is a prefix of every later one. *)
Definition extending (ls : list (list string)) : Prop :=
  forall l1 a l2 b l3, ls = l1 ++ a :: l2 ++ b :: l3 -> prefix_of a b.

(** The product lists that the updates carry, oldest first. *)
Definition product_lists (l : list Update) : list (list string) :=
  flat_map (fun upd => match u_productUrls upd with Some x => [x] | None => [] end) l.

(** The seed has been visited. *)
Definition rooted (s : State) : Prop := In (domain cfg) (visitedUrls s).

(** The depths below the seed: a queue entry is the seed at depth 0 or a
    later target, which is not the seed; a fetch at depth 0 is the fetch of
    the seed; a promise that can still push has a depth that is not
    negative.  All but the first entry only exist once the seed is
    visited. *)
Definition queue_rooted (s : State) (t : CrawlTarget) : Prop :=
  t = mkTarget (domain cfg) 0
  \/ ((1 <= depth t)%Z /\ url t <> domain cfg /\ rooted s).

Definition task_rooted (s : State) (t : Task) : Prop :=
  match t with
  | Fetching u d _ => rooted s /\ ((d = 0%Z /\ u = domain cfg) \/ (1 <= d)%Z)
  | Resolved newUrls d => newUrls = [] \/ ((0 <= d)%Z /\ rooted s)
  | Settling => True
  end.

Definition visit_rooted (ud : string * Z) : Prop :=
  (snd ud = 0%Z /\ fst ud = domain cfg) \/ (1 <= snd ud)%Z.

(** What the expansion filter lets through below the seed. *)
Definition task_shaped (t : Task) : Prop :=
  match t with
  | Resolved newUrls d => d = 0%Z \/ Forall shaped newUrls
  | _ => True
  end.

(** A value between 0 and 100, as is the progress that a fetch in flight
    will report again. *)
Definition percentage (p : Q) : Prop := (0 <= p)%Q /\ (p <= 100)%Q.

Definition task_in_range (t : Task) : Prop :=
  match t with
  | Fetching _ _ p => percentage p
  | _ => True
  end.

(** A run whose seed has no hostname: before and after the seed is taken
    from the queue. *)
Definition task_barren (t : Task) : Prop :=
  match t with
  | Resolved newUrls _ => newUrls = []
  | _ => True
  end.

Definition seed_waiting (s : State) : Prop :=
  queue s = [mkTarget (domain cfg) 0] /\ visitedUrls s = []
  /\ activePromises s = [].

Definition seed_taken (s : State) : Prop :=
  queue s = [] /\ Forall (eq (domain cfg)) (visitedUrls s)
  /\ Forall task_barren (activePromises s).

(** Where a followed link [x] of the visited page [u] is: visited, still
    to be found by the fetch of [u], on its way to the queue, or in the
    queue. *)
Definition link_accounted (s : State) (u : string) (d : Z) (x : string) : Prop :=
  In x (visitedUrls s)
  \/ (exists p, In (Fetching u d p) (activePromises s))
  \/ (exists l, In (Resolved l d) (activePromises s) /\ In x l)
  \/ In (mkTarget x (d + 1)) (queue s).

(** Where a visited product page is: in the product set, or still being
    fetched. *)
Definition product_accounted (s : State) (u : string) : Prop :=
  In u (productUrls s)
  \/ exists d p, In (Fetching u d p) (activePromises s).

(** The state of a run that cannot start anything. *)
Definition stalled (s : State) : Prop :=
  queue s = [mkTarget (domain cfg) 0] /\ activePromises s = []
  /\ visitedUrls s = [] /\ log s = [EvUpdate upd_crawling]
  /\ (pc s = AtOuter \/ pc s = AtInner).

End Holdings.
End Holdings.

(* ================================================================== *)
(** ** The page that shows the results *)

Module Client.
Import Orchestrator.

(** [a === b] for two values read from parsed lines or from results built
    from them: strings are compared by their characters and numbers by
    their value; the arrays of two objects are never the same array; a key
    that an object lacks reads [undefined], which is equal to itself
    only. *)
Definition strict_equal (a b : option Json) : bool :=
  match a, b with
  | None, None => true
  | Some (JString x), Some (JString y) => String.eqb x y
  | Some (JNumber p), Some (JNumber q) => Qeq_bool p q
  | _, _ => false
  end.

(** The entry of [initialResults] for a domain of the list, trimmed. *)
Definition initialResult (domain : string) : Obj :=
  [ ("domain", JString domain);
    ("productUrls", JStrings []);
    ("status", JString "pending");
    ("progress", JNumber 0%Q) ].

(** The function handed to [setCrawlResults] for the parsed line
    [update]: [prev.map((result) => result.domain === update.domain ?
    { ...result, ...update } : result)]. *)
Definition applyUpdate (update : Obj) (prev : list Obj) : list Obj :=
  map (fun result =>
         if strict_equal (lookup "domain" result) (lookup "domain" update)
         then spread update result
         else result)
      prev.

(** The loop over the stream, for lines that arrive whole and parse to
    objects (a line that does not parse is skipped by the [catch] and
    leaves the results as they are): the state updates are applied in the
    order of the lines. *)
Definition readStream (lines : list Obj) (results : list Obj) : list Obj :=
  fold_left (fun prev update => applyUpdate update prev) lines results.

(** [crawlResults] after [startCrawling] has set the initial results for
    the trimmed domains and read [lines]. *)
Definition crawlResults (domains : list string) (lines : list Obj) : list Obj :=
  readStream lines (map initialResult domains).

(** The object that [downloadResults] builds with
    [acc[result.domain] = result.productUrls], for results whose [domain]
    is a string and whose [productUrls] is set; [None] when a result is not
    of that kind. *)
Fixpoint downloadResults_from (results : list Obj) (acc : Obj) : option Obj :=
  match results with
  | [] => Some acc
  | result :: rest =>
      match lookup "domain" result, lookup "productUrls" result with
      | Some (JString d), Some urls => downloadResults_from rest (define d urls acc)
      | _, _ => None
      end
  end.

Definition downloadResults (results : list Obj) : option Obj :=
  downloadResults_from results [].

(** [totalUrls]: the sum of [result.productUrls.length], for results
    whose [productUrls] is a list; [None] when a result is not of that
    kind. *)
Fixpoint totalUrls_from (results : list Obj) (sum : nat) : option nat :=
  match results with
  | [] => Some sum
  | result :: rest =>
      match lookup "productUrls" result with
      | Some (JStrings l) => totalUrls_from rest (sum + List.length l)
      | _ => None
      end
  end.

Definition totalUrls (results : list Obj) : option nat :=
  totalUrls_from results 0.

(** [completedDomains]. *)
Definition completedDomains (results : list Obj) : nat :=
  List.length
    (filter (fun r => strict_equal (lookup "status" r)
                                   (Some (JString "completed")))
            results).

(** [overallProgress]: the mean of [r.progress], 0 for no results; for
    results whose [progress] is a number. *)
Fixpoint progress_from (results : list Obj) (sum : Q) : option Q :=
  match results with
  | [] => Some sum
  | result :: rest =>
      match lookup "progress" result with
      | Some (JNumber p) => progress_from rest (sum + p)%Q
      | _ => None
      end
  end.

Definition overallProgress (results : list Obj) : option Q :=
  if (0 <? List.length results)%nat
  then match progress_from results 0%Q with
       | Some sum => Some (sum / inject_Z (Z.of_nat (List.length results)))%Q
       | None => None
       end
  else Some 0%Q.

(** What the page shows for a batch: the results after the lines that the
    handler has put on the stream. *)
Definition shown (req : CrawlRequest) (b : Batch) : list Obj :=
  crawlResults (domains req) (map snd (stream b)).

(** An object with the four keys of a result, in their order, and no
    other. *)
Definition plain (d : string) (o : Obj) : Prop :=
  exists l st p,
    o = [ ("domain", JString d); ("productUrls", JStrings l);
          ("status", JString st); ("progress", JNumber p) ].

(** A line of the stream that comes from the crawler of its tag and is
    plain. *)
Definition tagged (doms : list string) (line : nat * Obj) : Prop :=
  exists d, nth_error doms (fst line) = Some d /\ plain d (snd line).

(** The last line of a crawler that has returned. *)
Definition final_result (ds : string * Crawler.State) : Obj :=
  fullUpdate (fst ds)
             (Crawler.upd_completed (Crawler.productUrls (snd ds))).

(** The last of the lines tagged [i], or [dflt]. *)
Definition last_line (i : nat) (lines : list (nat * Obj)) (dflt : Obj) : Obj :=
  last (flat_map (keep i) lines) dflt.

End Client.

(* ================================================================== *)
(** ** What the pattern tables accept *)

Module Classifier.
Import Regex Patterns.

(** The lower-case variant of an ASCII capital; other characters are left
    alone. *)
Definition to_lower (c : ascii) : ascii :=
  if is_upper c then ascii_of_nat (nat_of_ascii c + 32) else c.

Fixpoint lower (s : string) : string :=
  match s with
  | EmptyString => EmptyString
  | String c s' => String (to_lower c) (lower s')
  end.

Fixpoint all_chars (f : ascii -> bool) (s : string) : bool :=
  match s with
  | EmptyString => true
  | String c s' => f c && all_chars f s'
  end.

(** [q] occurs in [u], letters compared without regard to case. *)
Definition occurs_ci (q u : string) : Prop :=
  exists a w b, u = (a ++ w ++ b)%string /\ lower w = q.

(** The texts of the patterns that are plain texts. *)
Definition PRODUCT_SEGMENTS : list string :=
  [ "/product/"; "/item/"; "/p/"; "/products/"; "/dp/"; "/goods/";
    "/detail/"; "/buy/" ].

Definition NAVIGATION_SEGMENTS : list string :=
  [ "/category/"; "/categories/"; "/collection/"; "/collections/";
    "/brand/"; "/brands/"; "/shop/"; "/store/"; "/catalog/"; "/browse/";
    "/men/"; "/women/"; "/kids/"; "/sale/"; "/new/"; "/trending/" ].

(** A letter, a digit or a hyphen. *)
Definition is_slug_char (c : ascii) : bool :=
  is_lower c || is_upper c || in_range c ("0"%char, "9"%char)
  || Ascii.eqb c "-"%char.

(** A path segment of one or more such characters. *)
Definition slug (s : string) : Prop :=
  s <> EmptyString /\ all_chars is_slug_char s = true.

(** What is left of [s] after the text [q] at its head, read as the
    matcher reads a plain text. *)
Fixpoint strip (q s : string) : option string :=
  match q with
  | EmptyString => Some s
  | String a q' =>
      match s with
      | String c s' => if cls_match (CChar a) c then strip q' s' else None
      | EmptyString => None
      end
  end.

(** The iteration of [Star r1] inside [m], by its fuel. *)
Definition star_from (r1 : re) (k : string -> option string -> option result)
  : nat -> string -> option string -> option result :=
  fix iter (fuel : nat) (s0 : string) (cap0 : option string) : option result :=
    match fuel with
    | O => k s0 cap0
    | S fuel' =>
        orelse
          (m r1 s0 cap0
             (fun s1 cap1 =>
                if (String.length s1 <? String.length s0)%nat
                then iter fuel' s1 cap1
                else None))
          (k s0 cap0)
    end.

(** All the characters. *)
Definition all_ascii : list ascii := map ascii_of_nat (List.seq 0 256).

End Classifier.

(* ================================================================== *)
(** ** More runs *)

Module MoreRuns.
Import Crawler TestWeb Runs.

(** [maxPages = 0]. *)
Definition no_room : Config := mkConfig seed 3 0 2.

(** A domain typed without its scheme. *)
Definition bare : Config := mkConfig "x.test" 1 10 2.

Definition three_tests : list Choice := [Main; Main; Main].

(** The run of the storefront at its end. *)
Definition finished : State := state_after Storefront.cfg shop to_the_end.

(** The two crawlers of the batch, one after the other, each up to its
    return. *)
Definition first_crawler : list Choice :=
  [Main; Main; Main; Promise 0; Promise 0; Promise 0; Main; Main].

Definition second_crawler : list Choice :=
  seed_done
  ++ [Main; Main; Main; Main; Promise 0; Promise 0; Promise 0; Main; Main].

Definition both_finish : list (nat * Choice) :=
  map (fun c => (0%nat, c)) first_crawler
  ++ map (fun c => (1%nat, c)) second_crawler.

Definition batch_done : Orchestrator.Batch := batch_after both_finish.

Definition first_done : State :=
  state_after (Orchestrator.crawler_config request seed) two_domains
              first_crawler.

Definition second_done : State :=
  state_after (Orchestrator.crawler_config request other_seed) two_domains
              second_crawler.

End MoreRuns.

(* ================================================================== *)
(** * Properties *)

Module Facts.
Import Patterns Crawler Steps.

(** *** Lists used as sets *)

Lemma set_has_true x l : set_has x l = true <-> In x l.
Proof.
  unfold set_has. rewrite existsb_exists. split.
  - intros [y [Hin Heq]]. apply String.eqb_eq in Heq. now subst.
  - intros Hin. exists x. split; [assumption | apply String.eqb_refl].
Qed.

Lemma set_has_false x l : set_has x l = false <-> ~ In x l.
Proof.
  rewrite <- set_has_true. destruct (set_has x l); split; congruence.
Qed.

Lemma set_add_nodup x l : NoDup l -> NoDup (set_add x l).
Proof.
  intros Hl. unfold set_add. destruct (set_has x l) eqn:E; [assumption |].
  apply set_has_false in E.
  apply NoDup_app; [assumption | repeat constructor; intros [] | ].
  intros y Hy [Heq | []]. subst. contradiction.
Qed.

Lemma dedup_nodup_from urls acc :
  NoDup acc -> NoDup (fold_left (fun a u => set_add u a) urls acc).
Proof.
  revert acc. induction urls as [| u urls IH]; intros acc Hacc; simpl.
  - assumption.
  - apply IH. now apply set_add_nodup.
Qed.

Lemma dedup_nodup urls : NoDup (dedup urls).
Proof. apply dedup_nodup_from. constructor. Qed.

Lemma filter_nodup {A} (f : A -> bool) l : NoDup l -> NoDup (filter f l).
Proof.
  induction 1 as [| x l Hx Hl IH]; simpl; [constructor |].
  destruct (f x); [constructor |]; try assumption.
  intros Hin. apply filter_In in Hin. tauto.
Qed.

Lemma in_replace_nth {A} i (x : A) l :
  forall z, In z (replace_nth i x l) -> z = x \/ In z l.
Proof.
  revert i. induction l as [| a l IH]; intros [| i] z; simpl; try tauto.
  - intros [H | H]; auto.
  - intros [H | H]; auto. destruct (IH i z H); auto.
Qed.

Lemma in_remove_nth {A} i (l : list A) :
  forall z, In z (remove_nth i l) -> In z l.
Proof.
  revert i. induction l as [| a l IH]; intros [| i] z; simpl; try tauto.
  intros [H | H]; eauto.
Qed.

Lemma length_replace_nth {A} i (x : A) l :
  List.length (replace_nth i x l) = List.length l.
Proof.
  revert i. induction l as [| a l IH]; intros [| i]; simpl; auto.
Qed.

Lemma length_remove_nth {A} i (l : list A) x :
  nth_error l i = Some x -> S (List.length (remove_nth i l)) = List.length l.
Proof.
  revert i. induction l as [| a l IH]; intros [| i]; simpl; try discriminate; auto.
Qed.

Section Facts.

Variable cfg : Config.
Variable fetch : string -> FetchOutcome.
Variable url_href : string -> string -> option string.
Variable url_hostname : string -> option string.

Local Abbreviation step := (Crawler.step cfg fetch url_href url_hostname).
Local Abbreviation reachable := (Crawler.reachable cfg fetch url_href url_hostname).
Local Abbreviation trans := (Steps.trans cfg fetch url_href url_hostname).
Local Abbreviation start := (Crawler.start cfg).

(** *** The steps, case by case *)

Lemma then_callback_eq newUrls d s :
  then_callback newUrls d s =
  mkState (visitedUrls s) (productUrls s)
          (queue s ++ targets d (filter (fresh s) newUrls))
          (activePromises s) (pc s)
          (log s ++ map EvPush (targets d (filter (fresh s) newUrls))).
Proof.
  unfold then_callback. revert s.
  induction newUrls as [| u newUrls IH]; intros s; simpl.
  - rewrite !app_nil_r. now destruct s.
  - unfold fresh. fold (fresh s).
    destruct (negb (set_has u (visitedUrls s))) eqn:E.
    + rewrite IH. simpl. rewrite <- !app_assoc. reflexivity.
    + apply IH.
Qed.

Lemma step_trans c s s' : step c s = Some s' -> trans s s'.
Proof.
  destruct c as [| i]; simpl.
  - unfold main_step. destruct (pc s) as [| | [|] |] eqn:Hpc; try discriminate.
    + destruct (work_left s) eqn:Hw; intros H; inversion H; subst.
      * now apply t_enter.
      * now apply t_return.
    + destruct (may_start cfg s) eqn:Hm.
      * intros H; inversion H; subst; clear H.
        unfold dispatch. destruct (queue s) as [| t rest] eqn:Hq.
        { unfold may_start in Hm. rewrite Hq in Hm. discriminate. }
        unfold crawlUrl_enter, refused. simpl.
        destruct ((depth t >? maxDepth cfg)%Z || set_has (url t) (visitedUrls s)
                  || (size (visitedUrls s) >=? maxPages cfg)%Z) eqn:Hr.
        { unfold set_active; simpl. eapply t_refuse; eauto. }
        apply orb_false_elim in Hr. destruct Hr as [Hr H3].
        apply orb_false_elim in Hr. destruct Hr as [H1 H2].
        unfold set_active, record, onUpdate, set_add; simpl.
        rewrite H2. rewrite <- !app_assoc. simpl.
        eapply t_admit; eauto.
      * destruct (negb (Nat.eqb (List.length (activePromises s)) 0)) eqn:Ha;
          intros H; inversion H; subst; clear H.
        { apply t_await; auto. intros E. rewrite E in Ha. discriminate. }
        { apply t_loop; auto. destruct (activePromises s); [reflexivity | discriminate]. }
    + intros H; inversion H; subst. now apply t_wake.
  - unfold promise_step.
    destruct (pc s) as [| | b |] eqn:Hpc; try discriminate.
    destruct (nth_error (activePromises s) i) as [[u d p | newUrls d |] |] eqn:Hn;
      try discriminate.
    + unfold crawlUrl_resume.
      destruct (truthy (fetchPage fetch u)) as [html |] eqn:Hf.
      * destruct (isProductUrl u) eqn:Hp; intros H; inversion H; subst; clear H.
        { exact (@t_product cfg fetch url_href url_hostname s b i u d p html
                              Hpc Hn Hf Hp). }
        { eapply t_page; eauto. }
      * intros H; inversion H; subst. eapply t_fail; eauto.
    + intros H; inversion H; subst; clear H.
      rewrite then_callback_eq. unfold set_active; simpl.
      eapply t_then; eauto.
    + intros H; inversion H; subst; clear H.
      unfold set_active, set_pc; simpl. eapply t_finally; eauto.
Qed.

(** An invariant is a property of [start] that every step keeps. *)
Lemma invariant (P : State -> Prop) :
  P start ->
  (forall s s', reachable s -> P s -> trans s s' -> P s') ->
  forall s, reachable s -> P s.
Proof.
  intros H0 Hstep s Hs. induction Hs as [| s c s' Hs IH Hc].
  - exact H0.
  - eapply Hstep; eauto using step_trans.
Qed.

Lemma run_reachable cs s s' :
  reachable s -> run cfg fetch url_href url_hostname cs s = Some s' -> reachable s'.
Proof.
  revert s. induction cs as [| c cs IH]; intros s Hs; simpl.
  - intros H; inversion H; now subst.
  - destruct (step c s) as [s1 |] eqn:E; [| discriminate].
    apply IH. eapply reach_step; eauto.
Qed.

(** *** What the visited set holds *)

Ltac logs :=
  unfold updates, fetches, visits, shifted, pushed in *;
  repeat rewrite flat_map_app in *; simpl in *;
  repeat rewrite app_nil_r in *.

Lemma pushed_map_push ts : pushed (map EvPush ts) = ts.
Proof. induction ts; simpl; congruence. Qed.

Lemma visits_map_push ts : visits (map EvPush ts) = [].
Proof. induction ts; simpl; auto. Qed.

Lemma fetches_map_push ts : fetches (map EvPush ts) = [].
Proof. induction ts; simpl; auto. Qed.

Lemma shifted_map_push ts : shifted (map EvPush ts) = [].
Proof. induction ts; simpl; auto. Qed.

Lemma updates_map_push ts : updates (map EvPush ts) = [].
Proof. induction ts; simpl; auto. Qed.

Lemma visited_log s :
  reachable s ->
  NoDup (visitedUrls s)
  /\ map fst (visits (log s)) = visitedUrls s
  /\ fetches (log s) = visitedUrls s.
Proof.
  revert s. apply invariant.
  - simpl. repeat split; constructor.
  - intros s s' _ (Hnd & Hv & Hf) Ht.
    destruct Ht; simpl; logs;
      rewrite ?visits_map_push, ?fetches_map_push, ?app_nil_r; auto.
    rewrite map_app, Hv, Hf. simpl. repeat split; auto.
    apply NoDup_app; [assumption | repeat constructor; intros [] |].
    intros y Hy [<- | []]. apply set_has_false in H3. contradiction.
Qed.

Lemma visited_capped s :
  reachable s ->
  visitedUrls s = [] \/ (size (visitedUrls s) <= maxPages cfg)%Z.
Proof.
  revert s. apply invariant.
  - now left.
  - intros s s' _ IH Ht. destruct Ht; simpl; auto.
    right. unfold size in *. rewrite length_app. simpl. lia.
Qed.

Lemma visited_depth s :
  reachable s ->
  Forall (fun ud => (snd ud <= maxDepth cfg)%Z) (visits (log s)).
Proof.
  revert s. apply invariant.
  - simpl. constructor.
  - intros s s' _ IH Ht.
    destruct Ht; simpl; logs; rewrite ?visits_map_push, ?app_nil_r; auto.
    apply Forall_app. split; [assumption |]. repeat constructor. simpl. lia.
Qed.

(** *** Depths *)

Local Abbreviation target_ok := (Steps.target_ok cfg).
Local Abbreviation task_ok := (Steps.task_ok cfg).
Local Abbreviation ceiling := (Steps.ceiling cfg).

Lemma Forall_replace_nth {A} (P : A -> Prop) i x l :
  Forall P l -> P x -> Forall P (replace_nth i x l).
Proof.
  intros Hl Hx. apply Forall_forall. intros z Hz.
  destruct (in_replace_nth _ _ _ _ Hz) as [-> | Hin]; auto.
  rewrite Forall_forall in Hl. auto.
Qed.

Lemma Forall_remove_nth {A} (P : A -> Prop) i l :
  Forall P l -> Forall P (remove_nth i l).
Proof.
  rewrite !Forall_forall. intros Hl z Hz. eauto using in_remove_nth.
Qed.

Lemma Forall_nth_error {A} (P : A -> Prop) i x l :
  Forall P l -> nth_error l i = Some x -> P x.
Proof.
  intros Hl Hn. rewrite Forall_forall in Hl. eauto using nth_error_In.
Qed.

Lemma extractUrls_nodup html u :
  NoDup (extractUrls cfg url_href url_hostname html u).
Proof. apply dedup_nodup. Qed.

Lemma links_nodup s d html u :
  NoDup (links cfg url_href url_hostname s d html u).
Proof. apply filter_nodup, extractUrls_nodup. Qed.

Lemma depths_ok s :
  reachable s ->
  Forall target_ok (queue s)
  /\ Forall target_ok (shifted (log s))
  /\ Forall target_ok (pushed (log s))
  /\ Forall task_ok (activePromises s).
Proof.
  revert s. apply invariant.
  - simpl. repeat split; repeat constructor.
  - intros s s' _ (Hq & Hs & Hp & Ha) Ht.
    destruct Ht; simpl; logs;
      rewrite ?shifted_map_push, ?pushed_map_push, ?app_nil_r; auto.
    + (* refused *)
      rewrite H1 in Hq. inversion Hq; subst.
      repeat split; auto; apply Forall_app; split; auto;
        repeat constructor; auto.
    + (* admitted *)
      rewrite H1 in Hq. inversion Hq; subst.
      repeat split; auto; apply Forall_app; split; auto;
        repeat constructor; auto. simpl. lia.
    + (* the fetch failed *)
      repeat split; auto. apply Forall_replace_nth; auto.
      simpl. split; [constructor | now left].
    + (* a page *)
      repeat split; auto. apply Forall_replace_nth; auto.
      simpl. split; [apply links_nodup | right].
      exact (Forall_nth_error _ Ha H0).
    + (* a product page *)
      repeat split; auto. apply Forall_replace_nth; auto.
      simpl. split; [apply links_nodup | right].
      exact (Forall_nth_error _ Ha H0).
    + (* the then callback *)
      assert (Hnew : Forall target_ok (targets d (filter (fresh s) newUrls))).
      { pose proof (Forall_nth_error _ Ha H0) as [_ Hd]. simpl in Hd.
        destruct Hd as [-> | Hd]; [constructor |].
        unfold targets. apply Forall_forall. intros t Hin.
        apply in_map_iff in Hin. destruct Hin as [u [<- _]].
        right. simpl. lia. }
      repeat split; auto; try (apply Forall_app; split; auto).
      apply Forall_replace_nth; simpl; auto.
    + (* the finally callback *)
      repeat split; auto. now apply Forall_remove_nth.
Qed.

(** *** The updates the engine sends *)

Lemma updates_engine s :
  reachable s -> Forall engine_update (updates (log s)).
Proof.
  revert s. apply invariant.
  - simpl. repeat constructor; simpl; congruence.
  - intros s s' _ IH Ht.
    destruct Ht; simpl; logs; rewrite ?updates_map_push, ?app_nil_r; auto;
      apply Forall_app; split; auto;
      repeat constructor; simpl; congruence.
Qed.

(** *** A suspended [crawl] waits for something *)

Lemma race_has_promises s :
  reachable s -> pc s = AtRace false -> activePromises s <> [].
Proof.
  revert s.
  refine (@invariant (fun s => pc s = AtRace false -> activePromises s <> []) _ _).
  - simpl. discriminate.
  - intros s s' _ IH Ht.
    destruct Ht; simpl; try discriminate; auto.
    + rewrite H. discriminate.
    + rewrite H. discriminate.
    + intros Hpc. specialize (IH Hpc). intros E.
      apply (f_equal (@List.length _)) in E. rewrite length_replace_nth in E.
      destruct (activePromises s); [congruence | discriminate].
    + intros Hpc. specialize (IH Hpc). intros E.
      apply (f_equal (@List.length _)) in E. rewrite length_replace_nth in E.
      destruct (activePromises s); [congruence | discriminate].
    + intros Hpc. specialize (IH Hpc). intros E.
      apply (f_equal (@List.length _)) in E. rewrite length_replace_nth in E.
      destruct (activePromises s); [congruence | discriminate].
    + intros Hpc. specialize (IH Hpc). intros E.
      apply (f_equal (@List.length _)) in E. rewrite length_replace_nth in E.
      destruct (activePromises s); [congruence | discriminate].
Qed.

(** *** Progress *)

Lemma progress_value_spec n :
  (progress_value cfg n == spec_progress cfg n)%Q.
Proof.
  unfold progress_value, spec_progress.
  set (a := (inject_Z n / inject_Z (maxPages cfg))%Q).
  destruct (Qlt_le_dec 1 a) as [Hlt | Hle].
  - rewrite (Q.min_r a 1) by (apply Qlt_le_weak; exact Hlt).
    rewrite Q.min_r; [reflexivity |].
    setoid_replace 100%Q with (1 * 100)%Q at 1 by reflexivity.
    apply Qmult_le_compat_r; [apply Qlt_le_weak; exact Hlt | discriminate].
  - rewrite (Q.min_l a 1) by exact Hle.
    rewrite Q.min_l; [reflexivity |].
    setoid_replace 100%Q with (1 * 100)%Q at 2 by reflexivity.
    apply Qmult_le_compat_r; [exact Hle | discriminate].
Qed.

Lemma progress_value_le_100 n : (progress_value cfg n <= 100)%Q.
Proof. apply Q.le_min_r. Qed.

Lemma progress_value_mono n n' :
  (0 < maxPages cfg)%Z -> (n <= n')%Z ->
  (progress_value cfg n <= progress_value cfg n')%Q.
Proof.
  intros Hm Hn. unfold progress_value.
  apply Q.min_le_compat_r.
  apply Qmult_le_compat_r; [| discriminate].
  unfold Qdiv. apply Qmult_le_compat_r.
  - rewrite <- Zle_Qle. exact Hn.
  - apply Qinv_le_0_compat. change 0%Q with (inject_Z 0).
    rewrite <- Zle_Qle. lia.
Qed.

Lemma progress_value_nonneg n :
  (0 < maxPages cfg)%Z -> (0 <= n)%Z -> (0 <= progress_value cfg n)%Q.
Proof.
  intros Hm Hn. unfold progress_value. apply Q.min_glb; [| discriminate].
  apply Qmult_le_0_compat; [| discriminate].
  unfold Qdiv. apply Qmult_le_0_compat.
  - change 0%Q with (inject_Z 0). rewrite <- Zle_Qle. exact Hn.
  - apply Qinv_le_0_compat. change 0%Q with (inject_Z 0).
    rewrite <- Zle_Qle. lia.
Qed.

Lemma nondecreasing_snoc l x :
  nondecreasing l -> Forall (fun y => (y <= x)%Q) l -> nondecreasing (l ++ [x]).
Proof.
  intros Hl Hx l1 a l2 b l3 E.
  destruct (exists_last (l := b :: l3)) as [l3' [z Hz]]; [discriminate |].
  rewrite Hz in E.
  replace (l1 ++ a :: l2 ++ l3' ++ [z]) with ((l1 ++ a :: l2 ++ l3') ++ [z]) in E
    by (rewrite <- !app_assoc; simpl; rewrite <- !app_assoc; reflexivity).
  apply app_inj_tail in E. destruct E as [El Ex]. subst z.
  destruct l3' as [| b' l3'].
  - simpl in Hz. inversion Hz; subst.
    rewrite Forall_forall in Hx. apply Hx.
    rewrite app_nil_r. apply in_or_app. right. now left.
  - simpl in Hz. inversion Hz; subst. eapply Hl. reflexivity.
Qed.

Lemma reports_of_app l l' : reports_of (l ++ l') = reports_of l ++ reports_of l'.
Proof.
  unfold reports_of, progress_values, updates. now rewrite !flat_map_app.
Qed.

Lemma reports_of_push ts : reports_of (map EvPush ts) = [].
Proof. unfold reports_of. now rewrite updates_map_push. Qed.

Lemma ceiling_le_100 s : (ceiling s <= 100)%Q.
Proof.
  unfold ceiling.
  destruct (pc s); try apply Qle_refl;
    destruct (visitedUrls s); try discriminate; apply progress_value_le_100.
Qed.

Lemma Forall_Qle_trans l x y :
  Forall (fun z => (z <= x)%Q) l -> (x <= y)%Q -> Forall (fun z => (z <= y)%Q) l.
Proof.
  intros Hl Hxy. eapply Forall_impl; [| exact Hl].
  intros z Hz. simpl in Hz. eapply Qle_trans; eauto.
Qed.

Lemma reports_sorted s :
  reachable s ->
  nondecreasing (reports_of (log s))
  /\ Forall (fun y => (y <= ceiling s)%Q) (reports_of (log s)).
Proof.
  revert s. apply invariant.
  - split.
    + intros l1 a l2 b l3 E.
      change (log start) with [EvUpdate upd_crawling] in E.
      change (reports_of [EvUpdate upd_crawling]) with [0%Q] in E.
      destruct l1 as [| ? [| ? ?]]; try discriminate.
      destruct l2; discriminate.
    + change (log start) with [EvUpdate upd_crawling].
      change (reports_of [EvUpdate upd_crawling]) with [0%Q].
      repeat constructor. unfold ceiling. simpl. apply Qle_refl.
  - intros s s' _ [Hs Hc] Ht.
    destruct Ht; unfold ceiling in *; simpl in *;
      rewrite ?reports_of_app, ?reports_of_push;
      cbn [reports_of progress_values updates flat_map app is_discovery negb
             u_productUrls u_status u_progress
             upd_progress upd_products upd_completed];
      rewrite ?app_nil_r;
      try (rewrite H in Hc; try rewrite H; split; assumption).
    + (* crawl returns *)
      rewrite H in Hc. simpl.
      assert (Hall : Forall (fun y => (y <= 100)%Q) (reports_of (log s))).
      { eapply Forall_Qle_trans; [exact Hc |].
        destruct (visitedUrls s); try discriminate; apply progress_value_le_100. }
      split.
      * apply nondecreasing_snoc; assumption.
      * apply Forall_app. split; [assumption |].
        repeat constructor. apply Qle_refl.
    + (* an admission *)
      rewrite H in Hc |- *.
      assert (Hm : (0 < maxPages cfg)%Z).
      { rewrite Z.geb_leb in H4. apply Z.leb_gt in H4. unfold size in H4. lia. }
      assert (Hall : Forall (fun y => (y <= p)%Q) (reports_of (log s))).
      { eapply Forall_Qle_trans; [exact Hc |]. subst p.
        destruct (visitedUrls s) eqn:Ev.
        - apply progress_value_nonneg; [assumption | unfold size; lia].
        - apply progress_value_mono; [assumption |].
          unfold size. rewrite length_app. simpl. lia. }
      assert (Hnz : match visitedUrls s ++ [url t] with
                    | [] => 0%Q
                    | _ :: _ => progress_value cfg (size (visitedUrls s ++ [url t]))
                    end = p)
        by (destruct (visitedUrls s); reflexivity).
      rewrite Hnz. split.
      * apply nondecreasing_snoc; assumption.
      * apply Forall_app. split; [assumption |].
        repeat constructor. apply Qle_refl.
Qed.

(** A fetch in flight has reported its progress. *)
Lemma fetching_reported s :
  reachable s ->
  forall u d p, In (Fetching u d p) (activePromises s) ->
                In (upd_progress p) (updates (log s)).
Proof.
  revert s.
  refine (@invariant
            (fun s => forall u d p, In (Fetching u d p) (activePromises s) ->
                                    In (upd_progress p) (updates (log s))) _ _).
  - simpl. intros ? ? ? [].
  - intros s s' _ IH Ht u0 d0 p0.
    destruct Ht; simpl; logs; rewrite ?updates_map_push, ?app_nil_r; intros Hin.
    all: try (apply in_app_or in Hin; destruct Hin as [Hin | [Hin | []]]).
    all: try (apply in_replace_nth in Hin; destruct Hin as [Hin | Hin]).
    all: try apply in_remove_nth in Hin.
    all: try discriminate Hin.
    all: try (now eauto).
    all: try (apply in_or_app; left; now eauto).
    inversion Hin; subst. apply in_or_app. right. now left.
Qed.

Lemma admissions_of_app l l' :
  admissions_of (l ++ l') = admissions_of l ++ admissions_of l'.
Proof.
  unfold admissions_of, progress_values, updates. now rewrite !flat_map_app.
Qed.

Lemma admissions_of_push ts : admissions_of (map EvPush ts) = [].
Proof. unfold admissions_of. now rewrite updates_map_push. Qed.

(** The [k]-th admission reports the progress for [k] visited pages. *)
Lemma admissions_counted s :
  reachable s ->
  admissions_of (log s) =
  map (fun k => progress_value cfg (Z.of_nat k))
      (List.seq 1%nat (List.length (visitedUrls s))).
Proof.
  revert s. apply invariant.
  - reflexivity.
  - intros s s' _ IH Ht.
    destruct Ht; simpl;
      rewrite ?admissions_of_app, ?admissions_of_push;
      cbn [admissions_of progress_values updates flat_map app is_admission
             u_productUrls u_status u_progress
             upd_progress upd_products upd_completed];
      rewrite ?app_nil_r; auto.
    rewrite IH. rewrite length_app. simpl.
    rewrite Nat.add_1_r, seq_S, map_app. simpl.
    subst p. unfold size. rewrite length_app. simpl.
    rewrite Nat.add_1_r. reflexivity.
Qed.

Lemma echoes_snoc l x :
  echoes l ->
  (is_discovery x = true ->
   exists p, u_progress x = Some p /\ In (upd_progress p) l) ->
  echoes (l ++ [x]).
Proof.
  intros Hl Hx l1 upd l2 E Hd.
  destruct (exists_last (l := upd :: l2)) as [l2' [z Hz]]; [discriminate |].
  rewrite Hz in E. rewrite app_assoc in E.
  apply app_inj_tail in E. destruct E as [El Ex]. subst z.
  destruct l2' as [| y l2'].
  - simpl in Hz. inversion Hz; subst. rewrite app_nil_r in Hx. auto.
  - simpl in Hz. inversion Hz; subst. eapply Hl; eauto.
Qed.

Lemma discoveries_echo s : reachable s -> echoes (updates (log s)).
Proof.
  intros Hs. induction Hs as [| s c s' Hs IH Hc].
  - intros l1 upd l2 E Hd. change (updates (log start)) with [upd_crawling] in E.
    destruct l1 as [| ? [| ? ?]]; try discriminate.
    inversion E; subst. discriminate.
  - pose proof (fetching_reported Hs) as Hf.
    apply step_trans in Hc.
    destruct Hc; simpl; logs; rewrite ?updates_map_push, ?app_nil_r; auto.
    + apply echoes_snoc; [assumption | discriminate].
    + apply echoes_snoc; [assumption | discriminate].
    + apply echoes_snoc; [assumption |]. intros _. exists p. split; [reflexivity |].
      apply (Hf u d p). eapply nth_error_In; eauto.
Qed.

(** *** Every step but the idle turn brings the end closer *)

Local Abbreviation is_fetching :=
  (fun t : Task => match t with Fetching _ _ _ => true | _ => false end).

Lemma filter_replace_same {A} (f : A -> bool) i x y l :
  nth_error l i = Some x -> f x = f y ->
  List.length (filter f (replace_nth i y l)) = List.length (filter f l).
Proof.
  revert i. induction l as [| a l IH]; intros [| i]; simpl; try discriminate.
  - intros H E. inversion H; subst. rewrite E. destruct (f y); reflexivity.
  - intros H E. destruct (f a); simpl; auto.
Qed.

Lemma filter_replace_less {A} (f : A -> bool) i x y l :
  nth_error l i = Some x -> f x = true -> f y = false ->
  (List.length (filter f (replace_nth i y l)) < List.length (filter f l))%nat.
Proof.
  revert i. induction l as [| a l IH]; intros [| i]; simpl; try discriminate.
  - intros H Ex Ey. inversion H; subst. rewrite Ex, Ey. simpl. lia.
  - intros H Ex Ey. specialize (IH i H Ex Ey). destruct (f a); simpl; lia.
Qed.

Lemma filter_remove_same {A} (f : A -> bool) i x l :
  nth_error l i = Some x -> f x = false ->
  List.length (filter f (remove_nth i l)) = List.length (filter f l).
Proof.
  revert i. induction l as [| a l IH]; intros [| i]; simpl; try discriminate.
  - intros H E. inversion H; subst. rewrite E. reflexivity.
  - intros H E. destruct (f a); simpl; auto.
Qed.

Lemma sum_replace (w : Task -> nat) i x y l :
  nth_error l i = Some x ->
  (list_sum (map w (replace_nth i y l)) + w x = list_sum (map w l) + w y)%nat.
Proof.
  revert i. induction l as [| a l IH]; intros [| i]; simpl; try discriminate.
  - intros H. inversion H; subst. lia.
  - intros H. specialize (IH i H). lia.
Qed.

Lemma sum_remove (w : Task -> nat) i x l :
  nth_error l i = Some x ->
  (list_sum (map w (remove_nth i l)) + w x = list_sum (map w l))%nat.
Proof.
  revert i. induction l as [| a l IH]; intros [| i]; simpl; try discriminate.
  - intros H. inversion H; subst. lia.
  - intros H. specialize (IH i H). lia.
Qed.

Lemma sum_snoc (w : Task -> nat) x l :
  list_sum (map w (l ++ [x])) = (list_sum (map w l) + w x)%nat.
Proof. rewrite map_app, list_sum_app. simpl. lia. Qed.

Lemma filter_length_le {A} (f : A -> bool) l :
  (List.length (filter f l) <= List.length l)%nat.
Proof. induction l as [| a l IH]; simpl; [lia |]. destruct (f a); simpl; lia. Qed.

Local Abbreviation smaller := Steps.smaller.
Local Abbreviation measure := (Steps.measure cfg).

Lemma smaller_1 a a' b b' : (a < a')%nat -> smaller (a, b) (a', b').
Proof. intros. now apply left_slex. Qed.

Lemma smaller_2 a b b' c c' : (b < b')%nat -> smaller (a, (b, c)) (a, (b', c')).
Proof. intros. apply right_slex. now apply left_slex. Qed.

Lemma smaller_3 a b c c' d d' :
  (c < c')%nat -> smaller (a, (b, (c, d))) (a, (b, (c', d'))).
Proof. intros. do 2 apply right_slex. now apply left_slex. Qed.

Lemma smaller_4 a b c d d' :
  (d < d')%nat -> smaller (a, (b, (c, d))) (a, (b, (c, d'))).
Proof. intros. do 3 apply right_slex. assumption. Qed.

Lemma step_decreases s s' :
  trans s s' -> ~ idle cfg s -> smaller (measure s') (measure s).
Proof.
  intros Ht Hidle.
  destruct Ht; unfold Steps.measure, pages_left, in_flight, weight, rank; simpl.
  - (* into the inner loop *)
    apply smaller_4. rewrite H, H0. lia.
  - (* crawl returns *)
    apply smaller_4. rewrite H, H0. lia.
  - (* a refused target *)
    rewrite filter_app, length_app. simpl. rewrite Nat.add_0_r.
    apply smaller_3. rewrite sum_snoc, H1. simpl. lia.
  - (* an admitted target *)
    apply smaller_1. rewrite Z.geb_leb in H4. apply Z.leb_gt in H4.
    unfold size in *. rewrite length_app. simpl. lia.
  - (* crawl suspends *)
    apply smaller_4. rewrite H. lia.
  - (* back to the outer test *)
    apply smaller_4. rewrite H.
    assert (Hq : queue s = []).
    { destruct (queue s) eqn:Hq; [reflexivity |].
      exfalso. apply Hidle. unfold idle. rewrite Hq. repeat split; auto. discriminate. }
    unfold work_left, set_pc. simpl. rewrite Hq, H1. simpl. lia.
  - (* crawl resumes *)
    apply smaller_4. rewrite H.
    change (work_left (set_pc AtOuter s)) with (work_left s).
    destruct (work_left s); lia.
  - (* a failed fetch *)
    apply smaller_2. eapply filter_replace_less; eauto.
  - (* a page *)
    apply smaller_2. eapply filter_replace_less; eauto.
  - (* a product page *)
    apply smaller_2. eapply filter_replace_less; eauto.
  - (* the then callback *)
    rewrite (filter_replace_same is_fetching _ Settling _ H0) by reflexivity.
    apply smaller_3.
    pose proof (sum_replace task_weight _ Settling _ H0) as Hsum.
    simpl in Hsum. rewrite length_app. unfold targets. rewrite length_map.
    pose proof (filter_length_le (fresh s) newUrls). lia.
  - (* the finally callback *)
    rewrite (filter_remove_same is_fetching _ _ H0) by reflexivity.
    apply smaller_3.
    pose proof (sum_remove task_weight _ _ H0) as Hsum. simpl in Hsum. lia.
Qed.

Lemma smaller_wf : well_founded smaller.
Proof.
  unfold Steps.smaller.
  repeat apply wf_slexprod; apply lt_wf.
Qed.

(** A state that has not returned can step. *)
Lemma can_step s :
  reachable s -> pc s <> Returned -> exists c s', step c s = Some s'.
Proof.
  intros Hs Hpc. destruct (pc s) as [| | [|] |] eqn:E; try congruence.
  - exists Main. simpl. unfold main_step. rewrite E.
    destruct (work_left s); eauto.
  - exists Main. simpl. unfold main_step. rewrite E.
    destruct (may_start cfg s); eauto.
    destruct (negb (Nat.eqb (List.length (activePromises s)) 0)); eauto.
  - exists Main. simpl. unfold main_step. rewrite E. eauto.
  - pose proof (race_has_promises Hs E) as Ha.
    exists (Promise 0). simpl. unfold promise_step. rewrite E.
    destruct (activePromises s) as [| [u d p | l d |] rest]; [congruence | | |];
      simpl; eauto.
    destruct (crawlUrl_resume cfg fetch url_href url_hostname u d p s); eauto.
Qed.

Lemma idle_dec s : idle cfg s \/ ~ idle cfg s.
Proof.
  unfold idle.
  destruct (pc s); try (right; intros (H & _); discriminate).
  destruct (may_start cfg s); [right; intros (_ & H & _); discriminate |].
  destruct (activePromises s); [| right; intros (_ & _ & H & _); discriminate].
  destruct (queue s); [right; intros (_ & _ & _ & H); congruence |].
  left. repeat split; discriminate.
Qed.

(** On every schedule, [crawl] comes to its return or the loop turns
    idle. *)
Lemma returns_or_idles s :
  reachable s ->
  inevitably cfg fetch url_href url_hostname
             (fun s' => pc s' = Returned \/ idle cfg s') s.
Proof.
  induction s as [s IH] using (well_founded_induction
                                 (wf_inverse_image _ _ _ measure smaller_wf)).
  intros Hs.
  destruct (idle_dec s) as [Hidle | Hidle]; [apply inev_now; now right |].
  destruct (pc s) eqn:E;
    try (apply inev_later;
         [apply can_step; [assumption | congruence]
         | intros c s' Hc; apply IH;
           [apply step_decreases; [eapply step_trans; eauto | auto]
           | eapply reach_step; eauto]]).
  apply inev_now. now left.
Qed.

Lemma inevitably_weaken (P Q : State -> Prop) s :
  inevitably cfg fetch url_href url_hostname P s ->
  reachable s ->
  (forall s', reachable s' -> P s' -> Q s') ->
  inevitably cfg fetch url_href url_hostname Q s.
Proof.
  intros H. induction H as [s Hp | s Hex Hall IH]; intros Hs HPQ.
  - apply inev_now. auto.
  - apply inev_later; [assumption |].
    intros c s' Hc. apply IH with (c := c); auto.
    eapply reach_step; eauto.
Qed.

(** Where no reachable state is idle, every schedule brings [crawl] to
    its return. *)
Lemma returns_unless_idle :
  (forall s, reachable s -> ~ idle cfg s) ->
  forall s, reachable s ->
            inevitably cfg fetch url_href url_hostname
                       (fun s' => pc s' = Returned) s.
Proof.
  intros Hidle s Hs.
  eapply inevitably_weaken; [now apply returns_or_idles | assumption |].
  intros s' Hs' [H | H]; [assumption | exfalso; eapply Hidle; eauto].
Qed.

(** Once the loop turns idle it turns forever: the state only goes back
    and forth between the two tests, and [crawl] never returns. *)
Lemma idle_forever s :
  idle cfg s ->
  forall cs s',
    run cfg fetch url_href url_hostname cs s = Some s' \/
    run cfg fetch url_href url_hostname cs (set_pc AtOuter s) = Some s' ->
    (s' = s \/ s' = set_pc AtOuter s) /\ pc s' <> Returned.
Proof.
  intros (Hpc & Hstart & Ha & Hq) cs.
  assert (Hs : set_pc AtInner (set_pc AtOuter s) = s).
  { unfold set_pc. simpl. rewrite <- Hpc. now destruct s. }
  assert (Hw : work_left (set_pc AtOuter s) = true).
  { unfold work_left. simpl. destruct (queue s); [contradiction | reflexivity]. }
  induction cs as [| c cs IH]; intros s' Hrun.
  - simpl in Hrun. destruct Hrun as [H | H]; inversion H; subst.
    + split; [now left | congruence].
    + split; [now right | discriminate].
  - simpl in Hrun. destruct Hrun as [H | H].
    + destruct c as [| i]; simpl in H.
      * unfold main_step in H. rewrite Hpc, Hstart, Ha in H. simpl in H.
        apply IH. now right.
      * unfold promise_step in H. rewrite Hpc in H. discriminate.
    + destruct c as [| i]; simpl in H.
      * unfold main_step in H. simpl in H. rewrite Hw, Hs in H.
        apply IH. now left.
      * unfold promise_step in H. simpl in H. discriminate.
Qed.

(** *** The properties of a run *)


Lemma refused_iff s u d :
  refused cfg s u d = true <->
  ((d > maxDepth cfg)%Z \/ In u (visitedUrls s)
   \/ (size (visitedUrls s) >= maxPages cfg)%Z).
Proof.
  unfold refused. rewrite !orb_true_iff, set_has_true.
  rewrite Z.gtb_gt, Z.geb_ge. tauto.
Qed.

(** C8.  The admission test of [crawlUrl] and the insertion into the
    visited set are one piece of code without a suspension: a refused
    call changes nothing and fetches nothing; an admitted call inserts
    the URL and issues its fetch in the same step.  So in every run,
    whatever the queue holds and however the promises interleave, the
    fetches issued are the visited URLs, each once. *)
Theorem fetched_once s :
  reachable s ->
  NoDup (fetches (log s))
  /\ fetches (log s) = visitedUrls s
  /\ (forall u d,
        refused cfg s u d = true <->
        ((d > maxDepth cfg)%Z \/ In u (visitedUrls s)
         \/ (size (visitedUrls s) >= maxPages cfg)%Z))
  /\ (forall u d,
        refused cfg s u d = true ->
        crawlUrl_enter cfg u d s = (s, Resolved [] d))
  /\ (forall u d,
        refused cfg s u d = false ->
        exists s' p,
          crawlUrl_enter cfg u d s = (s', Fetching u d p)
          /\ visitedUrls s' = visitedUrls s ++ [u]
          /\ fetches (log s') = fetches (log s) ++ [u]).
Proof.
  intros Hs. destruct (visited_log Hs) as (Hnd & _ & Hf).
  split; [now rewrite Hf |]. split; [assumption |].
  split; [intros; apply refused_iff |]. split.
  - intros u d Hr. unfold crawlUrl_enter. now rewrite Hr.
  - intros u d Hr. unfold crawlUrl_enter. rewrite Hr.
    eexists. eexists. split; [reflexivity |].
    unfold refused in Hr. apply orb_false_elim in Hr. destruct Hr as [Hr _].
    apply orb_false_elim in Hr. destruct Hr as [_ Hr].
    simpl. unfold set_add. rewrite Hr. split; [reflexivity |].
    logs. reflexivity.
Qed.

(** C4, as the code has it.  With [maxDepth] not negative, every target
    taken from the queue, and every target put on it, has a depth of at
    most [maxDepth + 1]: the [then] callback enqueues the links of an
    admitted page without looking at their depth.  The depth test comes
    after the target is taken from the queue, in [crawlUrl], so every
    URL that enters the visited set does so at a depth of at most
    [maxDepth]. *)
Theorem popped_depth_bound s :
  (0 <= maxDepth cfg)%Z ->
  reachable s ->
  Forall (fun t => (depth t <= maxDepth cfg + 1)%Z) (shifted (log s))
  /\ Forall (fun t => (depth t <= maxDepth cfg + 1)%Z) (pushed (log s))
  /\ Forall (fun t => (depth t <= maxDepth cfg + 1)%Z) (queue s)
  /\ Forall (fun ud => (snd ud <= maxDepth cfg)%Z) (visits (log s)).
Proof.
  intros Hd Hs. destruct (depths_ok Hs) as (Hq & Hsh & Hpu & _).
  assert (Hok : forall t, target_ok t -> (depth t <= maxDepth cfg + 1)%Z).
  { intros t [H | H]; lia. }
  repeat split; try (eapply Forall_impl; [exact Hok | assumption]).
  apply (visited_depth Hs).
Qed.

Lemma map_url_targets d l : map url (targets d l) = l.
Proof. unfold targets. rewrite map_map. simpl. apply map_id. Qed.

(** C5, as the code has it.  Every step takes at most the head off the
    queue and appends the targets it pushes; the URLs pushed in one step
    are distinct and none of them is in the visited set at that
    moment.  Nothing compares a pushed URL with the queue. *)
Theorem enqueue_fresh c s s' :
  reachable s ->
  step c s = Some s' ->
  exists evs,
    log s' = log s ++ evs
    /\ queue s' = skipn (List.length (shifted evs)) (queue s) ++ pushed evs
    /\ NoDup (map url (pushed evs))
    /\ Forall (fun t => ~ In (url t) (visitedUrls s')) (pushed evs).
Proof.
  intros Hs Hc. destruct (depths_ok Hs) as (_ & _ & _ & Ha).
  apply step_trans in Hc.
  destruct Hc; simpl;
    try (exists []; rewrite !app_nil_r; simpl;
         repeat split; [constructor | constructor]);
    try (eexists; split; [reflexivity |]; simpl; rewrite ?H1; simpl;
         rewrite ?app_nil_r; repeat split; constructor).
  exists (map EvPush (targets d (filter (fresh s) newUrls))).
  rewrite pushed_map_push, shifted_map_push, map_url_targets. simpl.
  repeat split.
  - apply filter_nodup. apply (Forall_nth_error _ Ha H0).
  - apply Forall_forall. intros t Hin. unfold targets in Hin.
    apply in_map_iff in Hin. destruct Hin as [u [<- Hu]]. simpl.
    apply filter_In in Hu. destruct Hu as [_ Hu]. unfold fresh in Hu.
    apply negb_true_iff in Hu. now apply set_has_false.
Qed.

Lemma no_error_update s :
  reachable s -> Forall (fun upd => u_status upd <> Some error) (updates (log s)).
Proof.
  intros Hs. eapply Forall_impl; [| apply (updates_engine Hs)].
  intros upd H. apply H.
Qed.


(** The object that [fullUpdate] builds from an update of the engine. *)
Lemma full_update_fields s (dom : string) upd :
  reachable s ->
  In upd (updates (log s)) ->
  let line := Orchestrator.fullUpdate dom upd in
  Orchestrator.lookup "domain" line = Some (Orchestrator.JString dom)
  /\ Orchestrator.lookup "productUrls" line =
     Some (Orchestrator.JStrings
             (match u_productUrls upd with Some l => l | None => [] end))
  /\ Orchestrator.lookup "status" line =
     Some (Orchestrator.JString
             (match u_status upd with
              | Some st => Orchestrator.status_name st
              | None => "pending"
              end))
  /\ Orchestrator.lookup "progress" line =
     Some (Orchestrator.JNumber
             (match u_progress upd with Some q => q | None => 0%Q end))
  /\ (is_discovery upd = true ->
      Orchestrator.lookup "status" line = Some (Orchestrator.JString "pending")).
Proof.
  intros Hs Hin.
  pose proof (updates_engine Hs) as Hall. rewrite Forall_forall in Hall.
  destruct (Hall upd Hin) as (Hd & He & _).
  destruct upd as [ud up us ug ue]. simpl in Hd, He. subst ud ue.
  unfold is_discovery. simpl.
  destruct up as [l |]; destruct us as [st |]; destruct ug as [q |];
    repeat split; try reflexivity; try discriminate.
Qed.

(** C3, as the code has it.  The value computed at an admission is
    [min(|visited| / maxPages, 1) * 100] for the visited set just after
    the insertion, and the [k]-th admission update carries the value for
    [k] pages.  The progress values of the updates other than the
    product discoveries (the [crawling] update, the admission updates,
    the [completed] update) never decrease.  A product-discovery update
    repeats the value that the admission update of its own URL carried
    earlier. *)
Theorem progress_reports s :
  reachable s ->
  (forall n, (progress_value cfg n == spec_progress cfg n)%Q)
  /\ admissions_of (log s) =
     map (fun k => progress_value cfg (Z.of_nat k))
         (List.seq 1%nat (List.length (visitedUrls s)))
  /\ nondecreasing (reports_of (log s))
  /\ echoes (updates (log s)).
Proof.
  intros Hs. repeat split.
  - apply progress_value_spec.
  - now apply admissions_counted.
  - apply (reports_sorted Hs).
  - now apply discoveries_echo.
Qed.

(** *** The end of a run *)

Lemma returned_completed s :
  reachable s -> pc s = Returned ->
  queue s = [] /\ activePromises s = []
  /\ exists l, log s = l ++ [EvUpdate (upd_completed (productUrls s))].
Proof.
  revert s.
  refine (@invariant
            (fun s => pc s = Returned ->
                      queue s = [] /\ activePromises s = []
                      /\ exists l, log s = l ++ [EvUpdate (upd_completed (productUrls s))])
            _ _).
  - discriminate.
  - intros s s' _ IH Ht.
    destruct Ht; simpl; try discriminate; try congruence; intros _.
    unfold work_left in H0. apply orb_false_elim in H0. destruct H0 as [Hq Ha].
    repeat split.
    + destruct (queue s); [reflexivity | discriminate].
    + destruct (activePromises s); [reflexivity | discriminate].
    + eexists. reflexivity.
Qed.

Lemma terminal_status_snoc l upd st :
  u_status upd = Some st -> terminal_status (l ++ [upd]) = Some st.
Proof.
  intros H. unfold terminal_status. rewrite fold_left_app. simpl. now rewrite H.
Qed.

(** *** A seed page that cannot be had *)

Lemma nth_error_singleton {A} i (x y : A) :
  nth_error [x] i = Some y -> i = 0%nat /\ y = x.
Proof.
  destruct i as [| i]; simpl.
  - intros H. inversion H. auto.
  - destruct i; discriminate.
Qed.

Lemma failed_seed_shape :
  (1 <= concurrency cfg)%Z -> (1 <= maxPages cfg)%Z ->
  truthy (fetchPage fetch (domain cfg)) = None ->
  forall s, reachable s -> after_failed_seed cfg s.
Proof.
  intros Hc Hm Hnull. apply invariant.
  - split; [reflexivity |]. left. simpl. auto.
  - intros s s' _ (Hp & Hshape) Ht. unfold after_failed_seed.
    destruct Hshape as [(Hq & Ha & Hv & Hpc) | (Hq & Ha)].
    + (* the seed is in the queue *)
      assert (Hstart : may_start cfg s = true).
      { unfold may_start. rewrite Hq, Ha, Hv. simpl.
        apply andb_true_intro. split; apply Z.ltb_lt; unfold size; simpl; lia. }
      destruct Ht; simpl;
        try (destruct Hpc; congruence);
        rewrite ?Hq, ?Ha, ?Hv; simpl;
        try (split; [assumption |]).
      * left. auto.
      * unfold work_left in H0. rewrite Hq in H0. discriminate.
      * rewrite Hq in H1. inversion H1; subst. right. split; [reflexivity |].
        right. right. left. eexists. reflexivity.
      * rewrite Hq in H1. inversion H1; subst. right. split; [reflexivity |].
        right. left. eexists. reflexivity.
    + (* the queue is empty *)
      destruct Ht; simpl; try (split; [assumption |]);
        try (right; split; [assumption |]; assumption);
        try (rewrite Hq in H1; discriminate).
      * (* the fetch fails *)
        right. split; [assumption |].
        destruct Ha as [Ha | [[q Ha] | [[d' Ha] | Ha]]];
          rewrite Ha in H0 |- *;
          try (destruct i; discriminate);
          apply nth_error_singleton in H0; destruct H0 as [-> H0];
          try discriminate.
        simpl. right. right. left. eexists. reflexivity.
      * (* the fetch cannot succeed *)
        exfalso.
        destruct Ha as [Ha | [[q Ha] | [[d' Ha] | Ha]]];
          rewrite Ha in H0;
          try (destruct i; discriminate);
          apply nth_error_singleton in H0; destruct H0 as [-> H0];
          try discriminate.
        inversion H0; subst. congruence.
      * exfalso.
        destruct Ha as [Ha | [[q Ha] | [[d' Ha] | Ha]]];
          rewrite Ha in H0;
          try (destruct i; discriminate);
          apply nth_error_singleton in H0; destruct H0 as [-> H0];
          try discriminate.
        inversion H0; subst. congruence.
      * (* the then callback *)
        destruct Ha as [Ha | [[q Ha] | [[d' Ha] | Ha]]];
          rewrite Ha in H0 |- *;
          try (destruct i; discriminate);
          apply nth_error_singleton in H0; destruct H0 as [-> H0];
          try discriminate.
        inversion H0; subst. simpl. rewrite Hq. right. split; [reflexivity |].
        right. right. right. reflexivity.
      * (* the finally callback *)
        right. split; [assumption |].
        destruct Ha as [Ha | [[q Ha] | [[d' Ha] | Ha]]];
          rewrite Ha in H0 |- *;
          try (destruct i; discriminate);
          apply nth_error_singleton in H0; destruct H0 as [-> H0];
          try discriminate.
        simpl. left. reflexivity.
Qed.

Lemma failed_seed_never_idle :
  (1 <= concurrency cfg)%Z -> (1 <= maxPages cfg)%Z ->
  truthy (fetchPage fetch (domain cfg)) = None ->
  forall s, reachable s -> ~ idle cfg s.
Proof.
  intros Hc Hm Hnull s Hs (Hpc & Hstart & Ha & Hq).
  destruct (failed_seed_shape Hc Hm Hnull Hs) as (_ & [(Hq' & Ha' & Hv & _) | (Hq' & _)]).
  - unfold may_start in Hstart. rewrite Hq', Ha', Hv in Hstart. simpl in Hstart.
    apply andb_false_elim in Hstart.
    destruct Hstart as [H | H]; apply Z.ltb_ge in H; unfold size in H;
      simpl in H; lia.
  - contradiction.
Qed.

(** A run whose seed page cannot be had comes to its return, on every
    schedule, and its last update is [completed] with no product. *)
Lemma failed_seed_completes :
  (1 <= concurrency cfg)%Z -> (1 <= maxPages cfg)%Z ->
  truthy (fetchPage fetch (domain cfg)) = None ->
  inevitably cfg fetch url_href url_hostname
    (fun s => pc s = Returned
              /\ productUrls s = []
              /\ (exists l, updates (log s) = l ++ [upd_completed []])
              /\ terminal_status (updates (log s)) = Some completed)
    start.
Proof.
  intros Hc Hm Hnull.
  eapply inevitably_weaken.
  - apply returns_unless_idle; [| apply reach_start].
    now apply failed_seed_never_idle.
  - apply reach_start.
  - intros s Hs Hpc.
    destruct (returned_completed Hs Hpc) as (_ & _ & l & Hl).
    destruct (failed_seed_shape Hc Hm Hnull Hs) as (Hp & _).
    rewrite Hp in Hl.
    assert (Hu : updates (log s) = updates l ++ [upd_completed []]).
    { rewrite Hl. unfold updates. rewrite flat_map_app. reflexivity. }
    repeat split; auto.
    + eexists. exact Hu.
    + rewrite Hu. now apply terminal_status_snoc.
Qed.

Lemma log_grows c s s' :
  step c s = Some s' -> exists evs, log s' = log s ++ evs.
Proof.
  intros Hc. apply step_trans in Hc.
  destruct Hc; simpl; try (exists []; now rewrite app_nil_r);
    eexists; reflexivity.
Qed.

Lemma wanted_at_seed s u :
  wanted s 0 u = negb (set_has u (visitedUrls s)).
Proof.
  unfold wanted. change (0 =? 0)%Z with true.
  now rewrite !orb_true_r, andb_true_r.
Qed.

(** *** The page cap reached with targets still queued *)

Lemma seed_only_shape html :
  maxPages cfg = 1%Z -> (1 <= concurrency cfg)%Z -> (0 <= maxDepth cfg)%Z ->
  truthy (fetchPage fetch (domain cfg)) = Some html ->
  (exists u, In u (extractUrls cfg url_href url_hostname html (domain cfg))
             /\ u <> domain cfg) ->
  forall s, reachable s -> seed_only cfg s.
Proof.
  intros Hcap Hconc Hdepth Hpage (u0 & Hu0 & Hne). apply invariant.
  - split; [discriminate |]. split.
    + repeat constructor. discriminate.
    + left. simpl. auto.
  - intros s s' _ (Hpc & Hupd & Hshape) Ht. unfold seed_only.
    assert (Hkeep : forall upd, u_status upd <> Some completed ->
                                Forall (fun x => u_status x <> Some completed)
                                       (updates (log s ++ [EvUpdate upd]))).
    { intros upd H. unfold updates. rewrite flat_map_app.
      apply Forall_app. split; [exact Hupd | repeat constructor; exact H]. }
    destruct Hshape as [(Hq & Ha & Hv) | [(Hq & Hv & p0 & Ha)
                       | [(Hq & Hv & l & Ha & u & Hu & Hun) | (Hq & Hv & Ha)]]].
    + (* the seed is in the queue *)
      assert (Hstart : may_start cfg s = true).
      { unfold may_start. rewrite Hq, Ha, Hv, Hcap. simpl.
        rewrite andb_true_r. apply Z.ltb_lt. lia. }
      destruct Ht; simpl;
        try (rewrite Ha in *; destruct i; discriminate);
        try congruence.
      * split; [discriminate |]. split; [assumption |]. left. auto.
      * exfalso. unfold work_left in H0. rewrite Hq in H0. discriminate.
      * exfalso. rewrite Hq in H1. inversion H1; subst. simpl in H2.
        rewrite Hv, Hcap in H2.
        rewrite !orb_true_iff, Z.gtb_gt, Z.geb_ge in H2. unfold size in H2.
        simpl in H2. destruct H2 as [[H2 | H2] | H2]; [lia | discriminate | lia].
      * rewrite Hq in H1. inversion H1; subst. simpl.
        split; [congruence |]. split.
        { unfold updates in *. rewrite flat_map_app. simpl.
          apply Forall_app. split; [exact Hupd | repeat constructor; discriminate]. }
        right. left. rewrite Hv, Ha. simpl. repeat split. eexists. reflexivity.
      * split; [discriminate |]. split; [assumption |]. left. auto.
    + (* the seed is being fetched *)
      destruct Ht; simpl;
        try (rewrite Hq in *; discriminate);
        try (split; [discriminate |]; split; [assumption |];
             right; left; eauto; fail).
      * exfalso. unfold work_left in H0. rewrite Ha in H0.
        rewrite orb_true_r in H0. discriminate.
      * exfalso. rewrite Ha in H0. apply nth_error_singleton in H0.
        destruct H0 as [_ H0]. inversion H0; subst. congruence.
      * rewrite Ha in H0. apply nth_error_singleton in H0.
        destruct H0 as [-> H0]. inversion H0; subst.
        rewrite Hpage in H1. injection H1 as <-.
        split; [congruence |]. split; [assumption |].
        right. right. left. rewrite Ha. simpl. repeat split; auto.
        eexists. split; [reflexivity |]. exists u0. split; [| assumption].
        unfold links. apply filter_In. split; [assumption |].
        rewrite wanted_at_seed, Hv. simpl.
        destruct (String.eqb_spec u0 (domain cfg)); [contradiction | reflexivity].
      * rewrite Ha in H0. apply nth_error_singleton in H0.
        destruct H0 as [-> H0]. inversion H0; subst.
        rewrite Hpage in H1. injection H1 as <-.
        split; [congruence |]. split; [apply Hkeep; discriminate |].
        right. right. left. rewrite Ha. simpl. repeat split; auto.
        eexists. split; [reflexivity |]. exists u0. split; [| assumption].
        unfold links. apply filter_In. split; [assumption |].
        rewrite wanted_at_seed. simpl. rewrite Hv. simpl.
        destruct (String.eqb_spec u0 (domain cfg)); [contradiction | reflexivity].
      * exfalso. rewrite Ha in H0. apply nth_error_singleton in H0.
        destruct H0 as [_ H0]. discriminate.
      * exfalso. rewrite Ha in H0. apply nth_error_singleton in H0.
        destruct H0 as [_ H0]. discriminate.
    + (* the seed page has been read *)
      destruct Ht; simpl;
        try (rewrite Hq in *; discriminate);
        try (split; [discriminate |]; split; [assumption |];
             right; right; left; eauto 10; fail);
        try (exfalso; rewrite Ha in H0; apply nth_error_singleton in H0;
             destruct H0 as [_ H0]; discriminate).
      * exfalso. unfold work_left in H0. rewrite Ha in H0.
        rewrite orb_true_r in H0. discriminate.
      * rewrite Ha in H0. apply nth_error_singleton in H0.
        destruct H0 as [-> H0]. inversion H0; subst.
        split; [congruence |]. split.
        { unfold updates in *. rewrite flat_map_app.
          fold (updates (map EvPush (targets 0 (filter (fresh s) l)))).
          rewrite updates_map_push, app_nil_r. exact Hupd. }
        right. right. right. rewrite Ha, Hq. simpl. repeat split; auto.
        assert (Hin : In u (filter (fresh s) l)).
        { apply filter_In. split; [assumption |]. unfold fresh. rewrite Hv. simpl.
          destruct (String.eqb_spec u (domain cfg)); [contradiction | reflexivity]. }
        destruct (filter (fresh s) l); [destruct Hin | discriminate].
    + (* the links of the seed are in the queue *)
      assert (Hstart : may_start cfg s = false).
      { unfold may_start. rewrite Hv, Hcap. simpl. apply andb_false_r. }
      destruct Ht; simpl; try congruence;
        try (split; [discriminate |]; split; [assumption |];
             right; right; right; auto; fail);
        try (exfalso; destruct Ha as [Ha | Ha]; rewrite Ha in H0;
             [apply nth_error_singleton in H0; destruct H0 as [_ H0]; discriminate
             | destruct i; discriminate]).
      * exfalso. unfold work_left in H0.
        destruct (queue s); [congruence | discriminate].
      * split; [discriminate |]. split; [assumption |].
        right. right. right. repeat split; auto. right.
        destruct Ha as [Ha | Ha]; rewrite Ha in H0 |- *.
        { apply nth_error_singleton in H0. destruct H0 as [-> _]. reflexivity. }
        { destruct i; discriminate. }
Qed.

(** C1, on the code.  [maxPages = 1], a concurrency of at least 1, a
    seed page that is fetched with success and links to a further page of
    its host.  The seed is the only URL that is ever visited, but no state
    of any run has returned and no update carries [completed]: on every
    schedule the run comes to the idle turn of the loop, with the links of
    the seed in the queue, nothing in flight and nothing allowed to start,
    and from an idle state no sequence of steps leads to the return of
    [crawl]. *)
Theorem page_cap_never_completes html :
  maxPages cfg = 1%Z -> (1 <= concurrency cfg)%Z -> (0 <= maxDepth cfg)%Z ->
  truthy (fetchPage fetch (domain cfg)) = Some html ->
  (exists u, In u (extractUrls cfg url_href url_hostname html (domain cfg))
             /\ u <> domain cfg) ->
  (forall s,
      reachable s ->
      pc s <> Returned
      /\ (List.length (visitedUrls s) <= 1)%nat
      /\ Forall (fun upd => u_status upd <> Some completed) (updates (log s)))
  /\ inevitably cfg fetch url_href url_hostname
       (fun s => idle cfg s /\ visitedUrls s = [domain cfg]) start
  /\ (forall s,
        idle cfg s ->
        forall cs s',
          run cfg fetch url_href url_hostname cs s = Some s' -> pc s' <> Returned).
Proof.
  intros Hcap Hconc Hdepth Hpage Hlink.
  pose proof (seed_only_shape Hcap Hconc Hdepth Hpage Hlink) as Hshape.
  split; [| split].
  - intros s Hs. destruct (Hshape s Hs) as (Hpc & Hupd & Hcases).
    repeat split; try assumption.
    destruct Hcases as [(_ & _ & Hv) | [(_ & Hv & _) | [(_ & Hv & _) | (_ & Hv & _)]]];
      rewrite Hv; simpl; lia.
  - eapply inevitably_weaken; [apply returns_or_idles, reach_start | apply reach_start |].
    intros s Hs [Hret | Hidle].
    + destruct (Hshape s Hs) as (Hpc & _). contradiction.
    + split; [assumption |].
      destruct Hidle as (_ & Hstart & Ha & Hq).
      destruct (Hshape s Hs) as (_ & _ & Hcases).
      destruct Hcases as [(Hq' & Ha' & Hv) | [(_ & _ & p & Ha')
                         | [(_ & _ & l & Ha' & _) | (_ & Hv & _)]]];
        try congruence.
      exfalso. unfold may_start in Hstart. rewrite Hq', Ha', Hv, Hcap in Hstart.
      simpl in Hstart. rewrite andb_true_r in Hstart.
      apply Z.ltb_ge in Hstart. lia.
  - intros s Hidle cs s' Hrun.
    apply (idle_forever Hidle cs). now left.
Qed.

End Facts.
End Facts.

Module BatchFacts.
Import Crawler Steps Orchestrator Facts.

Lemma nth_error_replace_same {A} i (x y : A) l :
  nth_error l i = Some y -> nth_error (replace_nth i x l) i = Some x.
Proof.
  revert i. induction l as [| a l IH]; intros [| i]; simpl; try discriminate; auto.
Qed.

Lemma nth_error_replace_other {A} i j (x : A) l :
  i <> j -> nth_error (replace_nth i x l) j = nth_error l j.
Proof.
  revert i j.
  induction l as [| a l IH]; intros [| i] [| j] H; simpl; auto; congruence.
Qed.

Lemma map_fst_replace {A B} i (a : A) (b b' : B) l :
  nth_error l i = Some (a, b) ->
  map fst (replace_nth i (a, b') l) = map fst l.
Proof.
  revert i. induction l as [| x l IH]; intros [| i]; simpl; try discriminate.
  - intros H. inversion H. reflexivity.
  - intros H. f_equal. auto.
Qed.

Lemma start_lines_above (g : string -> Obj) l k j :
  (j < k)%nat ->
  flat_map (keep j)
           (map (fun id => (fst id, g (snd id)))
                (combine (seq k (List.length l)) l)) = [].
Proof.
  revert k. induction l as [| d l IH]; intros k Hj; simpl; [reflexivity |].
  unfold keep at 1. simpl.
  destruct (Nat.eqb_spec k j); [lia |]. simpl. apply IH. lia.
Qed.

Lemma start_lines_at (g : string -> Obj) l k i :
  flat_map (keep (k + i))
           (map (fun id => (fst id, g (snd id)))
                (combine (seq k (List.length l)) l))
  = match nth_error l i with Some d => [g d] | None => [] end.
Proof.
  revert k i. induction l as [| d l IH]; intros k i; simpl.
  - now destruct i.
  - unfold keep at 1. simpl. destruct i as [| i]; simpl.
    + rewrite Nat.add_0_r, Nat.eqb_refl. simpl.
      rewrite start_lines_above by lia. reflexivity.
    + destruct (Nat.eqb_spec k (k + S i)); [lia |]. simpl.
      rewrite <- Nat.add_succ_comm. apply IH.
Qed.

Lemma updates_app l l' : updates (l ++ l') = updates l ++ updates l'.
Proof. unfold updates. apply flat_map_app. Qed.

Section BatchFacts.

Variable req : CrawlRequest.
Variable fetch : string -> FetchOutcome.
Variable url_href : string -> string -> option string.
Variable url_hostname : string -> option string.

Local Abbreviation batch_reachable :=
  (Orchestrator.batch_reachable req fetch url_href url_hostname).
Local Abbreviation reachable_alone :=
  (fun d => Crawler.reachable (crawler_config req d) fetch url_href url_hostname).

Lemma relay_keep i j d s s' evs :
  log s' = log s ++ evs ->
  flat_map (keep j) (relay i d s s') =
  if Nat.eqb i j then map (fullUpdate d) (updates evs) else [].
Proof.
  intros E. unfold relay. rewrite E, skipn_app, skipn_all, Nat.sub_diag. simpl.
  induction (updates evs) as [| upd l IH]; simpl.
  - now destruct (Nat.eqb i j).
  - unfold keep at 1. simpl. destruct (Nat.eqb i j); simpl; congruence.
Qed.

(** The crawlers of a batch do not touch each other: each is in a state
    that it reaches when it runs alone, and the lines it has on the
    stream are its own updates, wrapped. *)
Lemma batch_projection b :
  batch_reachable b ->
  map fst (crawlers b) = domains req
  /\ forall i d s,
      nth_error (crawlers b) i = Some (d, s) ->
      reachable_alone d s
      /\ lines_of i b = map (fullUpdate d) (updates (log s)).
Proof.
  intros Hb. induction Hb as [| b i c b' Hb [IHd IH] Hstep].
  - split.
    + simpl. rewrite map_map. simpl. apply map_id.
    + intros i d s Hn. simpl in Hn.
      rewrite nth_error_map in Hn.
      destruct (nth_error (domains req) i) as [d0 |] eqn:Hd; [| discriminate].
      simpl in Hn. inversion Hn; subst. split; [apply reach_start |].
      unfold lines_of. simpl.
      pose proof (start_lines_at (fun d => fullUpdate d upd_crawling)
                                 (domains req) 0 i) as Hl.
      simpl in Hl. rewrite Hl, Hd. reflexivity.
  - unfold batch_step in Hstep.
    destruct (nth_error (crawlers b) i) as [[d s] |] eqn:Hi; [| discriminate].
    destruct (Crawler.step (crawler_config req d) fetch url_href url_hostname c s)
      as [s' |] eqn:Hc; [| discriminate].
    inversion Hstep; subst; clear Hstep. simpl.
    destruct (IH i d s Hi) as [Hr Hl].
    destruct (log_grows _ _ _ _ _ _ Hc) as [evs Hevs].
    split.
    + erewrite map_fst_replace; eauto.
    + intros j d' s'' Hj. unfold lines_of. simpl. rewrite flat_map_app.
      fold (lines_of j b).
      rewrite (@relay_keep i j d s s' evs Hevs).
      destruct (Nat.eqb_spec i j) as [-> | Hne].
      * rewrite (nth_error_replace_same _ _ _ Hi) in Hj.
        inversion Hj; subst. split.
        { eapply reach_step; eauto. }
        { rewrite Hl, Hevs, updates_app, map_app. reflexivity. }
      * rewrite nth_error_replace_other in Hj by assumption.
        rewrite app_nil_r. apply IH. assumption.
Qed.

Lemma timed_out_is_null d :
  fetch d = TimedOut -> truthy (fetchPage fetch d) = None.
Proof. intros H. unfold fetchPage. now rewrite H. Qed.


Lemma batch_run_reachable steps b b' :
  batch_reachable b ->
  batch_run req fetch url_href url_hostname steps b = Some b' ->
  batch_reachable b'.
Proof.
  revert b. induction steps as [| [i c] steps IH]; intros b Hb; simpl.
  - intros H. inversion H. now subst.
  - destruct (batch_step req fetch url_href url_hostname i c b) as [b1 |] eqn:E;
      [| discriminate].
    apply IH. eapply breach_step; eauto.
Qed.

(** C10.  The lines that a crawler of the batch has on the stream are its
    updates, each wrapped by the [onUpdate] closure of [POST].  The
    wrapped object has the keys [domain], [productUrls], [status] and
    [progress]: [domain] is the closure's domain, and each of the other
    three holds what the update supplies and otherwise the fixed default
    (the empty list, [pending], 0), whatever the crawler has reported
    before.  A product-discovery update supplies no status, so its line
    says [pending]. *)
Theorem relayed_line_fields b i d s :
  batch_reachable b ->
  nth_error (crawlers b) i = Some (d, s) ->
  lines_of i b = map (fullUpdate d) (updates (log s))
  /\ forall upd,
      In upd (updates (log s)) ->
      let line := fullUpdate d upd in
      lookup "domain" line = Some (JString d)
      /\ lookup "productUrls" line =
         Some (JStrings (match u_productUrls upd with Some l => l | None => [] end))
      /\ lookup "status" line =
         Some (JString (match u_status upd with
                        | Some st => status_name st
                        | None => "pending"
                        end))
      /\ lookup "progress" line =
         Some (JNumber (match u_progress upd with Some q => q | None => 0%Q end))
      /\ (is_discovery upd = true -> lookup "status" line = Some (JString "pending")).
Proof.
  intros Hb Hi. destruct (batch_projection Hb) as [_ Hproj].
  destruct (Hproj i d s Hi) as [Hr Hl]. split; [exact Hl |].
  intros upd Hin. exact (full_update_fields d upd Hr Hin).
Qed.

End BatchFacts.
End BatchFacts.

Module StorefrontFacts.
Import Patterns Crawler Steps Facts TestWeb Storefront.

Lemma seed_not_product : isProductUrl seed = false.
Proof. vm_compute. reflexivity. Qed.

Lemma product1_is_product : isProductUrl product1 = true.
Proof. vm_compute. reflexivity. Qed.

Lemma categoryA_not_product : isProductUrl categoryA = false.
Proof. vm_compute. reflexivity. Qed.

Lemma in_replace_other {A} i (x y z : A) l :
  In x l -> nth_error l i = Some z -> x <> z -> In x (replace_nth i y l).
Proof.
  revert i. induction l as [| a l IH]; intros [| i]; simpl; try tauto.
  - intros [-> | H] E Hne; [inversion E; congruence | now right].
  - intros [-> | H] E Hne; [now left | right; eauto].
Qed.

Lemma in_remove_other {A} i (x z : A) l :
  In x l -> nth_error l i = Some z -> x <> z -> In x (remove_nth i l).
Proof.
  revert i. induction l as [| a l IH]; intros [| i]; simpl; try tauto.
  - intros [-> | H] E Hne; [inversion E; congruence | assumption].
  - intros [-> | H] E Hne; [now left | right; eauto].
Qed.

Section Storefront.

Variable fetch : string -> FetchOutcome.
Variable url_href : string -> string -> option string.
Variable url_hostname : string -> option string.

(** The seed page answers with a body in which the link pattern finds
    [/product/1] and [/category/a]; the [URL] class resolves them
    against the seed to the two pages of the same host; the product
    page answers with a body that is not empty. *)
Variables body0 body1 host : string.
Hypothesis seed_page : fetchPage fetch seed = Some body0.
Hypothesis seed_links :
  Regex.captures linkRegex body0 = ["/product/1"; "/category/a"].
Hypothesis href_product : url_href "/product/1" seed = Some product1.
Hypothesis href_category : url_href "/category/a" seed = Some categoryA.
Hypothesis host_seed : url_hostname seed = Some host.
Hypothesis host_product : url_hostname product1 = Some host.
Hypothesis host_category : url_hostname categoryA = Some host.
Hypothesis product_page : fetchPage fetch product1 = Some body1.
Hypothesis product_body : body1 <> EmptyString.

Local Abbreviation step := (Crawler.step cfg fetch url_href url_hostname).
Local Abbreviation reachable := (Crawler.reachable cfg fetch url_href url_hostname).
Local Abbreviation trans := (Steps.trans cfg fetch url_href url_hostname).

Lemma seed_body : truthy (fetchPage fetch seed) = Some body0.
Proof.
  rewrite seed_page. destruct body0 eqn:E; [| reflexivity].
  vm_compute in seed_links. discriminate.
Qed.

Lemma product_truthy : truthy (fetchPage fetch product1) = Some body1.
Proof.
  rewrite product_page. destruct body1; [congruence | reflexivity].
Qed.

Lemma seed_extracted :
  extractUrls cfg url_href url_hostname body0 seed = [product1; categoryA].
Proof.
  unfold extractUrls. rewrite seed_links. simpl.
  rewrite href_product, href_category. unfold isValidUrl. simpl.
  rewrite host_seed, host_product, host_category, String.eqb_refl.
  reflexivity.
Qed.

Lemma seed_expansion s :
  visitedUrls s = [seed] ->
  links cfg url_href url_hostname s 0 body0 seed = [product1; categoryA].
Proof.
  intros Hv. unfold links. rewrite seed_extracted.
  cbn [filter]. rewrite !wanted_at_seed, Hv. reflexivity.
Qed.

Lemma seed_phase_step s s' :
  seed_phase s -> trans s s' -> shape s'.
Proof.
  intros (Hp & Hshape) Ht.
  destruct Hshape as [(Hq & Ha & Hv & Hpc) | [(Hq & Hv & p0 & Ha) | (Hq & Hv & Ha)]].
  - (* the seed is in the queue *)
    assert (Hstart : may_start cfg s = true).
    { unfold may_start. rewrite Hq, Ha, Hv. reflexivity. }
    destruct Ht; try (destruct Hpc; congruence).
    + left. split; [assumption |]. left. simpl. auto.
    + unfold work_left in H0. rewrite Hq in H0. discriminate.
    + rewrite Hq in H1. inversion H1; subst. rewrite Hv in H2.
      discriminate.
    + rewrite Hq in H1. inversion H1; subst.
      left. split; [assumption |]. right. left. simpl.
      rewrite Hv, Ha. repeat split. eexists. reflexivity.
  - (* the seed is being fetched *)
    destruct Ht;
      try (left; split; [assumption |]; right; left; simpl; eauto; fail);
      try (rewrite Hq in H1; discriminate);
      rewrite Ha in H0; apply nth_error_singleton in H0;
      destruct H0 as [-> H0]; inversion H0; subst.
    + rewrite seed_body in H1. discriminate.
    + rewrite seed_body in H1. injection H1 as <-.
      left. split; [assumption |]. right. right. simpl.
      rewrite Ha, (seed_expansion _ Hv). auto.
    + rewrite seed_not_product in H2. discriminate.
  - (* the seed page has been read *)
    destruct Ht;
      try (left; split; [assumption |]; right; right; simpl; eauto; fail);
      try (rewrite Hq in H1; discriminate);
      rewrite Ha in H0; apply nth_error_singleton in H0;
      destruct H0 as [-> H0]; inversion H0; subst.
    right. unfold crawl_phase, product_pending, fresh; simpl.
    rewrite Hv, Hq, Ha, Hp. simpl.
    repeat split.
    + intros u [<- | []]. now left.
    + now left.
    + repeat constructor; right; simpl; unfold child; auto.
    + repeat constructor.
    + left. split; [now left |]. intros [Hx | []]. discriminate.
Qed.

Lemma crawl_phase_size s :
  reachable s -> crawl_phase s -> (size (visitedUrls s) <= 3)%Z.
Proof.
  intros Hs (Hv & _). destruct (visited_log Hs) as (Hnd & _).
  pose proof (NoDup_incl_length Hnd Hv) as Hlen. simpl in Hlen.
  unfold size. lia.
Qed.

Lemma child_product u : child u -> isProductUrl u = true -> u = product1.
Proof.
  intros [-> | ->] H; [reflexivity |].
  rewrite categoryA_not_product in H. discriminate.
Qed.

Lemma child_page u : child u -> isProductUrl u = false -> u = categoryA.
Proof.
  intros [-> | ->] H; [| reflexivity].
  rewrite product1_is_product in H. discriminate.
Qed.

Lemma crawl_phase_step s s' :
  reachable s -> crawl_phase s -> trans s s' -> crawl_phase s'.
Proof.
  intros Hs Hphase Ht.
  pose proof (crawl_phase_size Hs Hphase) as Hsize.
  destruct Hphase as (Hv & Hpr & Hq & Ha & Hpp).
  unfold crawl_phase, product_pending in *.
  destruct Ht; simpl; try (repeat split; assumption).
  - (* a refused target *)
    rewrite H1 in Hq, Hpp. inversion Hq as [| ? ? Ht Hrest]; subst.
    repeat split; auto.
    + apply Forall_app. split; [assumption |].
      constructor; [right; reflexivity | constructor].
    + destruct Hpp as [[[Hhead | Hin] Hnv] | [[q Hf] | Hp]].
      * exfalso. subst t. simpl in H2.
        apply set_has_false in Hnv. rewrite Hnv in H2. simpl in H2.
        rewrite Z.geb_leb in H2. apply Z.leb_le in H2. lia.
      * left. auto.
      * right. left. exists q. apply in_or_app. now left.
      * right. right. assumption.
  - (* an admitted target *)
    rewrite H1 in Hq, Hpp. inversion Hq as [| ? ? Ht Hrest]; subst.
    destruct Ht as [Ht | [Hd Hc]].
    { rewrite Ht in H2. discriminate. }
    repeat split; auto.
    + apply incl_app; [assumption |].
      intros u [<- | []]. destruct Hc as [-> | ->]; simpl; auto.
    + apply Forall_app. split; [assumption |].
      constructor; [simpl; auto | constructor].
    + destruct Hpp as [[[Hhead | Hin] Hnv] | [[q Hf] | Hp]].
      * right. left. subst t. simpl. eexists. apply in_or_app. right. now left.
      * destruct Hc as [Hc | Hc].
        { right. left. rewrite Hc, Hd. eexists. apply in_or_app. right. now left. }
        { left. split; [assumption |]. intros Hx. apply in_app_or in Hx.
          destruct Hx as [Hx | [Hx | []]]; [contradiction |].
          rewrite Hc in Hx. discriminate. }
      * right. left. exists q. apply in_or_app. now left.
      * right. right. assumption.
  - (* a failed fetch *)
    pose proof (Forall_nth_error _ Ha H0) as [Hd Hc]. simpl in Hd.
    repeat split; auto.
    + apply Forall_replace_nth; simpl; auto.
    + destruct Hpp as [Hpp | [[q Hf] | Hp]]; auto.
      right. left. exists q. eapply in_replace_other; eauto.
      intros Heq. inversion Heq; subst.
      rewrite product_truthy in H1. discriminate.
  - (* a page *)
    pose proof (Forall_nth_error _ Ha H0) as [Hd Hc]. simpl in Hd.
    repeat split; auto.
    + apply Forall_replace_nth; simpl; auto.
    + destruct Hpp as [Hpp | [[q Hf] | Hp]]; auto.
      right. left. exists q. eapply in_replace_other; eauto.
      intros Heq. inversion Heq; subst.
      rewrite product1_is_product in H2. discriminate.
  - (* a product page *)
    pose proof (Forall_nth_error _ Ha H0) as [Hd Hc]. simpl in Hd.
    pose proof (child_product Hc H2) as ->.
    assert (Hadd : set_add product1 (productUrls s) = [product1]).
    { destruct Hpr as [-> | ->]; reflexivity. }
    rewrite Hadd.
    repeat split; auto.
    apply Forall_replace_nth; simpl; auto.
  - (* the then callback *)
    pose proof (Forall_nth_error _ Ha H0) as Hd. simpl in Hd.
    repeat split; auto.
    + apply Forall_app. split; [assumption |].
      destruct Hd as [-> | ->]; [| constructor].
      apply Forall_forall. intros t Hin. unfold targets in Hin.
      apply in_map_iff in Hin. destruct Hin as [u [<- _]]. left. reflexivity.
    + apply Forall_replace_nth; simpl; auto.
    + destruct Hpp as [[Hin Hnv] | [[q Hf] | Hp]]; auto.
      * left. split; [apply in_or_app; now left | assumption].
      * right. left. exists q. eapply in_replace_other; eauto. discriminate.
  - (* the finally callback *)
    repeat split; auto.
    + now apply Forall_remove_nth.
    + destruct Hpp as [Hpp | [[q Hf] | Hp]]; auto.
      right. left. exists q. eapply in_remove_other; eauto. discriminate.
Qed.

Lemma storefront_shape s : reachable s -> shape s.
Proof.
  revert s. apply invariant.
  - left. split; [reflexivity |]. left. simpl. auto.
  - intros s s' Hs [Hseed | Hcrawl] Ht.
    + eapply seed_phase_step; eauto.
    + right. eapply crawl_phase_step; eauto.
Qed.

Lemma storefront_never_idle s : reachable s -> ~ idle cfg s.
Proof.
  intros Hs (Hpc & Hstart & Ha & Hq).
  destruct (storefront_shape Hs) as [(_ & Hseed) | Hcrawl].
  - destruct Hseed as [(Hq' & Ha' & Hv & _) | [(Hq' & _) | (Hq' & _)]];
      try contradiction.
    unfold may_start in Hstart. rewrite Hq', Ha', Hv in Hstart. discriminate.
  - pose proof (crawl_phase_size Hs Hcrawl) as Hsize.
    unfold may_start in Hstart. rewrite Ha in Hstart.
    destruct (queue s); [contradiction |]. simpl in Hstart.
    apply Z.ltb_ge in Hstart. lia.
Qed.

(** C9.  Seed [https://x.test/], [maxDepth = 1], [maxPages = 10],
    [concurrency = 2]; the body of the seed page holds the links
    [/product/1] and [/category/a], which resolve to pages of the seed's
    host, and the seed page and the product page are fetched with
    success (the category page may answer anything).  Then on every
    schedule [crawl] comes to its return, the product list is
    [https://x.test/product/1] alone, and the last update is the
    [completed] update carrying that list. *)
Theorem storefront_run :
  inevitably cfg fetch url_href url_hostname
    (fun s => pc s = Returned
              /\ productUrls s = [product1]
              /\ (exists l, updates (log s) = l ++ [upd_completed [product1]])
              /\ terminal_status (updates (log s)) = Some completed)
    (Crawler.start cfg).
Proof.
  eapply inevitably_weaken.
  - apply returns_unless_idle; [| apply reach_start].
    intros s Hs. now apply storefront_never_idle.
  - apply reach_start.
  - intros s Hs Hpc.
    destruct (returned_completed Hs Hpc) as (Hq & Ha & l & Hl).
    assert (Hp : productUrls s = [product1]).
    { destruct (storefront_shape Hs) as [(_ & Hseed) | (_ & _ & _ & _ & Hpp)].
      - destruct Hseed as [(Hq' & _) | [(_ & _ & p & Ha') | (_ & _ & Ha')]];
          congruence.
      - destruct Hpp as [[Hin _] | [[q Hf] | Hp]]; [| | assumption].
        + rewrite Hq in Hin. destruct Hin.
        + rewrite Ha in Hf. destruct Hf. }
    rewrite Hp in Hl.
    assert (Hu : updates (log s) = updates l ++ [upd_completed [product1]]).
    { rewrite Hl. unfold updates. rewrite flat_map_app. reflexivity. }
    repeat split; auto.
    + eexists. exact Hu.
    + rewrite Hu. now apply terminal_status_snoc.
Qed.

End Storefront.
End StorefrontFacts.

(* ================================================================== *)
(** ** Runs on the small web *)

Module RunFacts.
Import Patterns Crawler Steps Facts TestWeb Runs.

Lemma state_after_reachable cfg site cs :
  reachable_on cfg site (state_after cfg site cs).
Proof.
  unfold state_after, run_on, reachable_on.
  destruct (run cfg (fetch_of site) url_href url_hostname cs (Crawler.start cfg))
    as [s |] eqn:E.
  - eapply run_reachable; [apply reach_start | exact E].
  - apply reach_start.
Qed.

(** C3, a run that contradicts it.  With two fetches in flight, the
    product page is admitted at 20, the category page at 30, and the
    discovery of the product then reports 20 again: the progress values of
    the updates are 0, 10, 20, 30, 20. *)
Lemma discovery_reports_stale_progress :
  exists s,
    reachable_on Storefront.cfg shop s
    /\ ~ nondecreasing (progress_values (fun _ => true) (updates (log s))).
Proof.
  exists (state_after Storefront.cfg shop first_of_two).
  split; [apply state_after_reachable |].
  intros H.
  set (l := progress_values (fun _ => true)
              (updates (log (state_after Storefront.cfg shop first_of_two)))) in H.
  specialize (H (firstn 3 l) (nth 3 l 0%Q) [] (nth 4 l 0%Q) []).
  assert (E : l = firstn 3 l ++ nth 3 l 0%Q :: [] ++ nth 4 l 0%Q :: [])
    by (vm_compute; reflexivity).
  specialize (H E). vm_compute in H. apply H. reflexivity.
Qed.

(** C4, a run that contradicts it.  With [maxDepth = 0] the links of the
    seed page are pushed with depth 1 and the first of them is taken from
    the queue. *)
Lemma target_past_maxDepth_is_queued :
  exists s t,
    reachable_on shallow shop s
    /\ In (EvPush t) (log s)
    /\ In (EvShift t) (log s)
    /\ (depth t > maxDepth shallow)%Z.
Proof.
  exists (state_after shallow shop first_link), (mkTarget product1 1).
  split; [apply state_after_reachable |].
  vm_compute. repeat split; auto 20.
Qed.

(** C5, a run that contradicts it.  The product page and the category
    page both link to [/category/b]; each pushes it, and the queue holds
    it twice while it is not visited. *)
Lemma queue_holds_unvisited_url_twice :
  exists s u,
    reachable_on one_at_a_time shop s
    /\ ~ In u (visitedUrls s)
    /\ (count_occ string_dec (map url (queue s)) u >= 2)%nat.
Proof.
  exists (state_after one_at_a_time shop page_by_page), categoryB.
  split; [apply state_after_reachable |].
  split.
  - vm_compute. intros [H | [H | [H | []]]]; discriminate.
  - vm_compute. lia.
Qed.


(** With [maxPages = 1] and five links on the seed page: after the promise
    of the seed has settled, the five targets are queued, nothing is in
    flight, no promise can take a step, and two steps of [crawl] lead back
    to the same state. *)
Lemma five_links_spin :
  let s := state_after one_page five_links (seed_done ++ [Main; Main]) in
  visitedUrls s = [seed]
  /\ List.length (queue s) = 5%nat
  /\ activePromises s = []
  /\ pc s = AtInner
  /\ (forall i, Crawler.step one_page (fetch_of five_links) url_href url_hostname
                             (Promise i) s = None)
  /\ Crawler.run one_page (fetch_of five_links) url_href url_hostname
                 [Main; Main] s = Some s.
Proof.
  repeat split; vm_compute; reflexivity.
Qed.

End RunFacts.

(* ================================================================== *)
(** ** The properties at work on the small web *)

Module Witnesses.
Import Patterns Crawler Steps Facts TestWeb Runs RunFacts.


Lemma fetched_once_witness :
  reachable_on Storefront.cfg shop midrun
  /\ NoDup (fetches (log midrun))
  /\ fetches (log midrun) = visitedUrls midrun.
Proof.
  split; [apply state_after_reachable |].
  destruct (@fetched_once Storefront.cfg (fetch_of shop) url_href url_hostname
                          midrun (state_after_reachable _ _ _))
    as (H1 & H2 & _).
  split; assumption.
Defined.

Lemma popped_depth_bound_witness :
  (0 <= maxDepth shallow)%Z
  /\ reachable_on shallow shop (state_after shallow shop first_link)
  /\ Forall (fun t => (depth t <= maxDepth shallow + 1)%Z)
            (shifted (log (state_after shallow shop first_link))).
Proof.
  split; [simpl; lia |]. split; [apply state_after_reachable |].
  apply (@popped_depth_bound shallow (fetch_of shop) url_href url_hostname
                             (state_after shallow shop first_link)).
  - simpl. lia.
  - apply state_after_reachable.
Defined.

Lemma enqueue_fresh_witness :
  reachable_on one_at_a_time shop before_push
  /\ Crawler.step one_at_a_time (fetch_of shop) url_href url_hostname
                  (Promise 0) before_push = Some after_push
  /\ exists evs,
      log after_push = log before_push ++ evs
      /\ queue after_push =
         skipn (List.length (shifted evs)) (queue before_push) ++ pushed evs
      /\ NoDup (map url (pushed evs))
      /\ Forall (fun t => ~ In (url t) (visitedUrls after_push)) (pushed evs).
Proof.
  split; [apply state_after_reachable |].
  split; [vm_compute; reflexivity |].
  apply (@enqueue_fresh one_at_a_time (fetch_of shop) url_href url_hostname
                        (Promise 0) before_push after_push).
  - apply state_after_reachable.
  - vm_compute. reflexivity.
Defined.


Lemma batch_after_reachable steps :
  Orchestrator.batch_reachable request (fetch_of two_domains) url_href url_hostname
                               (batch_after steps).
Proof.
  unfold batch_after.
  destruct (Orchestrator.batch_run request (fetch_of two_domains) url_href
              url_hostname steps (Orchestrator.batch_start request))
    as [b1 |] eqn:E; [| apply Orchestrator.breach_start].
  eapply BatchFacts.batch_run_reachable; [apply Orchestrator.breach_start | exact E].
Qed.

Lemma relayed_line_fields_witness :
  Orchestrator.batch_reachable request (fetch_of two_domains) url_href url_hostname
                               batch_found
  /\ nth_error (Orchestrator.crawlers batch_found) 1 = Some (other_seed, second_found)
  /\ Orchestrator.lines_of 1 batch_found
     = map (Orchestrator.fullUpdate other_seed) (updates (log second_found))
  /\ Orchestrator.lookup "status" (last (Orchestrator.lines_of 1 batch_found) [])
     = Some (Orchestrator.JString "pending").
Proof.
  assert (Hb : Orchestrator.batch_reachable request (fetch_of two_domains)
                                            url_href url_hostname batch_found)
    by apply batch_after_reachable.
  assert (Hi : nth_error (Orchestrator.crawlers batch_found) 1
               = Some (other_seed, second_found))
    by (vm_compute; reflexivity).
  split; [exact Hb |]. split; [exact Hi |].
  split.
  - exact (proj1 (@BatchFacts.relayed_line_fields
                    request (fetch_of two_domains) url_href url_hostname
                    batch_found 1%nat other_seed second_found Hb Hi)).
  - vm_compute. reflexivity.
Defined.

Lemma progress_reports_witness :
  reachable_on Storefront.cfg shop midrun
  /\ nondecreasing (reports_of (log midrun))
  /\ echoes (updates (log midrun)).
Proof.
  split; [apply state_after_reachable |].
  destruct (@progress_reports Storefront.cfg (fetch_of shop) url_href
                              url_hostname midrun (state_after_reachable _ _ _))
    as (_ & _ & H3 & H4).
  split; assumption.
Defined.


Lemma storefront_run_witness :
  fetchPage (fetch_of shop) seed = Some seed_html
  /\ Regex.captures linkRegex seed_html = ["/product/1"; "/category/a"]
  /\ url_href "/product/1" seed = Some product1
  /\ url_href "/category/a" seed = Some categoryA
  /\ url_hostname seed = Some "x.test"
  /\ url_hostname product1 = Some "x.test"
  /\ url_hostname categoryA = Some "x.test"
  /\ fetchPage (fetch_of shop) product1 = Some product1_html
  /\ product1_html <> EmptyString
  /\ inevitably Storefront.cfg (fetch_of shop) url_href url_hostname
       (fun s => pc s = Returned
                 /\ productUrls s = [product1]
                 /\ (exists l, updates (log s) = l ++ [upd_completed [product1]])
                 /\ terminal_status (updates (log s)) = Some completed)
       (Crawler.start Storefront.cfg).
Proof.
  assert (H1 : fetchPage (fetch_of shop) seed = Some seed_html) by reflexivity.
  assert (H2 : Regex.captures linkRegex seed_html = ["/product/1"; "/category/a"])
    by (vm_compute; reflexivity).
  assert (H3 : url_href "/product/1" seed = Some product1) by reflexivity.
  assert (H4 : url_href "/category/a" seed = Some categoryA) by reflexivity.
  assert (H5 : url_hostname seed = Some "x.test") by reflexivity.
  assert (H6 : url_hostname product1 = Some "x.test") by reflexivity.
  assert (H7 : url_hostname categoryA = Some "x.test") by reflexivity.
  assert (H8 : fetchPage (fetch_of shop) product1 = Some product1_html)
    by reflexivity.
  assert (H9 : product1_html <> EmptyString) by discriminate.
  repeat (split; [assumption |]).
  exact (@StorefrontFacts.storefront_run
           (fetch_of shop) url_href url_hostname seed_html product1_html "x.test"
           H1 H2 H3 H4 H5 H6 H7 H8 H9).
Defined.

Lemma page_cap_never_completes_witness :
  maxPages one_page = 1%Z
  /\ (1 <= concurrency one_page)%Z
  /\ (0 <= maxDepth one_page)%Z
  /\ truthy (fetchPage (fetch_of five_links) (domain one_page)) = Some five_html
  /\ (exists u, In u (extractUrls one_page url_href url_hostname five_html
                                  (domain one_page))
                /\ u <> domain one_page)
  /\ (forall s,
         reachable_on one_page five_links s ->
         pc s <> Returned
         /\ (List.length (visitedUrls s) <= 1)%nat
         /\ Forall (fun upd => u_status upd <> Some completed) (updates (log s)))
  /\ inevitably one_page (fetch_of five_links) url_href url_hostname
        (fun s => idle one_page s /\ visitedUrls s = [domain one_page])
        (Crawler.start one_page).
Proof.
  assert (H1 : maxPages one_page = 1%Z) by reflexivity.
  assert (H2 : (1 <= concurrency one_page)%Z) by (simpl; lia).
  assert (H3 : (0 <= maxDepth one_page)%Z) by (simpl; lia).
  assert (H4 : truthy (fetchPage (fetch_of five_links) (domain one_page))
               = Some five_html) by reflexivity.
  assert (H5 : exists u, In u (extractUrls one_page url_href url_hostname five_html
                                           (domain one_page))
                         /\ u <> domain one_page).
  { exists "https://x.test/a". split; [vm_compute; auto | discriminate]. }
  repeat (split; [assumption |]).
  destruct (@page_cap_never_completes one_page (fetch_of five_links) url_href
                                      url_hostname five_html H1 H2 H3 H4 H5)
    as (Hall & Hidle & _).
  split; assumption.
Defined.

End Witnesses.

(* ================================================================== *)
(** ** More about a run *)

Module EngineFacts.
Import Patterns Crawler Steps Facts Holdings.

Lemma in_set_add x y l : In x (set_add y l) <-> x = y \/ In x l.
Proof.
  unfold set_add. destruct (set_has y l) eqn:E.
  - apply set_has_true in E. split; [auto | intros [-> | H]; auto].
  - rewrite in_app_iff. simpl. split; [intros [H | [H | []]]; auto | intros [H | H]; auto].
Qed.

Lemma in_dedup_from x urls acc :
  In x (fold_left (fun a u => set_add u a) urls acc) <-> In x acc \/ In x urls.
Proof.
  revert acc. induction urls as [| u urls IH]; intros acc; simpl.
  - tauto.
  - rewrite IH, in_set_add. split; [intros [[-> | H] | H] | intros [H | [-> | H]]]; auto.
Qed.

Lemma in_dedup x urls : In x (dedup urls) <-> In x urls.
Proof. unfold dedup. rewrite in_dedup_from. simpl. tauto. Qed.

Section EngineFacts.

Variable cfg : Config.
Variable fetch : string -> FetchOutcome.
Variable url_href : string -> string -> option string.
Variable url_hostname : string -> option string.

Local Abbreviation step := (Crawler.step cfg fetch url_href url_hostname).
Local Abbreviation reachable := (Crawler.reachable cfg fetch url_href url_hostname).
Local Abbreviation trans := (Steps.trans cfg fetch url_href url_hostname).
Local Abbreviation start := (Crawler.start cfg).
Local Abbreviation invariant := (@Facts.invariant cfg fetch url_href url_hostname).

(** *** The product set *)

Lemma truthy_fetched u html :
  truthy (fetchPage fetch u) = Some html -> fetched_ok fetch u.
Proof.
  unfold fetchPage, fetched_ok. intros H.
  destruct (fetch u) as [status text | |]; try discriminate.
  destruct (response_ok status) eqn:E; [| discriminate].
  destruct text as [body |]; [| discriminate].
  exists status, body. repeat split; auto.
  intros ->. discriminate.
Qed.

Lemma fetching_visited s :
  reachable s ->
  forall u d p, In (Fetching u d p) (activePromises s) -> In u (visitedUrls s).
Proof.
  revert s.
  refine (invariant
            (fun s => forall u d p, In (Fetching u d p) (activePromises s) ->
                                    In u (visitedUrls s)) _ _).
  - simpl. intros ? ? ? [].
  - intros s s' _ IH Ht u0 d0 p0.
    destruct Ht; simpl; intros Hin.
    all: try (apply in_app_or in Hin; destruct Hin as [Hin | [Hin | []]]).
    all: try (apply in_replace_nth in Hin; destruct Hin as [Hin | Hin]).
    all: try apply in_remove_nth in Hin.
    all: try discriminate Hin.
    all: try (now eauto).
    + apply in_or_app. left. eauto.
    + inversion Hin; subst. apply in_or_app. right. now left.
Qed.

Lemma product_set s :
  reachable s ->
  NoDup (productUrls s)
  /\ incl (productUrls s) (visitedUrls s)
  /\ Forall (fun u => isProductUrl u = true) (productUrls s)
  /\ Forall (fetched_ok fetch) (productUrls s).
Proof.
  intros Hs. induction Hs as [| s c s' Hs IH Hc].
  - simpl. repeat split; try constructor. intros u [].
  - pose proof (fetching_visited Hs) as Hf.
    destruct IH as (Hnd & Hin & Hp & Hok).
    apply step_trans in Hc.
    destruct Hc; simpl; try (repeat split; assumption).
    + repeat split; auto. apply incl_appl. assumption.
    + assert (Hu : In u (visitedUrls s)) by (eapply Hf, nth_error_In; eauto).
      repeat split.
      * now apply set_add_nodup.
      * intros x Hx. apply in_set_add in Hx. destruct Hx as [-> | Hx]; auto.
      * apply Forall_forall. intros x Hx. apply in_set_add in Hx.
        rewrite Forall_forall in Hp. destruct Hx as [-> | Hx]; auto.
      * apply Forall_forall. intros x Hx. apply in_set_add in Hx.
        rewrite Forall_forall in Hok. destruct Hx as [-> | Hx]; auto.
        eapply truthy_fetched; eauto.
Qed.

(** X1.  The product set has no duplicates and is part of the visited set;
    each of its URLs matches a product pattern and was fetched with a
    success status and a body that is not empty. *)
Theorem products_visited_and_fetched s :
  reachable s ->
  NoDup (productUrls s)
  /\ incl (productUrls s) (visitedUrls s)
  /\ Forall (fun u => isProductUrl u = true) (productUrls s)
  /\ Forall (fetched_ok fetch) (productUrls s).
Proof. apply product_set. Qed.

(** *** What [extractUrls] returns *)

Lemma extracted_iff html base u :
  In u (extractUrls cfg url_href url_hostname html base) <->
  exists href,
    In href (Regex.captures linkRegex html)
    /\ url_href href base = Some u
    /\ isValidUrl cfg url_hostname u = true.
Proof.
  unfold extractUrls. rewrite in_dedup, in_flat_map. split.
  - intros (href & Hin & Hu). exists href.
    destruct (url_href href base) as [v |]; [| destruct Hu].
    destruct (isValidUrl cfg url_hostname v) eqn:E; [| destruct Hu].
    destruct Hu as [<- | []]. auto.
  - intros (href & Hin & Hr & Hv). exists href. split; [assumption |].
    rewrite Hr, Hv. now left.
Qed.

(** X2.  [extractUrls] returns, without duplicates, exactly the URLs that
    some [href] found by the link pattern resolves to against the base and
    that [isValidUrl] accepts; a reference that the [URL] constructor
    rejects, or that leads to another host, is left out. *)
Theorem extractUrls_spec html base :
  NoDup (extractUrls cfg url_href url_hostname html base)
  /\ forall u,
      In u (extractUrls cfg url_href url_hostname html base) <->
      exists href,
        In href (Regex.captures linkRegex html)
        /\ url_href href base = Some u
        /\ isValidUrl cfg url_hostname u = true.
Proof.
  split; [apply extractUrls_nodup | apply extracted_iff].
Qed.

(** *** Hosts *)

Lemma links_valid s d html u x :
  In x (links cfg url_href url_hostname s d html u) ->
  isValidUrl cfg url_hostname x = true.
Proof.
  unfold links. intros H. apply filter_In in H. destruct H as [H _].
  apply extracted_iff in H. destruct H as (_ & _ & _ & H). exact H.
Qed.

Lemma hosts_kept s :
  reachable s ->
  Forall (same_host cfg url_hostname) (visitedUrls s)
  /\ Forall (fun t => same_host cfg url_hostname (url t)) (queue s)
  /\ Forall (fun t => Forall (same_host cfg url_hostname) (task_urls t))
            (activePromises s).
Proof.
  revert s. apply invariant.
  - simpl. repeat split; repeat constructor.
  - intros s s' _ (Hv & Hq & Ha) Ht.
    destruct Ht; simpl; try (repeat split; assumption).
    + (* refused *)
      rewrite H1 in Hq. inversion Hq; subst.
      repeat split; auto. apply Forall_app. split; auto.
    + (* admitted *)
      rewrite H1 in Hq. inversion Hq; subst.
      repeat split; auto; apply Forall_app; split; auto.
      constructor; [simpl; constructor; [assumption | constructor] | constructor].
    + repeat split; auto. apply Forall_replace_nth; auto.
    + repeat split; auto. apply Forall_replace_nth; auto. simpl.
      apply Forall_forall. intros x Hx. right. eapply links_valid; eauto.
    + repeat split; auto. apply Forall_replace_nth; auto. simpl.
      apply Forall_forall. intros x Hx. right. eapply links_valid; eauto.
    + (* the then callback *)
      pose proof (Forall_nth_error _ Ha H0) as Hl. simpl in Hl.
      repeat split; auto.
      * apply Forall_app. split; [assumption |].
        apply Forall_forall. intros t Hin. unfold targets in Hin.
        apply in_map_iff in Hin. destruct Hin as [x [<- Hx]]. simpl.
        apply filter_In in Hx. destruct Hx as [Hx _].
        rewrite Forall_forall in Hl. auto.
      * apply Forall_replace_nth; auto.
    + repeat split; auto. now apply Forall_remove_nth.
Qed.

(** X3.  Every URL in the visited set, in the queue and in the product set
    is the seed itself or a URL of the seed's host: its hostname and the
    seed's both parse and are the same string. *)
Theorem hosts_are_the_seeds s :
  reachable s ->
  forall u,
    In u (visitedUrls s) \/ In u (map url (queue s)) \/ In u (productUrls s) ->
    u = domain cfg
    \/ exists h, url_hostname u = Some h /\ url_hostname (domain cfg) = Some h.
Proof.
  intros Hs u Hu.
  destruct (hosts_kept Hs) as (Hv & Hq & _).
  destruct (product_set Hs) as (_ & Hincl & _).
  assert (Hsame : same_host cfg url_hostname u).
  { rewrite Forall_forall in Hv, Hq.
    destruct Hu as [Hu | [Hu | Hu]]; auto.
    apply in_map_iff in Hu. destruct Hu as [t [<- Ht]]. auto. }
  destruct Hsame as [-> | Hvalid]; [now left | right].
  unfold isValidUrl in Hvalid.
  destruct (url_hostname u) as [h |]; [| discriminate].
  destruct (url_hostname (domain cfg)) as [h0 |]; [| discriminate].
  apply String.eqb_eq in Hvalid. subst. eauto.
Qed.

End EngineFacts.
End EngineFacts.

(* ================================================================== *)
(** ** The shape of a run *)

Module RunShape.
Import Patterns Crawler Steps Facts Holdings.

Ltac logs :=
  unfold updates, fetches, visits, shifted, pushed in *;
  repeat rewrite flat_map_app in *; simpl in *;
  repeat rewrite app_nil_r in *.

Section RunShape.

Variable cfg : Config.
Variable fetch : string -> FetchOutcome.
Variable url_href : string -> string -> option string.
Variable url_hostname : string -> option string.

Local Abbreviation step := (Crawler.step cfg fetch url_href url_hostname).
Local Abbreviation reachable := (Crawler.reachable cfg fetch url_href url_hostname).
Local Abbreviation trans := (Steps.trans cfg fetch url_href url_hostname).
Local Abbreviation start := (Crawler.start cfg).
Local Abbreviation invariant := (@Facts.invariant cfg fetch url_href url_hostname).

(** *** The pool of promises *)

Lemma pool_bounded s :
  reachable s ->
  activePromises s = []
  \/ (Z.of_nat (List.length (activePromises s)) <= concurrency cfg)%Z.
Proof.
  revert s. apply invariant.
  - now left.
  - intros s s' _ IH Ht.
    destruct Ht; simpl; auto.
    + right. unfold may_start in H0.
      apply andb_true_iff in H0. destruct H0 as [H0 _].
      apply andb_true_iff in H0. destruct H0 as [_ H0].
      apply Z.ltb_lt in H0. rewrite length_app. simpl. lia.
    + right. unfold may_start in H0.
      apply andb_true_iff in H0. destruct H0 as [H0 _].
      apply andb_true_iff in H0. destruct H0 as [_ H0].
      apply Z.ltb_lt in H0. rewrite length_app. simpl. lia.
    + rewrite length_replace_nth. destruct IH as [E | IH]; auto.
      rewrite E in H0. destruct i; discriminate.
    + rewrite length_replace_nth. destruct IH as [E | IH]; auto.
      rewrite E in H0. destruct i; discriminate.
    + rewrite length_replace_nth. destruct IH as [E | IH]; auto.
      rewrite E in H0. destruct i; discriminate.
    + rewrite length_replace_nth. destruct IH as [E | IH]; auto.
      rewrite E in H0. destruct i; discriminate.
    + destruct IH as [E | IH].
      * rewrite E in H0. destruct i; discriminate.
      * right. pose proof (length_remove_nth _ _ H0). lia.
Qed.

(** X4.  At every point of every run the number of promises in
    [activePromises], and with it the number of fetches in flight, is at
    most [concurrency] (none at all when [concurrency] is not positive). *)
Theorem pool_within_concurrency s :
  reachable s ->
  (Z.of_nat (List.length (activePromises s)) <= Z.max 0 (concurrency cfg))%Z
  /\ (in_flight s <= List.length (activePromises s))%nat.
Proof.
  intros Hs. split.
  - destruct (pool_bounded Hs) as [E | H]; [rewrite E; simpl |]; lia.
  - unfold in_flight. apply filter_length_le.
Qed.

(** *** The seed and the depths below it *)

Local Abbreviation rooted := (Holdings.rooted cfg).
Local Abbreviation queue_rooted := (Holdings.queue_rooted cfg).
Local Abbreviation task_rooted := (Holdings.task_rooted cfg).
Local Abbreviation visit_rooted := (Holdings.visit_rooted cfg).

Lemma visited_grows s s' :
  trans s s' -> incl (visitedUrls s) (visitedUrls s').
Proof.
  intros Ht. destruct Ht; simpl; try apply incl_refl. apply incl_appl, incl_refl.
Qed.

Lemma queue_rooted_mono s s' t :
  incl (visitedUrls s) (visitedUrls s') -> queue_rooted s t -> queue_rooted s' t.
Proof.
  intros Hi [H | (H1 & H2 & H3)]; [now left | right].
  repeat split; auto. apply Hi, H3.
Qed.

Lemma task_rooted_mono s s' t :
  incl (visitedUrls s) (visitedUrls s') -> task_rooted s t -> task_rooted s' t.
Proof.
  intros Hi. destruct t as [u d p | l d |]; simpl; auto.
  - intros [H1 H2]. split; auto. apply Hi, H1.
  - intros [H | [H1 H2]]; [now left | right]. split; auto. apply Hi, H2.
Qed.

Lemma rooted_inv s :
  reachable s ->
  Forall (queue_rooted s) (queue s)
  /\ Forall (task_rooted s) (activePromises s)
  /\ Forall visit_rooted (visits (log s))
  /\ Forall (fun t => (1 <= depth t)%Z /\ url t <> domain cfg) (pushed (log s)).
Proof.
  revert s. apply invariant.
  - simpl. repeat split; repeat constructor.
  - intros s s' _ (Hq & Ha & Hv & Hp) Ht.
    pose proof (visited_grows Ht) as Hi.
    assert (Hq' : Forall (queue_rooted s') (queue s)).
    { eapply Forall_impl; [| exact Hq]. intros t. now apply queue_rooted_mono. }
    assert (Ha' : Forall (task_rooted s') (activePromises s)).
    { eapply Forall_impl; [| exact Ha]. intros t. now apply task_rooted_mono. }
    clear Hq Ha.
    destruct Ht; simpl in *; logs;
      rewrite ?visits_map_push, ?pushed_map_push, ?app_nil_r; auto.
    + rewrite H1 in Hq'. inversion Hq'; subst.
      repeat split; auto. apply Forall_app. split; auto.
      repeat constructor.
    + rewrite H1 in Hq'. inversion Hq' as [| ? ? Ht Hrest]; subst.
      assert (Hr : rooted
                     (mkState (visitedUrls s ++ [url t]) (productUrls s) rest
                        (activePromises s ++ [Fetching (url t) (depth t) p])
                        (pc s)
                        (log s ++ [EvShift t; EvVisit (url t) (depth t);
                                   EvUpdate (upd_progress p); EvFetch (url t)]))).
      { unfold Holdings.rooted. simpl.
        destruct Ht as [-> | (_ & _ & Hr)].
        - apply in_or_app. right. now left.
        - exact Hr. }
      repeat split; auto.
      * apply Forall_app. split; auto. constructor; [| constructor].
        simpl. split; [exact Hr |].
        destruct Ht as [-> | (H5 & _)]; [left | right]; simpl; auto.
      * apply Forall_app. split; auto. constructor; [| constructor].
        unfold Holdings.visit_rooted. simpl.
        destruct Ht as [-> | (H5 & _)]; [left | right]; simpl; auto.
    + repeat split; auto. apply Forall_replace_nth; auto. simpl. now left.
    + repeat split; auto. apply Forall_replace_nth; auto.
      pose proof (@Forall_nth_error _ _ _ _ _ Ha' H0) as Hf. simpl in Hf.
      simpl. right. destruct Hf as [Hr [[-> _] | Hd]]; split; auto; lia.
    + repeat split; auto. apply Forall_replace_nth; auto.
      pose proof (@Forall_nth_error _ _ _ _ _ Ha' H0) as Hf. simpl in Hf.
      simpl. right. destruct Hf as [Hr [[-> _] | Hd]]; split; auto; lia.
    + pose proof (@Forall_nth_error _ _ _ _ _ Ha' H0) as Hf. simpl in Hf.
      assert (Hnew : Forall (fun t => (1 <= depth t)%Z /\ url t <> domain cfg
                                      /\ In (domain cfg) (visitedUrls s))
                            (targets d (filter (fresh s) newUrls))).
      { apply Forall_forall. intros t Hin. unfold targets in Hin.
        apply in_map_iff in Hin. destruct Hin as (x & <- & Hx).
        apply filter_In in Hx. destruct Hx as [Hx Hfr].
        destruct Hf as [-> | [Hd Hr]]; [destruct Hx |].
        simpl. repeat split; [lia | | exact Hr].
        intros ->. unfold fresh in Hfr. apply negb_true_iff in Hfr.
        apply set_has_false in Hfr. apply Hfr, Hr. }
      repeat split; auto.
      * apply Forall_app. split; auto.
        eapply Forall_impl; [| exact Hnew]. intros t Ht. now right.
      * apply Forall_replace_nth; auto. exact I.
      * apply Forall_app. split; auto.
        eapply Forall_impl; [| exact Hnew]. intros t (Hx1 & Hx2 & _). split; assumption.
    + repeat split; auto. now apply Forall_remove_nth.
Qed.

(** X5.  The seed is the only URL ever visited at depth 0, and it is never
    put on the queue again: every target that a run pushes lies at depth 1
    or deeper and is not the seed, so links back to the seed are dropped. *)
Theorem seed_is_the_root s :
  reachable s ->
  Forall (fun ud => snd ud = 0%Z -> fst ud = domain cfg) (visits (log s))
  /\ Forall (fun ud => (0 <= snd ud)%Z) (visits (log s))
  /\ Forall (fun t => (1 <= depth t)%Z /\ url t <> domain cfg) (pushed (log s)).
Proof.
  intros Hs. destruct (rooted_inv Hs) as (_ & _ & Hv & Hp).
  repeat split; auto.
  - eapply Forall_impl; [| exact Hv].
    intros ud [[_ H] | H]; auto. intros E. lia.
  - eapply Forall_impl; [| exact Hv].
    intros ud [[H _] | H]; [rewrite H |]; lia.
Qed.

(** X6.  With a [maxDepth] of 0 or less a run fetches the seed and nothing
    else, and with a negative [maxDepth] it fetches nothing at all. *)
Theorem shallow_runs_fetch_the_seed_only s :
  reachable s ->
  ((maxDepth cfg <= 0)%Z -> Forall (eq (domain cfg)) (fetches (log s)))
  /\ ((maxDepth cfg < 0)%Z -> fetches (log s) = []).
Proof.
  intros Hs. destruct (rooted_inv Hs) as (_ & _ & Hv & _).
  pose proof (visited_depth Hs) as Hd.
  destruct (visited_log Hs) as (_ & Hm & Hf).
  rewrite Hf, <- Hm. split; intros Hmax.
  - apply Forall_forall. intros u Hu. apply in_map_iff in Hu.
    destruct Hu as (ud & <- & Hin).
    rewrite Forall_forall in Hv, Hd.
    specialize (Hv _ Hin). specialize (Hd _ Hin). simpl in Hd.
    destruct Hv as [[_ H] | H]; [now symmetry | lia].
  - destruct (visits (log s)) as [| ud l]; [reflexivity |].
    inversion Hv as [| ? ? Hv1 _]; subst. inversion Hd as [| ? ? Hd1 _]; subst.
    simpl in Hd1. destruct Hv1 as [[H _] | H]; lia.
Qed.

(** *** The filter on the links of a page *)

Lemma links_shaped s d html u :
  d = 0%Z \/ Forall shaped (links cfg url_href url_hostname s d html u).
Proof.
  destruct (Z.eq_dec d 0) as [E | E]; [now left | right].
  apply Forall_forall. intros x Hx. unfold links in Hx.
  apply filter_In in Hx. destruct Hx as [_ Hw].
  unfold wanted in Hw. apply andb_true_iff in Hw. destruct Hw as [_ Hw].
  apply orb_true_iff in Hw. destruct Hw as [Hw | Hw].
  - apply orb_true_iff in Hw. exact Hw.
  - apply Z.eqb_eq in Hw. contradiction.
Qed.

Lemma shaped_inv s :
  reachable s ->
  Forall (fun t => (depth t <= 1)%Z \/ shaped (url t)) (queue s)
  /\ Forall task_shaped (activePromises s)
  /\ Forall (fun ud => (snd ud <= 1)%Z \/ shaped (fst ud)) (visits (log s))
  /\ Forall (fun t => depth t = 1%Z \/ shaped (url t)) (pushed (log s)).
Proof.
  revert s. apply invariant.
  - simpl. repeat split; repeat constructor. simpl. lia.
  - intros s s' _ (Hq & Ha & Hv & Hp) Ht.
    destruct Ht; simpl in *; logs;
      rewrite ?visits_map_push, ?pushed_map_push, ?app_nil_r; auto.
    + rewrite H1 in Hq. inversion Hq; subst.
      repeat split; auto. apply Forall_app. split; auto.
      constructor; [| constructor]. simpl. right. constructor.
    + rewrite H1 in Hq. inversion Hq as [| ? ? Ht Hrest]; subst.
      repeat split; auto.
      * apply Forall_app. split; auto. constructor; [exact I | constructor].
      * apply Forall_app. split; auto.
    + repeat split; auto. apply Forall_replace_nth; auto. simpl. now right.
    + repeat split; auto. apply Forall_replace_nth; auto. apply links_shaped.
    + repeat split; auto. apply Forall_replace_nth; auto. apply links_shaped.
    + pose proof (@Forall_nth_error _ _ _ _ _ Ha H0) as Hf. simpl in Hf.
      assert (Hnew : Forall (fun t => depth t = 1%Z \/ shaped (url t))
                            (targets d (filter (fresh s) newUrls))).
      { apply Forall_forall. intros t Hin. unfold targets in Hin.
        apply in_map_iff in Hin. destruct Hin as (x & <- & Hx).
        apply filter_In in Hx. destruct Hx as [Hx _]. simpl.
        destruct Hf as [-> | Hf]; [now left | right].
        rewrite Forall_forall in Hf. auto. }
      repeat split; auto.
      * apply Forall_app. split; auto.
        eapply Forall_impl; [| exact Hnew]. intros t [E | Hsh]; [left; lia | now right].
      * apply Forall_replace_nth; auto. exact I.
      * apply Forall_app. split; auto.
    + repeat split; auto. now apply Forall_remove_nth.
Qed.

(** X7.  Below the links of the seed page the crawl follows only URLs that
    match a product or a navigation pattern: every target that a run pushes
    has depth 1 or such a URL, and so has every page it visits at depth 2
    or deeper. *)
Theorem deep_targets_are_shaped s :
  reachable s ->
  Forall (fun t => depth t = 1%Z \/ shaped (url t)) (pushed (log s))
  /\ Forall (fun ud => (2 <= snd ud)%Z -> shaped (fst ud)) (visits (log s)).
Proof.
  intros Hs. destruct (shaped_inv Hs) as (_ & _ & Hv & Hp). split; auto.
  eapply Forall_impl; [| exact Hv]. intros ud [H | H] Hd; [lia | exact H].
Qed.

(** *** The run after [crawl] has returned *)

Lemma completed_last s :
  reachable s ->
  match pc s with
  | Returned =>
      exists l, updates (log s) = l ++ [upd_completed (productUrls s)]
                /\ Forall (fun upd => u_status upd <> Some completed) l
  | _ => Forall (fun upd => u_status upd <> Some completed) (updates (log s))
  end.
Proof.
  revert s. apply invariant.
  - simpl. repeat constructor. simpl. congruence.
  - intros s s' _ IH Ht.
    destruct Ht; simpl in *; rewrite ?H in *; logs;
      rewrite ?updates_map_push, ?app_nil_r; auto.
    all: try (apply Forall_app; split; auto; repeat constructor; simpl; congruence).
    eexists. split; [reflexivity | exact IH].
Qed.

Lemma returned_stuck c s : pc s = Returned -> step c s = None.
Proof.
  intros Hpc. destruct (step c s) as [s' |] eqn:E; [| reflexivity].
  apply step_trans in E. destruct E; congruence.
Qed.

(** X8.  Once [crawl] has returned nothing moves any more: no step is
    enabled, the queue and the pool are empty, and the update that ends the
    log is the one [completed] update of the run, carrying the final product
    set; and as long as [crawl] has not returned no [completed] update has
    been sent. *)
Theorem completed_is_sent_once_at_the_end s :
  reachable s ->
  (pc s = Returned ->
   (forall c, step c s = None)
   /\ queue s = [] /\ activePromises s = []
   /\ exists l, updates (log s) = l ++ [upd_completed (productUrls s)]
                /\ Forall (fun upd => u_status upd <> Some completed) l)
  /\ (pc s <> Returned ->
      Forall (fun upd => u_status upd <> Some completed) (updates (log s))).
Proof.
  intros Hs. pose proof (completed_last Hs) as Hc. split.
  - intros Hpc. rewrite Hpc in Hc.
    destruct (returned_completed Hs Hpc) as (Hq & Ha & _).
    repeat split; auto. intros c. now apply returned_stuck.
  - intros Hpc. destruct (pc s); auto. congruence.
Qed.

(** *** The updates of a run *)

Lemma fresh_page_percentage s :
  (size (visitedUrls s) >=? maxPages cfg)%Z = false ->
  forall u, percentage (progress_value cfg (size (visitedUrls s ++ [u]))).
Proof.
  intros Hcap u. rewrite Z.geb_leb in Hcap. apply Z.leb_gt in Hcap.
  unfold size in *. split.
  - apply progress_value_nonneg; lia.
  - apply progress_value_le_100.
Qed.

Lemma progress_inv s :
  reachable s ->
  Forall task_in_range (activePromises s)
  /\ Forall (fun upd => forall p, u_progress upd = Some p -> percentage p)
            (updates (log s))
  /\ exists rest, updates (log s) = upd_crawling :: rest.
Proof.
  revert s. apply invariant.
  - simpl. repeat split; [constructor | | eexists; reflexivity].
    repeat constructor; simpl in *; injection H as <-; discriminate.
  - intros s s' _ (Ha & Hu & rest & Hr) Ht.
    destruct Ht; simpl in *; logs;
      rewrite ?updates_map_push, ?app_nil_r; auto.
    all: try (repeat split; eauto;
              try (apply Forall_replace_nth; auto; exact I);
              try (now apply Forall_remove_nth);
              fail).
    + repeat split; [assumption | | rewrite Hr; eexists; reflexivity].
      apply Forall_app. split; auto.
      repeat constructor; simpl in *; injection H1 as <-; discriminate.
    + repeat split; eauto. apply Forall_app. split; auto.
      repeat constructor.
    + pose proof (fresh_page_percentage _ H4 (url t)) as Hp.
      repeat split; try (rewrite Hr; eexists; reflexivity).
      * apply Forall_app. split; auto.
      * apply Forall_app. split; auto. constructor; [| constructor].
        simpl. intros q Hq. injection Hq as <-. exact Hp.
    + pose proof (@Forall_nth_error _ _ _ _ _ Ha H0) as Hf. simpl in Hf.
      repeat split; try (rewrite Hr; eexists; reflexivity).
      * apply Forall_replace_nth; auto. exact I.
      * apply Forall_app. split; auto. constructor; [| constructor].
        simpl. intros q Hq. injection Hq as <-. exact Hf.
Qed.

(** X9.  The first update of a run is the one that sets the status to
    [crawling] with progress 0, and every progress value a run ever reports
    lies between 0 and 100. *)
Theorem progress_stays_in_range s :
  reachable s ->
  (exists rest, updates (log s) = upd_crawling :: rest)
  /\ Forall (fun upd => forall p, u_progress upd = Some p -> percentage p)
            (updates (log s)).
Proof.
  intros Hs. destruct (progress_inv Hs) as (_ & Hu & Hr). split; assumption.
Qed.

Lemma prefix_refl l : prefix_of l l.
Proof. exists []. now rewrite app_nil_r. Qed.

Lemma prefix_trans l1 l2 l3 : prefix_of l1 l2 -> prefix_of l2 l3 -> prefix_of l1 l3.
Proof.
  intros [r1 ->] [r2 ->]. exists (r1 ++ r2). now rewrite app_assoc.
Qed.

Lemma prefix_set_add u l : prefix_of l (set_add u l).
Proof.
  unfold set_add. destruct (set_has u l); [apply prefix_refl | now exists [u]].
Qed.

Lemma extending_snoc ls x :
  extending ls -> Forall (fun l => prefix_of l x) ls -> extending (ls ++ [x]).
Proof.
  intros Hl Hx l1 a l2 b l3 E.
  destruct (exists_last (l := b :: l3)) as [l3' [z Hz]]; [discriminate |].
  rewrite Hz in E.
  replace (l1 ++ a :: l2 ++ l3' ++ [z]) with ((l1 ++ a :: l2 ++ l3') ++ [z]) in E
    by (rewrite <- !app_assoc; simpl; rewrite <- !app_assoc; reflexivity).
  apply app_inj_tail in E. destruct E as [El Ex]. subst z.
  destruct l3' as [| b' l3'].
  - simpl in Hz. inversion Hz; subst.
    rewrite Forall_forall in Hx. apply Hx.
    rewrite app_nil_r. apply in_or_app. right. now left.
  - simpl in Hz. inversion Hz; subst. eapply Hl. reflexivity.
Qed.

Lemma product_lists_app l l' :
  product_lists (l ++ l') = product_lists l ++ product_lists l'.
Proof. unfold product_lists. apply flat_map_app. Qed.

(** X10.  The product lists that the updates of a run carry only ever get
    longer: each is a prefix of every later one, and of the product set the
    crawler holds. *)
Theorem product_lists_extend s :
  reachable s ->
  extending (product_lists (updates (log s)))
  /\ Forall (fun l => prefix_of l (productUrls s)) (product_lists (updates (log s))).
Proof.
  revert s. apply invariant.
  - simpl. split; [| constructor].
    intros l1 a l2 b l3 E. destruct l1; discriminate.
  - intros s s' _ (He & Hp) Ht.
    destruct Ht; simpl in *; logs;
      rewrite ?updates_map_push, ?app_nil_r; auto;
      rewrite product_lists_app; simpl; rewrite ?app_nil_r; auto.
    + split.
      * now apply extending_snoc.
      * apply Forall_app. split; auto. repeat constructor. apply prefix_refl.
    + assert (Hp' : Forall (fun l => prefix_of l (set_add u (productUrls s)))
                           (product_lists (updates (log s)))).
      { eapply Forall_impl; [| exact Hp]. intros l Hl.
        eapply prefix_trans; [exact Hl | apply prefix_set_add]. }
      split.
      * now apply extending_snoc.
      * apply Forall_app. split; auto. repeat constructor. apply prefix_refl.
Qed.

(** X11.  A step never removes anything: the visited set, the product set
    and the log of the state it leads to begin with those of the state it
    starts from. *)
Theorem sets_only_grow c s s' :
  step c s = Some s' ->
  prefix_of (visitedUrls s) (visitedUrls s')
  /\ prefix_of (productUrls s) (productUrls s')
  /\ exists evs, log s' = log s ++ evs.
Proof.
  intros Hc. apply step_trans in Hc.
  destruct Hc; simpl; repeat split;
    try apply prefix_refl; try apply prefix_set_add;
    try (exists []; now rewrite app_nil_r);
    try (eexists; reflexivity).
Qed.

(** *** Where a run ends *)

Lemma idle_at_cap s :
  (1 <= concurrency cfg)%Z -> idle cfg s ->
  (maxPages cfg <= size (visitedUrls s))%Z.
Proof.
  intros Hc (_ & Hm & Ha & Hq). unfold may_start in Hm. rewrite Ha in Hm.
  destruct (queue s) as [| t rest]; [congruence |]. simpl in Hm.
  destruct (0 <? concurrency cfg)%Z eqn:E.
  - simpl in Hm. apply Z.ltb_ge in Hm. exact Hm.
  - apply Z.ltb_ge in E. lia.
Qed.

(** X12.  With a [concurrency] of 1 or more, every schedule brings a run in
    finitely many steps either to the return of [crawl] or to the page cap
    with targets left in the queue and nothing in flight, where the loop of
    [crawl] turns without doing anything. *)
Theorem run_ends_or_hits_the_cap s :
  (1 <= concurrency cfg)%Z ->
  reachable s ->
  inevitably cfg fetch url_href url_hostname
             (fun s' => pc s' = Returned
                        \/ (idle cfg s'
                            /\ (maxPages cfg <= size (visitedUrls s'))%Z))
             s.
Proof.
  intros Hc Hs.
  eapply inevitably_weaken; [now apply returns_or_idles | assumption |].
  intros s' _ [H | H]; [now left | right].
  split; [assumption | now apply idle_at_cap].
Qed.

Lemma stalled_inv s :
  (maxPages cfg <= 0 \/ concurrency cfg <= 0)%Z ->
  reachable s -> stalled cfg s.
Proof.
  intros Hcfg. revert s. apply invariant.
  - unfold stalled. simpl. repeat split; auto.
  - intros s s' _ (Hq & Ha & Hv & Hl & Hpc) Ht.
    assert (Hm : may_start cfg s = false).
    { unfold may_start. rewrite Hq, Ha, Hv. simpl.
      destruct Hcfg as [H | H].
      - change (size []) with 0%Z.
        replace (0 <? maxPages cfg)%Z with false
          by (symmetry; apply Z.ltb_ge; exact H).
        apply andb_false_r.
      - replace (0 <? concurrency cfg)%Z with false
          by (symmetry; apply Z.ltb_ge; exact H).
        reflexivity. }
    assert (Hw : work_left s = true).
    { unfold work_left. rewrite Hq. reflexivity. }
    unfold stalled.
    destruct Ht; simpl; try congruence;
      try (destruct Hpc; congruence); repeat split; auto.
Qed.

(** X13.  When [maxPages] or [concurrency] is 0 or negative, a run never
    starts anything: at every point the seed is still alone in the queue,
    nothing has been visited or fetched, the only update sent is the first
    one, and [crawl] has not returned. *)
Theorem nothing_starts_without_room s :
  (maxPages cfg <= 0 \/ concurrency cfg <= 0)%Z ->
  reachable s ->
  queue s = [mkTarget (domain cfg) 0]
  /\ visitedUrls s = [] /\ fetches (log s) = []
  /\ updates (log s) = [upd_crawling]
  /\ pc s <> Returned.
Proof.
  intros Hcfg Hs. destruct (stalled_inv Hcfg Hs) as (Hq & Ha & Hv & Hl & Hpc).
  rewrite Hl. repeat split; auto. destruct Hpc; congruence.
Qed.

(** *** The queue *)

(** X14.  The queue is first in, first out, and loses nothing: the seed
    followed by the targets pushed so far, in the order of the pushes, is
    the sequence of the targets taken from the queue so far followed by the
    queue. *)
Theorem queue_is_first_in_first_out s :
  reachable s ->
  mkTarget (domain cfg) 0 :: pushed (log s) = shifted (log s) ++ queue s.
Proof.
  revert s. apply invariant.
  - reflexivity.
  - intros s s' _ IH Ht.
    destruct Ht; simpl in *; logs;
      rewrite ?shifted_map_push, ?pushed_map_push, ?app_nil_r; auto.
    + rewrite IH, H1, <- app_assoc. reflexivity.
    + rewrite IH, H1, <- app_assoc. reflexivity.
    + rewrite app_comm_cons, IH, app_assoc. reflexivity.
Qed.

(** *** A seed that is not a URL *)

Section NoHost.

Hypothesis no_host : url_hostname (domain cfg) = None.

Lemma nothing_valid u : isValidUrl cfg url_hostname u = false.
Proof.
  unfold isValidUrl. rewrite no_host. now destruct (url_hostname u).
Qed.

Lemma nothing_extracted html u :
  extractUrls cfg url_href url_hostname html u = [].
Proof.
  destruct (extractUrls cfg url_href url_hostname html u) as [| x l] eqn:E;
    [reflexivity |].
  assert (Hin : In x (extractUrls cfg url_href url_hostname html u))
    by (rewrite E; now left).
  apply EngineFacts.extracted_iff in Hin. destruct Hin as (_ & _ & _ & H).
  rewrite nothing_valid in H. discriminate.
Qed.

Lemma nothing_linked s d html u :
  links cfg url_href url_hostname s d html u = [].
Proof. unfold links. now rewrite nothing_extracted. Qed.

Lemma no_host_inv s :
  reachable s ->
  pushed (log s) = []
  /\ (seed_waiting cfg s \/ seed_taken cfg s).
Proof.
  revert s. apply invariant.
  - split; [reflexivity | left]. repeat split.
  - intros s s' _ (Hp & Hph) Ht.
    unfold seed_waiting, seed_taken in *.
    destruct Ht; simpl in *; logs;
      rewrite ?pushed_map_push, ?app_nil_r; auto.
    + split; [assumption | right].
      destruct Hph as [(Hq & Hv & Ha) | (Hq & Hv & Ha)]; [| congruence].
      rewrite Hq in H1. inversion H1; subst. rewrite Hv, Ha.
      repeat split; repeat constructor.
    + split; [assumption | right].
      destruct Hph as [(Hq & Hv & Ha) | (Hq & Hv & Ha)]; [| congruence].
      rewrite Hq in H1. inversion H1; subst. rewrite Hv, Ha.
      repeat split; repeat constructor.
    + split; [assumption | right].
      destruct Hph as [(Hq & Hv & Ha) | (Hq & Hv & Ha)].
      * rewrite Ha in H0. destruct i; discriminate.
      * repeat split; auto. apply Forall_replace_nth; auto. reflexivity.
    + split; [assumption | right].
      destruct Hph as [(Hq & Hv & Ha) | (Hq & Hv & Ha)].
      * rewrite Ha in H0. destruct i; discriminate.
      * repeat split; auto. apply Forall_replace_nth; auto.
        apply nothing_linked.
    + split; [assumption | right].
      destruct Hph as [(Hq & Hv & Ha) | (Hq & Hv & Ha)].
      * rewrite Ha in H0. destruct i; discriminate.
      * repeat split; auto. apply Forall_replace_nth; auto.
        apply nothing_linked.
    + destruct Hph as [(Hq & Hv & Ha) | (Hq & Hv & Ha)].
      * rewrite Ha in H0. destruct i; discriminate.
      * pose proof (@Forall_nth_error _ _ _ _ _ Ha H0) as Hl. simpl in Hl.
        subst newUrls. simpl. rewrite !app_nil_r.
        split; [assumption | right].
        repeat split; auto. apply Forall_replace_nth; auto. exact I.
    + split; [assumption | right].
      destruct Hph as [(Hq & Hv & Ha) | (Hq & Hv & Ha)].
      * rewrite Ha in H0. destruct i; discriminate.
      * repeat split; auto. now apply Forall_remove_nth.
Qed.

Lemma no_host_never_idle s :
  (1 <= concurrency cfg)%Z -> (1 <= maxPages cfg)%Z ->
  reachable s -> ~ idle cfg s.
Proof.
  intros Hc Hm Hs (_ & Hstart & Ha & Hq).
  destruct (no_host_inv Hs) as (_ & [(Hq' & Hv & _) | (Hq' & _)]);
    [| contradiction].
  unfold may_start in Hstart. rewrite Hq', Ha, Hv in Hstart.
  change (size []) with 0%Z in Hstart. simpl in Hstart.
  apply andb_false_iff in Hstart.
  destruct Hstart as [H | H]; apply Z.ltb_ge in H; lia.
Qed.

End NoHost.

(** X15.  When the seed is not a URL with a hostname (a domain typed
    without its scheme, say), [isValidUrl] accepts nothing: the run pushes
    no target and visits nothing but the seed, and with a page cap and a
    [concurrency] of 1 or more it ends with the return of [crawl] on every
    schedule. *)
Theorem seed_without_hostname s :
  url_hostname (domain cfg) = None ->
  reachable s ->
  pushed (log s) = []
  /\ Forall (eq (domain cfg)) (visitedUrls s)
  /\ ((1 <= concurrency cfg)%Z -> (1 <= maxPages cfg)%Z ->
      inevitably cfg fetch url_href url_hostname
                 (fun s' => pc s' = Returned) s).
Proof.
  intros Hno Hs. destruct (no_host_inv Hno Hs) as (Hp & Hph).
  repeat split; auto.
  - destruct Hph as [(_ & Hv & _) | (_ & Hv & _)]; [rewrite Hv; constructor | exact Hv].
  - intros Hc Hm. apply returns_unless_idle; [| assumption].
    intros s' Hs'. now apply no_host_never_idle.
Qed.

(** *** What a run that has returned has covered *)

Lemma in_replace_keep {A} i (y z w : A) l :
  In y l -> nth_error l i = Some z -> y = z \/ In y (replace_nth i w l).
Proof.
  revert i. induction l as [| a l IH]; intros [| i]; simpl; try tauto.
  - intros [-> | H] E; [inversion E; now left | right; now right].
  - intros [-> | H] E; [right; now left |].
    destruct (IH i H E) as [-> | H']; [now left | right; now right].
Qed.

Lemma in_remove_keep {A} i (y z : A) l :
  In y l -> nth_error l i = Some z -> y = z \/ In y (remove_nth i l).
Proof.
  revert i. induction l as [| a l IH]; intros [| i]; simpl; try tauto.
  - intros [-> | H] E; [inversion E; now left | now right].
  - intros [-> | H] E; [right; now left |].
    destruct (IH i H E) as [-> | H']; [now left | right; now right].
Qed.

Lemma wanted_or_visited s d x :
  followed d x ->
  wanted s d x = true \/ In x (visitedUrls s).
Proof.
  intros Hf. unfold wanted.
  destruct (set_has x (visitedUrls s)) eqn:E.
  - right. now apply set_has_true.
  - left. simpl. destruct Hf as [-> | [H | H]]; rewrite ?H; simpl;
      rewrite ?orb_true_r; reflexivity.
Qed.

Local Abbreviation link_accounted := (Holdings.link_accounted).

Lemma links_inv s :
  reachable s ->
  forall u d html x,
    In (u, d) (visits (log s)) ->
    (d < maxDepth cfg)%Z ->
    truthy (fetchPage fetch u) = Some html ->
    In x (extractUrls cfg url_href url_hostname html u) ->
    followed d x ->
    link_accounted s u d x.
Proof.
  revert s.
  refine (invariant
            (fun s => forall u d html x,
                 In (u, d) (visits (log s)) ->
                 (d < maxDepth cfg)%Z ->
                 truthy (fetchPage fetch u) = Some html ->
                 In x (extractUrls cfg url_href url_hostname html u) ->
                 followed d x ->
                 link_accounted s u d x) _ _).
  - simpl. intros ? ? ? ? [].
  - intros s s' _ IH Ht u0 d0 html0 x Hv Hd Hfetch Hx Hfol.
    unfold Holdings.link_accounted in *.
    destruct Ht; simpl in *; logs;
      rewrite ?visits_map_push, ?app_nil_r in Hv; eauto.
    + (* the target is refused *)
      destruct (IH _ _ _ _ Hv Hd Hfetch Hx Hfol)
        as [H' | [(p & H') | [(l & H' & Hl) | H']]]; auto.
      * right. left. exists p. apply in_or_app. now left.
      * right. right. left. exists l. split; [apply in_or_app; now left | assumption].
      * rewrite H1 in H'. destruct H' as [-> | H']; [| now repeat right].
        left. simpl in H2. unfold may_start in H0.
        apply andb_true_iff in H0. destruct H0 as [_ H0].
        apply Z.ltb_lt in H0.
        apply orb_true_iff in H2. destruct H2 as [H2 | H2].
        { apply orb_true_iff in H2. destruct H2 as [H2 | H2].
          - apply Z.gtb_lt in H2. lia.
          - now apply set_has_true. }
        { rewrite Z.geb_leb in H2. apply Z.leb_le in H2. lia. }
    + (* the target is admitted *)
      apply in_app_or in Hv. destruct Hv as [Hv | [Hv | []]].
      * destruct (IH _ _ _ _ Hv Hd Hfetch Hx Hfol)
          as [H' | [(p' & H') | [(l & H' & Hl) | H']]].
        { left. apply in_or_app. now left. }
        { right. left. exists p'. apply in_or_app. now left. }
        { right. right. left. exists l.
          split; [apply in_or_app; now left | assumption]. }
        { rewrite H1 in H'. destruct H' as [-> | H']; [| now repeat right].
          left. apply in_or_app. right. now left. }
      * inversion Hv; subst. right. left. exists p.
        apply in_or_app. right. now left.
    + (* the fetch fails *)
      destruct (IH _ _ _ _ Hv Hd Hfetch Hx Hfol)
        as [H' | [(p' & H') | [(l & H' & Hl) | H']]]; auto.
      * destruct (@in_replace_keep _ i _ _ (Resolved [] d) _ H' H0) as [E | Hin].
        { inversion E; subst. congruence. }
        { right. left. eauto. }
      * destruct (@in_replace_keep _ i _ _ (Resolved [] d) _ H' H0) as [E | Hin];
          [discriminate E |].
        right. right. left. eauto.
    + (* a page that is no product *)
      destruct (IH _ _ _ _ Hv Hd Hfetch Hx Hfol)
        as [H' | [(p' & H') | [(l & H' & Hl) | H']]]; auto.
      * destruct (@in_replace_keep _ i _ _
                                                     (Resolved (links cfg url_href url_hostname s d html u) d)
                                                     _ H' H0)
          as [E | Hin].
        { inversion E; subst. rewrite H1 in Hfetch. inversion Hfetch; subst.
          destruct (@wanted_or_visited s d x Hfol) as [Hw | Hin]; [| now left].
          right. right. left. eexists. split.
          - eapply nth_error_In.
            apply BatchFacts.nth_error_replace_same with (y := Fetching u d p).
            exact H0.
          - unfold links. apply filter_In. split; assumption. }
        { right. left. eauto. }
      * destruct (@in_replace_keep _ i _ _
                                                     (Resolved (links cfg url_href url_hostname s d html u) d)
                                                     _ H' H0)
          as [E | Hin]; [discriminate E |].
        right. right. left. eauto.
    + (* a product page *)
      destruct (IH _ _ _ _ Hv Hd Hfetch Hx Hfol)
        as [H' | [(p' & H') | [(l & H' & Hl) | H']]]; auto.
      * destruct (@in_replace_keep _ i _ _
                                                     (Resolved (links cfg url_href url_hostname s d html u) d)
                                                     _ H' H0)
          as [E | Hin].
        { inversion E; subst. rewrite H1 in Hfetch. inversion Hfetch; subst.
          destruct (@wanted_or_visited s d x Hfol) as [Hw | Hin]; [| now left].
          right. right. left. eexists. split.
          - eapply nth_error_In.
            apply BatchFacts.nth_error_replace_same with (y := Fetching u d p).
            exact H0.
          - unfold links. apply filter_In. split; assumption. }
        { right. left. eauto. }
      * destruct (@in_replace_keep _ i _ _
                                                     (Resolved (links cfg url_href url_hostname s d html u) d)
                                                     _ H' H0)
          as [E | Hin]; [discriminate E |].
        right. right. left. eauto.
    + (* the then callback *)
      destruct (IH _ _ _ _ Hv Hd Hfetch Hx Hfol)
        as [H' | [(p' & H') | [(l & H' & Hl) | H']]]; auto.
      * destruct (@in_replace_keep _ i _ _ Settling _ H' H0) as [E | Hin];
          [discriminate E |].
        right. left. eauto.
      * destruct (@in_replace_keep _ i _ _ Settling _ H' H0) as [E | Hin].
        { inversion E; subst.
          destruct (set_has x (visitedUrls s)) eqn:Ex.
          - left. now apply set_has_true.
          - repeat right. apply in_or_app. right. unfold targets.
            apply in_map_iff. exists x. split; [reflexivity |].
            apply filter_In. split; [assumption |].
            unfold fresh. now rewrite Ex. }
        { right. right. left. eauto. }
      * repeat right. apply in_or_app. now left.
    + (* the finally callback *)
      destruct (IH _ _ _ _ Hv Hd Hfetch Hx Hfol)
        as [H' | [(p' & H') | [(l & H' & Hl) | H']]]; auto.
      * destruct (@in_remove_keep _ i _ _ _ H' H0) as [E | Hin]; [discriminate E |].
        right. left. eauto.
      * destruct (@in_remove_keep _ i _ _ _ H' H0) as [E | Hin]; [discriminate E |].
        right. right. left. eauto.
Qed.

Lemma products_inv s :
  reachable s ->
  forall u,
    In u (visitedUrls s) ->
    isProductUrl u = true ->
    truthy (fetchPage fetch u) <> None ->
    product_accounted s u.
Proof.
  revert s.
  refine (invariant
            (fun s => forall u,
                 In u (visitedUrls s) ->
                 isProductUrl u = true ->
                 truthy (fetchPage fetch u) <> None ->
                 product_accounted s u) _ _).
  - simpl. intros ? [].
  - intros s s' _ IH Ht u0 Hv Hp Hfetch.
    unfold product_accounted in *.
    destruct Ht; simpl in *; eauto.
    + destruct (IH _ Hv Hp Hfetch) as [H' | (d' & p' & H')]; auto.
      right. exists d', p'. apply in_or_app. now left.
    + apply in_app_or in Hv. destruct Hv as [Hv | [<- | []]].
      * destruct (IH _ Hv Hp Hfetch) as [H' | (d' & p' & H')]; auto.
        right. exists d', p'. apply in_or_app. now left.
      * right. exists (depth t), p. apply in_or_app. right. now left.
    + destruct (IH _ Hv Hp Hfetch) as [H' | (d' & p' & H')]; auto.
      destruct (@in_replace_keep _ i _ _ (Resolved [] d) _ H' H0) as [E | Hin].
      * inversion E; subst. congruence.
      * right. eauto.
    + destruct (IH _ Hv Hp Hfetch) as [H' | (d' & p' & H')]; auto.
      destruct (@in_replace_keep _ i _ _
                                                   (Resolved (links cfg url_href url_hostname s d html u) d)
                                                   _ H' H0)
        as [E | Hin].
      * inversion E; subst. congruence.
      * right. eauto.
    + destruct (IH _ Hv Hp Hfetch) as [H' | (d' & p' & H')].
      * left. apply EngineFacts.in_set_add. now right.
      * destruct (@in_replace_keep _ i _ _
                                                     (Resolved (links cfg url_href url_hostname s d html u) d)
                                                     _ H' H0)
          as [E | Hin].
        { inversion E; subst. left. apply EngineFacts.in_set_add. now left. }
        { right. eauto. }
    + destruct (IH _ Hv Hp Hfetch) as [H' | (d' & p' & H')]; auto.
      destruct (@in_replace_keep _ i _ _ Settling _ H' H0) as [E | Hin];
        [discriminate E |].
      right. eauto.
    + destruct (IH _ Hv Hp Hfetch) as [H' | (d' & p' & H')]; auto.
      destruct (@in_remove_keep _ i _ _ _ H' H0) as [E | Hin]; [discriminate E |].
      right. eauto.
Qed.

(** X16.  When [crawl] has returned, the visited set is closed under the
    links that the crawl follows: for every page visited above [maxDepth]
    whose fetch gave a body, every URL that [extractUrls] finds in the body
    and that matches a product or a navigation pattern (any URL at all,
    for the seed page) has been visited too. *)
Theorem returned_run_followed_every_link s u d html x :
  reachable s ->
  pc s = Returned ->
  In (u, d) (visits (log s)) ->
  (d < maxDepth cfg)%Z ->
  truthy (fetchPage fetch u) = Some html ->
  In x (extractUrls cfg url_href url_hostname html u) ->
  followed d x ->
  In x (visitedUrls s).
Proof.
  intros Hs Hpc Hv Hd Hfetch Hx Hfol.
  destruct (returned_completed Hs Hpc) as (Hq & Ha & _).
  destruct (@links_inv s Hs u d html x Hv Hd Hfetch Hx Hfol)
    as [H | [(p & H) | [(l & H & _) | H]]]; auto.
  - rewrite Ha in H. destruct H.
  - rewrite Ha in H. destruct H.
  - rewrite Hq in H. destruct H.
Qed.

(** X17.  When [crawl] has returned, the product set is exactly the set of
    the visited URLs that match a product pattern and whose fetch gave a
    body that is not empty. *)
Theorem returned_run_has_every_product s u :
  reachable s ->
  pc s = Returned ->
  In u (productUrls s) <->
  In u (visitedUrls s) /\ isProductUrl u = true /\ fetched_ok fetch u.
Proof.
  intros Hs Hpc.
  destruct (EngineFacts.product_set Hs) as (_ & Hincl & Hp & Hok).
  rewrite Forall_forall in Hp, Hok. split.
  - intros Hu. repeat split; auto.
  - intros (Hv & Hprod & status & body & Hf & Hst & Hne).
    destruct (returned_completed Hs Hpc) as (_ & Ha & _).
    assert (Hfetch : truthy (fetchPage fetch u) <> None).
    { unfold fetchPage. rewrite Hf, Hst.
      destruct body; [congruence | discriminate]. }
    destruct (@products_inv s Hs u Hv Hprod Hfetch) as [H | (d & p & H)]; auto.
    rewrite Ha in H. destruct H.
Qed.

End RunShape.
End RunShape.

(* ================================================================== *)
(** ** The results on the page *)

Module ClientFacts.
Import Crawler Steps Orchestrator Facts BatchFacts Client.

Lemma plain_initial d : plain d (initialResult d).
Proof. exists [], "pending", 0%Q. reflexivity. Qed.

Lemma plain_full d upd :
  engine_update upd -> plain d (fullUpdate d upd).
Proof.
  intros (Hd & He & _). destruct upd as [ud up us ug ue].
  simpl in Hd, He. subst ud ue.
  destruct up as [l |]; destruct us as [st |]; destruct ug as [q |];
    eexists _, _, _; reflexivity.
Qed.

(** A plain line laid over a plain result of its domain replaces it; a
    result of another domain is left alone. *)
Lemma apply_plain d d' line result :
  plain d line -> plain d' result ->
  (if strict_equal (lookup "domain" result) (lookup "domain" line)
   then spread line result
   else result)
  = if String.eqb d' d then line else result.
Proof.
  intros (l & st & p & ->) (l' & st' & p' & ->). simpl.
  destruct (String.eqb_spec d' d) as [-> | Hne]; reflexivity.
Qed.

Lemma readStream_snoc lines update results :
  readStream (lines ++ [update]) results
  = applyUpdate update (readStream lines results).
Proof. unfold readStream. now rewrite fold_left_app. Qed.

Lemma nth_error_NoDup {A} (l : list A) i j x :
  NoDup l -> nth_error l i = Some x -> nth_error l j = Some x -> i = j.
Proof.
  intros Hnd Hi Hj. rewrite NoDup_nth_error in Hnd. apply Hnd.
  - apply nth_error_Some. congruence.
  - congruence.
Qed.

Lemma last_snoc {A} (l : list A) x d : last (l ++ [x]) d = x.
Proof. apply last_last. Qed.

Lemma last_map {A B} (f : A -> B) l a b :
  l <> [] -> last (map f l) b = f (last l a).
Proof.
  induction l as [| x l IH]; [congruence |]. intros _.
  destruct l as [| y l]; [reflexivity |].
  change (last (map f (y :: l)) b = f (last (y :: l) a)).
  apply IH. discriminate.
Qed.

Lemma in_combine_seq {A} (l : list A) k j d :
  In (j, d) (combine (List.seq k (List.length l)) l) ->
  exists i, j = (k + i)%nat /\ nth_error l i = Some d.
Proof.
  revert k. induction l as [| a l IH]; intros k; simpl; [intros [] |].
  intros [H | H].
  - inversion H; subst. exists 0%nat. split; [lia | reflexivity].
  - destruct (IH _ H) as (i & -> & Hi). exists (S i). split; [lia | exact Hi].
Qed.

Section Screen.

Variable doms : list string.
Hypothesis doms_distinct : NoDup doms.

Local Abbreviation tagged := (Client.tagged doms).

Lemma last_line_plain i d lines :
  Forall tagged lines -> nth_error doms i = Some d ->
  plain d (last_line i lines (initialResult d)).
Proof.
  intros Hl Hd. unfold last_line.
  induction lines as [| x lines IH] using rev_ind; simpl.
  - apply plain_initial.
  - apply Forall_app in Hl. destruct Hl as [Hl Hx].
    rewrite flat_map_app. simpl. rewrite app_nil_r.
    change (keep i x) with (if Nat.eqb (fst x) i then [snd x] else []).
    destruct (Nat.eqb_spec (fst x) i) as [E | E].
    + rewrite last_snoc. inversion Hx as [| ? ? (d' & Hd' & Hp) _]; subst.
      rewrite Hd in Hd'. now inversion Hd'; subst.
    + rewrite app_nil_r. auto.
Qed.

Lemma results_follow_lines lines :
  Forall tagged lines ->
  forall i d, nth_error doms i = Some d ->
              nth_error (crawlResults doms (map snd lines)) i
              = Some (last_line i lines (initialResult d)).
Proof.
  induction lines as [| x lines IH] using rev_ind; intros Hl i d Hd.
  - unfold crawlResults, last_line. simpl.
    rewrite nth_error_map, Hd. reflexivity.
  - apply Forall_app in Hl. destruct Hl as [Hl Hx].
    inversion Hx as [| ? ? (d' & Hd' & Hp) _]; subst.
    unfold crawlResults in *. rewrite map_app. simpl.
    rewrite readStream_snoc. unfold applyUpdate.
    rewrite nth_error_map, (IH Hl i d Hd). simpl. f_equal.
    rewrite (apply_plain Hp (last_line_plain i Hl Hd)).
    unfold last_line. rewrite flat_map_app. simpl. rewrite app_nil_r.
    change (keep i x) with (if Nat.eqb (fst x) i then [snd x] else []).
    destruct (String.eqb_spec d d') as [<- | Hne].
    + rewrite (nth_error_NoDup _ _ doms_distinct Hd' Hd), Nat.eqb_refl.
      now rewrite last_snoc.
    + destruct (Nat.eqb_spec (fst x) i) as [E | E].
      * rewrite E, Hd in Hd'. congruence.
      * now rewrite app_nil_r.
Qed.

End Screen.

Section ClientFacts.

Variable req : CrawlRequest.
Variable fetch : string -> FetchOutcome.
Variable url_href : string -> string -> option string.
Variable url_hostname : string -> option string.

Local Abbreviation batch_reachable :=
  (Orchestrator.batch_reachable req fetch url_href url_hostname).

Lemma stream_tagged b :
  batch_reachable b -> Forall (Client.tagged (domains req)) (stream b).
Proof.
  intros Hb. induction Hb as [| b i c b' Hb IH Hstep].
  - simpl. apply Forall_forall. intros line Hin.
    apply in_map_iff in Hin. destruct Hin as ([j d] & <- & Hin).
    exists d. simpl. split.
    + apply in_combine_seq in Hin. destruct Hin as (i & -> & Hi). exact Hi.
    + apply plain_full. repeat split; simpl; congruence.
  - pose proof (batch_projection Hb) as [_ Hproj].
    unfold batch_step in Hstep.
    destruct (nth_error (crawlers b) i) as [[d s] |] eqn:Hi; [| discriminate].
    destruct (Crawler.step (crawler_config req d) fetch url_href url_hostname c s)
      as [s' |] eqn:Hc; [| discriminate].
    inversion Hstep; subst; clear Hstep. simpl.
    apply Forall_app. split; [assumption |].
    destruct (Hproj i d s Hi) as [Hr _].
    assert (Hr' : Crawler.reachable (crawler_config req d) fetch url_href
                                    url_hostname s')
      by (eapply reach_step; eauto).
    pose proof (updates_engine Hr') as Hu.
    destruct (log_grows _ _ _ _ _ _ Hc) as [evs Hevs].
    unfold relay. rewrite Hevs, skipn_app, skipn_all, Nat.sub_diag. simpl.
    rewrite Hevs, updates_app in Hu. apply Forall_app in Hu.
    destruct Hu as [_ Hu].
    apply Forall_forall. intros line Hin.
    apply in_map_iff in Hin. destruct Hin as (upd & <- & Hin).
    exists d. simpl. split.
    + destruct (batch_projection Hb) as [Hdoms _].
      rewrite <- Hdoms, nth_error_map, Hi. reflexivity.
    + apply plain_full. rewrite Forall_forall in Hu. auto.
Qed.

Lemma shown_at b i d s :
  NoDup (domains req) ->
  batch_reachable b ->
  nth_error (crawlers b) i = Some (d, s) ->
  nth_error (shown req b) i
  = Some (fullUpdate d (last (updates (log s)) upd_crawling)).
Proof.
  intros Hnd Hb Hi.
  destruct (batch_projection Hb) as [Hdoms Hproj].
  destruct (Hproj i d s Hi) as [Hr Hl].
  assert (Hd : nth_error (domains req) i = Some d)
    by (rewrite <- Hdoms, nth_error_map, Hi; reflexivity).
  unfold shown.
  rewrite (results_follow_lines Hnd (stream_tagged Hb) i Hd).
  unfold last_line. fold (lines_of i b). rewrite Hl. f_equal.
  apply last_map.
  destruct (RunShape.progress_inv Hr) as (_ & _ & rest & E).
  rewrite E. discriminate.
Qed.


(** *** A batch whose crawlers have all returned *)

Lemma returned_last_update d s :
  Crawler.reachable (crawler_config req d) fetch url_href url_hostname s ->
  pc s = Returned ->
  last (updates (log s)) upd_crawling = upd_completed (productUrls s).
Proof.
  intros Hr Hpc. destruct (returned_completed Hr Hpc) as (_ & _ & l & E).
  rewrite E, updates_app. simpl. apply last_last.
Qed.

Lemma length_applyUpdate update prev :
  List.length (applyUpdate update prev) = List.length prev.
Proof. apply length_map. Qed.

Lemma length_readStream lines results :
  List.length (readStream lines results) = List.length results.
Proof.
  revert results. induction lines as [| x lines IH]; intros results; simpl; auto.
  unfold readStream in *. simpl. rewrite IH. apply length_applyUpdate.
Qed.

Lemma shown_when_finished b :
  NoDup (domains req) ->
  batch_reachable b ->
  Forall (fun ds => pc (snd ds) = Returned) (crawlers b) ->
  shown req b = map final_result (crawlers b).
Proof.
  intros Hnd Hb Hall.
  destruct (batch_projection Hb) as [Hdoms Hproj].
  apply nth_error_ext. intros i.
  destruct (nth_error (crawlers b) i) as [[d s] |] eqn:Hi.
  - rewrite (shown_at i Hnd Hb Hi), nth_error_map, Hi. simpl.
    unfold final_result. simpl. do 2 f_equal.
    destruct (Hproj i d s Hi) as [Hr _].
    apply (returned_last_update Hr).
    apply (@Forall_nth_error _ _ _ _ _ Hall Hi).
  - rewrite nth_error_map, Hi. simpl.
    apply nth_error_None. apply nth_error_None in Hi.
    unfold shown, crawlResults.
    rewrite length_readStream, length_map, <- Hdoms, length_map. exact Hi.
Qed.

Lemma completed_all l :
  completedDomains (map final_result l) = List.length l.
Proof.
  unfold completedDomains.
  induction l as [| ds l IH]; simpl; [reflexivity |]. now rewrite IH.
Qed.

Lemma totalUrls_all l n :
  totalUrls_from (map final_result l) n
  = Some (n + list_sum (map (fun ds => List.length (productUrls (snd ds))) l))%nat.
Proof.
  revert n. induction l as [| ds l IH]; intros n; simpl.
  - now rewrite Nat.add_0_r.
  - rewrite IH. f_equal. lia.
Qed.

Lemma lookup_define_same k v o : lookup k (define k v o) = Some v.
Proof.
  induction o as [| [k' v'] o IH]; simpl.
  - now rewrite String.eqb_refl.
  - destruct (String.eqb_spec k k') as [<- | Hne]; simpl.
    + now rewrite String.eqb_refl.
    + destruct (String.eqb_spec k k'); [contradiction | exact IH].
Qed.

Lemma lookup_define_other k k' v o :
  k <> k' -> lookup k (define k' v o) = lookup k o.
Proof.
  intros Hne. induction o as [| [k0 v0] o IH]; simpl.
  - destruct (String.eqb_spec k k'); [contradiction | reflexivity].
  - destruct (String.eqb_spec k' k0) as [<- | Hne']; simpl.
    + destruct (String.eqb_spec k k'); [contradiction | reflexivity].
    + destruct (String.eqb_spec k k0); [reflexivity | exact IH].
Qed.

Lemma download_all l acc :
  exists file,
    downloadResults_from (map final_result l) acc = Some file
    /\ (forall d, ~ In d (map fst l) -> lookup d file = lookup d acc)
    /\ (NoDup (map fst l) ->
        forall d s, In (d, s) l -> lookup d file = Some (JStrings (productUrls s))).
Proof.
  revert acc. induction l as [| [d0 s0] l IH]; intros acc; simpl.
  - exists acc. repeat split; auto. intros _ d s [].
  - destruct (IH (define d0 (JStrings (productUrls s0)) acc))
      as (file & E & Hout & Hin).
    exists file. repeat split; [exact E | |].
    + intros d Hd. rewrite Hout by tauto. apply lookup_define_other.
      intros ->. apply Hd. now left.
    + intros Hnd d s [H | H].
      * inversion H; subst. inversion Hnd; subst.
        rewrite Hout by assumption. apply lookup_define_same.
      * inversion Hnd; subst. eauto.
Qed.

Lemma progress_all l acc :
  exists q,
    progress_from (map final_result l) acc = Some q
    /\ (q == acc + 100 * inject_Z (Z.of_nat (List.length l)))%Q.
Proof.
  revert acc. induction l as [| ds l IH]; intros acc.
  - exists acc. split; [reflexivity |]. simpl. ring.
  - destruct (IH (acc + 100)%Q) as (q & E & Hq).
    exists q. split; [exact E |].
    rewrite Hq. cbn [List.length]. rewrite Nat2Z.inj_succ.
    unfold Z.succ. rewrite inject_Z_plus. ring.
Qed.

Lemma overall_all l :
  l <> [] ->
  exists q,
    overallProgress (map final_result l) = Some q /\ (q == 100)%Q.
Proof.
  intros Hne. unfold overallProgress. rewrite length_map.
  destruct l as [| ds l]; [congruence |].
  change (0 <? List.length (ds :: l))%nat with true. cbv iota.
  destruct (progress_all (ds :: l) 0%Q) as (q & E & Hq).
  rewrite E. eexists. split; [reflexivity |].
  rewrite Hq. field.
  change 0%Q with (inject_Z 0). rewrite inject_Z_injective.
  simpl. lia.
Qed.


End ClientFacts.
End ClientFacts.

(* ================================================================== *)
(** ** The classification of URLs *)

Module ClassifierFacts.
Import Regex Patterns Classifier.

Lemma in_all_ascii c : In c all_ascii.
Proof.
  unfold all_ascii. apply in_map_iff. exists (nat_of_ascii c). split.
  - apply ascii_nat_embedding.
  - apply in_seq. pose proof (nat_ascii_bounded c). lia.
Qed.

Lemma for_all_ascii (f : ascii -> bool) :
  forallb f all_ascii = true -> forall c, f c = true.
Proof.
  intros H c. rewrite forallb_forall in H. apply H, in_all_ascii.
Qed.

(** A character of a pattern that is not a capital matches the characters
    whose lower-case variant it is. *)
Lemma char_match a c :
  is_upper a = false ->
  cls_match (CChar a) c = Ascii.eqb a (to_lower c).
Proof.
  intros Ha.
  assert (H : forallb
                (fun a => forallb
                            (fun c => is_upper a
                                      || Bool.eqb (cls_match (CChar a) c)
                                                  (Ascii.eqb a (to_lower c)))
                            all_ascii)
                all_ascii = true) by (vm_compute; reflexivity).
  pose proof (for_all_ascii _ H a) as H1. cbv beta in H1.
  pose proof (for_all_ascii _ H1 c) as H2. cbv beta in H2.
  rewrite Ha in H2. simpl in H2. apply Bool.eqb_prop in H2. exact H2.
Qed.

Lemma slug_char_match c :
  cls_match (CSet false [("a"%char, "z"%char); ("A"%char, "Z"%char);
                         ("0"%char, "9"%char); ("-"%char, "-"%char)]) c
  = is_slug_char c.
Proof.
  assert (H : forallb
                (fun c => Bool.eqb
                            (cls_match
                               (CSet false [("a"%char, "z"%char);
                                            ("A"%char, "Z"%char);
                                            ("0"%char, "9"%char);
                                            ("-"%char, "-"%char)]) c)
                            (is_slug_char c))
                all_ascii = true) by (vm_compute; reflexivity).
  pose proof (for_all_ascii _ H c) as H1. cbv beta in H1.
  apply Bool.eqb_prop in H1. exact H1.
Qed.

(** *** Plain texts *)

Lemma m_lit q s cap k :
  m (lit q) s cap k
  = match strip q s with Some rest => k rest cap | None => None end.
Proof.
  revert s. induction q as [| a q IH]; intros s; [reflexivity |].
  destruct q as [| b q].
  - simpl. destruct s as [| c s]; [reflexivity |].
    destruct (Ascii.eqb a c || Ascii.eqb a (swap_case c)); reflexivity.
  - change (lit (String a (String b q)))
      with (Seq (Chr (CChar a)) (lit (String b q))).
    change (strip (String a (String b q)) s)
      with (match s with
            | String c s' =>
                if cls_match (CChar a) c then strip (String b q) s' else None
            | EmptyString => None
            end).
    cbn [m]. destruct s as [| c s]; [reflexivity |].
    destruct (cls_match (CChar a) c); [apply IH | reflexivity].
Qed.

Lemma strip_spec q s rest :
  all_chars (fun a => negb (is_upper a)) q = true ->
  strip q s = Some rest <->
  exists w, s = (w ++ rest)%string /\ lower w = q.
Proof.
  revert s. induction q as [| a q IH]; intros s Hq; simpl.
  - split.
    + intros H. inversion H; subst. exists EmptyString. split; reflexivity.
    + intros (w & -> & Hw). destruct w; [reflexivity | discriminate].
  - simpl in Hq. apply andb_true_iff in Hq. destruct Hq as [Ha Hq].
    apply negb_true_iff in Ha.
    destruct s as [| c s].
    + split; [discriminate |].
      intros (w & E & Hw). destruct w; discriminate.
    + change (Ascii.eqb a c || Ascii.eqb a (swap_case c))
        with (cls_match (CChar a) c).
      rewrite (@char_match a c Ha).
      destruct (Ascii.eqb_spec a (to_lower c)) as [-> | Hne].
      * rewrite (IH s Hq). split.
        { intros (w & -> & Hw). exists (String c w). split; [reflexivity |].
          simpl. now rewrite Hw. }
        { intros (w & E & Hw). destruct w as [| c' w]; [discriminate |].
          simpl in E, Hw. inversion E; subst. inversion Hw; subst.
          exists w. split; reflexivity. }
      * split; [discriminate |].
        intros (w & E & Hw). destruct w as [| c' w]; [discriminate |].
        simpl in E, Hw. inversion E; subst. inversion Hw; subst.
        contradiction.
Qed.

(** *** The search for a match *)

Lemma search_iff r u :
  search r u <> None <->
  exists a s, u = (a ++ s)%string /\ match_here r s <> None.
Proof.
  induction u as [| c u IH]; simpl.
  - destruct (match_here r EmptyString) eqn:E.
    + split; [| discriminate]. intros _.
      exists EmptyString, EmptyString. split; [reflexivity | congruence].
    + split; [congruence |].
      intros (a & s & Eu & Hs). destruct a; [| discriminate].
      simpl in Eu. subst s. congruence.
  - destruct (match_here r (String c u)) eqn:E.
    + split; [| discriminate]. intros _.
      exists EmptyString, (String c u). split; [reflexivity | congruence].
    + rewrite IH. split.
      * intros (a & s & -> & Hs). exists (String c a), s. split; auto.
      * intros (a & s & Eu & Hs). destruct a as [| c' a].
        { simpl in Eu. subst s. congruence. }
        { simpl in Eu. inversion Eu; subst. eauto. }
Qed.

Lemma test_iff r u :
  test r u = true <->
  exists a s, u = (a ++ s)%string /\ match_here r s <> None.
Proof.
  rewrite <- search_iff. unfold test.
  destruct (search r u); split; congruence.
Qed.

Lemma test_lit q u :
  all_chars (fun a => negb (is_upper a)) q = true ->
  test (lit q) u = true <-> occurs_ci q u.
Proof.
  intros Hq. rewrite test_iff. unfold occurs_ci, match_here. split.
  - intros (a & s & -> & Hs). rewrite m_lit in Hs.
    destruct (strip q s) as [rest |] eqn:E; [| congruence].
    apply (@strip_spec q s rest Hq) in E. destruct E as (w & -> & Hw).
    exists a, w, rest. split; auto.
  - intros (a & w & b & -> & Hw). exists a, (w ++ b)%string.
    split; [reflexivity |]. rewrite m_lit.
    assert (E : strip q (w ++ b) = Some b).
    { apply (@strip_spec q (w ++ b)%string b Hq). exists w. split; auto. }
    rewrite E. discriminate.
Qed.

Lemma table_of_texts segs u :
  forallb (all_chars (fun a => negb (is_upper a))) segs = true ->
  existsb (fun pattern => test pattern u) (map lit segs) = true <->
  exists q, In q segs /\ occurs_ci q u.
Proof.
  intros Hsegs. rewrite forallb_forall in Hsegs.
  rewrite existsb_exists. split.
  - intros (r & Hin & Ht). apply in_map_iff in Hin.
    destruct Hin as (q & <- & Hq). exists q. split; auto.
    apply test_lit; auto.
  - intros (q & Hq & Ho). exists (lit q). split.
    + now apply in_map.
    + apply test_lit; auto.
Qed.

(** X20.  [isNavigationUrl] accepts a URL exactly when one of the sixteen
    texts of its table, a path segment between two slashes, occurs in it,
    letters compared without regard to case and wherever in the URL that may
    be: in the path, in the query or in the host. *)
Theorem navigation_urls_hold_a_segment u :
  isNavigationUrl u = true <->
  exists q, In q NAVIGATION_SEGMENTS /\ occurs_ci q u.
Proof.
  unfold isNavigationUrl.
  change NAVIGATION_PATTERNS with (map lit NAVIGATION_SEGMENTS).
  apply table_of_texts. vm_compute. reflexivity.
Qed.

Lemma existsb_in {A} (f : A -> bool) l x :
  In x l -> f x = true -> existsb f l = true.
Proof. intros Hin Hx. apply existsb_exists. eauto. Qed.

(** X21.  [isProductUrl] accepts every URL in which one of the eight plain
    texts of its table occurs, letters compared without regard to case. *)
Theorem product_segment_makes_a_product u :
  (exists q, In q PRODUCT_SEGMENTS /\ occurs_ci q u) ->
  isProductUrl u = true.
Proof.
  intros (q & Hq & Ho). unfold isProductUrl.
  apply existsb_in with (x := lit q).
  - change PRODUCT_PATTERNS
      with (map lit PRODUCT_SEGMENTS
            ++ [ sequence [lit "/shop/"; Star (Chr CDot); slash; Plus digit];
                 sequence [slash; Plus not_slash; slash; Plus not_slash; slash;
                           Plus not_slash; lit ".";
                           Cap (Alt (lit "html") (lit "htm")); Eol];
                 sequence [slash; Plus digit; lit ".htm"; Opt (lit "l"); Eol];
                 sequence [slash; Plus slug_char; slash; Plus slug_char; slash;
                           Plus slug_char; Eol] ]).
    apply in_or_app. left. now apply in_map.
  - apply test_lit; [| exact Ho].
    assert (H : forallb (all_chars (fun a => negb (is_upper a))) PRODUCT_SEGMENTS
                = true) by (vm_compute; reflexivity).
    rewrite forallb_forall in H. auto.
Qed.

(** *** Repetitions of one character class *)

Lemma m_star r1 s cap k :
  m (Star r1) s cap k = star_from r1 k (String.length s) s cap.
Proof. reflexivity. Qed.

Lemma length_append_l w rest :
  (String.length w <= String.length (w ++ rest))%nat.
Proof. induction w; simpl; lia. Qed.

Lemma orelse_left a b : a <> None -> orelse a b <> None.
Proof. destruct a; simpl; congruence. Qed.

Lemma orelse_right a b : b <> None -> orelse a b <> None.
Proof. destruct a; simpl; congruence. Qed.

Lemma star_chars c k rest cap w :
  all_chars (cls_match c) w = true ->
  k rest cap <> None ->
  forall fuel, (String.length w <= fuel)%nat ->
               star_from (Chr c) k fuel (w ++ rest) cap <> None.
Proof.
  intros Hw Hk. induction w as [| x w IH]; intros fuel Hfuel.
  - destruct fuel as [| fuel]; [exact Hk |].
    change (orelse
              (m (Chr c) rest cap
                 (fun s1 cap1 =>
                    if (String.length s1 <? String.length rest)%nat
                    then star_from (Chr c) k fuel s1 cap1
                    else None))
              (k rest cap) <> None).
    now apply orelse_right.
  - simpl in Hw. apply andb_true_iff in Hw. destruct Hw as [Hx Hw].
    destruct fuel as [| fuel]; [simpl in Hfuel; lia |].
    change (orelse
              (m (Chr c) (String x (w ++ rest)) cap
                 (fun s1 cap1 =>
                    if (String.length s1 <? String.length (String x (w ++ rest)))%nat
                    then star_from (Chr c) k fuel s1 cap1
                    else None))
              (k (String x (w ++ rest)) cap) <> None).
    apply orelse_left. cbn [m]. rewrite Hx.
    replace (String.length (w ++ rest) <? String.length (String x (w ++ rest)))%nat
      with true by (symmetry; apply Nat.ltb_lt; simpl; lia).
    apply IH; [assumption | simpl in Hfuel; lia].
Qed.

Lemma plus_chars c k rest cap w :
  w <> EmptyString ->
  all_chars (cls_match c) w = true ->
  k rest cap <> None ->
  m (Plus (Chr c)) (w ++ rest) cap k <> None.
Proof.
  intros Hne Hw Hk. destruct w as [| x w]; [congruence |].
  simpl in Hw. apply andb_true_iff in Hw. destruct Hw as [Hx Hw].
  change (m (Plus (Chr c)) (String x w ++ rest) cap k)
    with (if cls_match c x then m (Star (Chr c)) (w ++ rest) cap k else None).
  rewrite Hx, m_star.
  apply star_chars; auto. apply length_append_l.
Qed.

Lemma slug_chars w :
  all_chars is_slug_char w = true ->
  all_chars
    (cls_match (CSet false [("a"%char, "z"%char); ("A"%char, "Z"%char);
                            ("0"%char, "9"%char); ("-"%char, "-"%char)])) w
  = true.
Proof.
  induction w as [| x w IH]; simpl; [reflexivity |].
  intros H. apply andb_true_iff in H. destruct H as [Hx Hw].
  rewrite <- slug_char_match in Hx.
  apply andb_true_iff. split; [exact Hx | auto].
Qed.

Lemma append_nil_r_s (a : string) : (a ++ EmptyString)%string = a.
Proof. induction a; simpl; congruence. Qed.

(** X22.  [isProductUrl] accepts every URL that ends in three path
    segments made of letters, digits and hyphens, whatever the segments
    say. *)
Theorem three_segments_make_a_product pre a b c :
  slug a -> slug b -> slug c ->
  isProductUrl (pre ++ "/" ++ a ++ "/" ++ b ++ "/" ++ c) = true.
Proof.
  intros Ha Hb Hc. unfold isProductUrl.
  apply existsb_in
    with (x := sequence [slash; Plus slug_char; slash; Plus slug_char; slash;
                         Plus slug_char; Eol]).
  - unfold PRODUCT_PATTERNS. simpl. tauto.
  - apply test_iff. exists pre, ("/" ++ a ++ "/" ++ b ++ "/" ++ c)%string.
    split; [reflexivity |].
    unfold match_here.
    change (sequence [slash; Plus slug_char; slash; Plus slug_char; slash;
                      Plus slug_char; Eol])
      with (Seq slash
              (Seq (Plus slug_char)
                 (Seq slash
                    (Seq (Plus slug_char)
                       (Seq slash (Seq (Plus slug_char) Eol)))))).
    destruct Ha as [Hane Ha], Hb as [Hbne Hb], Hc as [Hcne Hc].
    cbn [m slash append].
    change (cls_match (CChar "/"%char) "/"%char) with true. cbv iota.
    apply plus_chars; [assumption | now apply slug_chars |].
    cbn [m slash append].
    change (cls_match (CChar "/"%char) "/"%char) with true. cbv iota.
    apply plus_chars; [assumption | now apply slug_chars |].
    cbn [m slash append].
    change (cls_match (CChar "/"%char) "/"%char) with true. cbv iota.
    rewrite <- (append_nil_r_s c).
    apply plus_chars; [assumption | now apply slug_chars |].
    simpl. discriminate.
Qed.

End ClassifierFacts.

(* ================================================================== *)
(** ** The theorems at work *)

Module MoreWitnesses.
Import Patterns Crawler Steps Facts TestWeb Runs RunFacts MoreRuns.

Lemma products_visited_and_fetched_witness :
  reachable_on Storefront.cfg shop midrun
  /\ NoDup (productUrls midrun)
  /\ incl (productUrls midrun) (visitedUrls midrun)
  /\ Forall (fun u => isProductUrl u = true) (productUrls midrun)
  /\ Forall (Holdings.fetched_ok (fetch_of shop)) (productUrls midrun).
Proof.
  split; [apply state_after_reachable |].
  apply (@EngineFacts.products_visited_and_fetched
           Storefront.cfg (fetch_of shop) url_href url_hostname midrun).
  apply state_after_reachable.
Defined.

Lemma hosts_are_the_seeds_witness :
  reachable_on Storefront.cfg shop midrun
  /\ In product1 (visitedUrls midrun)
  /\ (product1 = domain Storefront.cfg
      \/ exists h, url_hostname product1 = Some h
                   /\ url_hostname (domain Storefront.cfg) = Some h).
Proof.
  assert (Hin : In product1 (visitedUrls midrun))
    by (vm_compute; right; left; reflexivity).
  split; [apply state_after_reachable |]. split; [exact Hin |].
  apply (@EngineFacts.hosts_are_the_seeds
           Storefront.cfg (fetch_of shop) url_href url_hostname midrun
           (state_after_reachable _ _ _) product1).
  left. exact Hin.
Defined.

Lemma pool_within_concurrency_witness :
  reachable_on Storefront.cfg shop midrun
  /\ (Z.of_nat (List.length (activePromises midrun))
      <= Z.max 0 (concurrency Storefront.cfg))%Z
  /\ (in_flight midrun <= List.length (activePromises midrun))%nat.
Proof.
  split; [apply state_after_reachable |].
  apply (@RunShape.pool_within_concurrency
           Storefront.cfg (fetch_of shop) url_href url_hostname midrun).
  apply state_after_reachable.
Defined.

Lemma seed_is_the_root_witness :
  reachable_on Storefront.cfg shop midrun
  /\ Forall (fun ud => snd ud = 0%Z -> fst ud = domain Storefront.cfg)
            (visits (log midrun))
  /\ Forall (fun ud => (0 <= snd ud)%Z) (visits (log midrun))
  /\ Forall (fun t => (1 <= depth t)%Z /\ url t <> domain Storefront.cfg)
            (pushed (log midrun)).
Proof.
  split; [apply state_after_reachable |].
  apply (@RunShape.seed_is_the_root
           Storefront.cfg (fetch_of shop) url_href url_hostname midrun).
  apply state_after_reachable.
Defined.

Lemma shallow_runs_fetch_the_seed_only_witness :
  reachable_on shallow shop (state_after shallow shop first_link)
  /\ (maxDepth shallow <= 0)%Z
  /\ Forall (eq (domain shallow))
            (fetches (log (state_after shallow shop first_link))).
Proof.
  split; [apply state_after_reachable |]. split; [simpl; lia |].
  apply (@RunShape.shallow_runs_fetch_the_seed_only
           shallow (fetch_of shop) url_href url_hostname
           (state_after shallow shop first_link)).
  - apply state_after_reachable.
  - simpl. lia.
Defined.

Lemma deep_targets_are_shaped_witness :
  reachable_on one_at_a_time shop after_push
  /\ Forall (fun t => depth t = 1%Z \/ Holdings.shaped (url t))
            (pushed (log after_push))
  /\ Forall (fun ud => (2 <= snd ud)%Z -> Holdings.shaped (fst ud))
            (visits (log after_push)).
Proof.
  split; [apply state_after_reachable |].
  apply (@RunShape.deep_targets_are_shaped
           one_at_a_time (fetch_of shop) url_href url_hostname after_push).
  apply state_after_reachable.
Defined.

Lemma completed_is_sent_once_at_the_end_witness :
  reachable_on Storefront.cfg shop finished
  /\ pc finished = Returned
  /\ (forall c, Crawler.step Storefront.cfg (fetch_of shop) url_href url_hostname
                             c finished = None)
  /\ queue finished = [] /\ activePromises finished = []
  /\ exists l, updates (log finished) = l ++ [upd_completed (productUrls finished)]
               /\ Forall (fun upd => u_status upd <> Some completed) l.
Proof.
  assert (Hpc : pc finished = Returned) by (vm_compute; reflexivity).
  split; [apply state_after_reachable |]. split; [exact Hpc |].
  apply (@RunShape.completed_is_sent_once_at_the_end
           Storefront.cfg (fetch_of shop) url_href url_hostname finished).
  - apply state_after_reachable.
  - exact Hpc.
Defined.

Lemma progress_stays_in_range_witness :
  reachable_on Storefront.cfg shop midrun
  /\ (exists rest, updates (log midrun) = upd_crawling :: rest)
  /\ Forall (fun upd => forall p, u_progress upd = Some p -> Holdings.percentage p)
            (updates (log midrun)).
Proof.
  split; [apply state_after_reachable |].
  apply (@RunShape.progress_stays_in_range
           Storefront.cfg (fetch_of shop) url_href url_hostname midrun).
  apply state_after_reachable.
Defined.

Lemma product_lists_extend_witness :
  reachable_on Storefront.cfg shop finished
  /\ Holdings.extending (Holdings.product_lists (updates (log finished)))
  /\ Forall (fun l => Holdings.prefix_of l (productUrls finished))
            (Holdings.product_lists (updates (log finished))).
Proof.
  split; [apply state_after_reachable |].
  apply (@RunShape.product_lists_extend
           Storefront.cfg (fetch_of shop) url_href url_hostname finished).
  apply state_after_reachable.
Defined.

Lemma sets_only_grow_witness :
  Crawler.step one_at_a_time (fetch_of shop) url_href url_hostname
               (Promise 0) before_push = Some after_push
  /\ Holdings.prefix_of (visitedUrls before_push) (visitedUrls after_push)
  /\ Holdings.prefix_of (productUrls before_push) (productUrls after_push)
  /\ exists evs, log after_push = log before_push ++ evs.
Proof.
  assert (Hstep : Crawler.step one_at_a_time (fetch_of shop) url_href url_hostname
                               (Promise 0) before_push = Some after_push)
    by (vm_compute; reflexivity).
  split; [exact Hstep |].
  exact (@RunShape.sets_only_grow
           one_at_a_time (fetch_of shop) url_href url_hostname
           (Promise 0) before_push after_push Hstep).
Defined.

Lemma run_ends_or_hits_the_cap_witness :
  (1 <= concurrency one_page)%Z
  /\ reachable_on one_page five_links (Crawler.start one_page)
  /\ inevitably one_page (fetch_of five_links) url_href url_hostname
                (fun s' => pc s' = Returned
                           \/ (idle one_page s'
                               /\ (maxPages one_page <= size (visitedUrls s'))%Z))
                (Crawler.start one_page).
Proof.
  split; [simpl; lia |]. split; [apply reach_start |].
  apply (@RunShape.run_ends_or_hits_the_cap
           one_page (fetch_of five_links) url_href url_hostname
           (Crawler.start one_page)).
  - simpl. lia.
  - apply reach_start.
Defined.

Lemma nothing_starts_without_room_witness :
  (maxPages no_room <= 0 \/ concurrency no_room <= 0)%Z
  /\ reachable_on no_room shop (state_after no_room shop three_tests)
  /\ queue (state_after no_room shop three_tests) = [mkTarget (domain no_room) 0]
  /\ visitedUrls (state_after no_room shop three_tests) = []
  /\ fetches (log (state_after no_room shop three_tests)) = []
  /\ updates (log (state_after no_room shop three_tests)) = [upd_crawling]
  /\ pc (state_after no_room shop three_tests) <> Returned.
Proof.
  split; [left; simpl; lia |]. split; [apply state_after_reachable |].
  apply (@RunShape.nothing_starts_without_room
           no_room (fetch_of shop) url_href url_hostname
           (state_after no_room shop three_tests)).
  - left. simpl. lia.
  - apply state_after_reachable.
Defined.

Lemma queue_is_first_in_first_out_witness :
  reachable_on one_at_a_time shop after_push
  /\ mkTarget (domain one_at_a_time) 0 :: pushed (log after_push)
     = shifted (log after_push) ++ queue after_push.
Proof.
  split; [apply state_after_reachable |].
  apply (@RunShape.queue_is_first_in_first_out
           one_at_a_time (fetch_of shop) url_href url_hostname after_push).
  apply state_after_reachable.
Defined.

Lemma seed_without_hostname_witness :
  url_hostname (domain bare) = None
  /\ reachable_on bare shop (state_after bare shop three_tests)
  /\ pushed (log (state_after bare shop three_tests)) = []
  /\ Forall (eq (domain bare)) (visitedUrls (state_after bare shop three_tests))
  /\ inevitably bare (fetch_of shop) url_href url_hostname
                (fun s' => pc s' = Returned)
                (state_after bare shop three_tests).
Proof.
  split; [reflexivity |]. split; [apply state_after_reachable |].
  destruct (@RunShape.seed_without_hostname
              bare (fetch_of shop) url_href url_hostname
              (state_after bare shop three_tests) eq_refl
              (state_after_reachable _ _ _))
    as (H1 & H2 & H3).
  split; [exact H1 |]. split; [exact H2 |].
  apply H3; simpl; lia.
Defined.

Lemma returned_run_followed_every_link_witness :
  reachable_on Storefront.cfg shop finished
  /\ pc finished = Returned
  /\ In (seed, 0%Z) (visits (log finished))
  /\ (0 < maxDepth Storefront.cfg)%Z
  /\ truthy (fetchPage (fetch_of shop) seed) = Some seed_html
  /\ In categoryA (extractUrls Storefront.cfg url_href url_hostname seed_html seed)
  /\ Holdings.followed 0 categoryA
  /\ In categoryA (visitedUrls finished).
Proof.
  assert (Hpc : pc finished = Returned) by (vm_compute; reflexivity).
  assert (Hv : In (seed, 0%Z) (visits (log finished)))
    by (vm_compute; left; reflexivity).
  assert (Hd : (0 < maxDepth Storefront.cfg)%Z) by (simpl; lia).
  assert (Hf : truthy (fetchPage (fetch_of shop) seed) = Some seed_html)
    by (vm_compute; reflexivity).
  assert (Hx : In categoryA
                  (extractUrls Storefront.cfg url_href url_hostname seed_html seed))
    by (vm_compute; right; left; reflexivity).
  assert (Hfol : Holdings.followed 0 categoryA) by (left; reflexivity).
  split; [apply state_after_reachable |]. split; [exact Hpc |].
  split; [exact Hv |]. split; [exact Hd |]. split; [exact Hf |].
  split; [exact Hx |]. split; [exact Hfol |].
  exact (@RunShape.returned_run_followed_every_link
           Storefront.cfg (fetch_of shop) url_href url_hostname
           finished seed 0%Z seed_html categoryA
           (state_after_reachable _ _ _) Hpc Hv Hd Hf Hx Hfol).
Defined.

Lemma returned_run_has_every_product_witness :
  reachable_on Storefront.cfg shop finished
  /\ pc finished = Returned
  /\ (In product1 (productUrls finished) <->
      In product1 (visitedUrls finished)
      /\ isProductUrl product1 = true
      /\ Holdings.fetched_ok (fetch_of shop) product1).
Proof.
  assert (Hpc : pc finished = Returned) by (vm_compute; reflexivity).
  split; [apply state_after_reachable |]. split; [exact Hpc |].
  exact (@RunShape.returned_run_has_every_product
           Storefront.cfg (fetch_of shop) url_href url_hostname
           finished product1 (state_after_reachable _ _ _) Hpc).
Defined.

Lemma request_domains_distinct : NoDup (Orchestrator.domains request).
Proof.
  simpl. constructor.
  - intros [H | []]. discriminate H.
  - constructor; [intros [] | constructor].
Qed.



Lemma product_segment_makes_a_product_witness :
  (exists q, In q Classifier.PRODUCT_SEGMENTS
             /\ Classifier.occurs_ci q "https://x.test/Item/12?ref=home")
  /\ isProductUrl "https://x.test/Item/12?ref=home" = true.
Proof.
  assert (H : exists q, In q Classifier.PRODUCT_SEGMENTS
                        /\ Classifier.occurs_ci q "https://x.test/Item/12?ref=home").
  { exists "/item/". split; [simpl; tauto |].
    exists "https://x.test", "/Item/", "12?ref=home". split; reflexivity. }
  split; [exact H |].
  exact (@ClassifierFacts.product_segment_makes_a_product
           "https://x.test/Item/12?ref=home" H).
Defined.

Lemma three_segments_make_a_product_witness :
  Classifier.slug "category" /\ Classifier.slug "shoes" /\ Classifier.slug "sale"
  /\ isProductUrl ("https://x.test" ++ "/" ++ "category" ++ "/" ++ "shoes"
                   ++ "/" ++ "sale") = true.
Proof.
  assert (Ha : Classifier.slug "category")
    by (split; [discriminate | reflexivity]).
  assert (Hb : Classifier.slug "shoes")
    by (split; [discriminate | reflexivity]).
  assert (Hc : Classifier.slug "sale")
    by (split; [discriminate | reflexivity]).
  split; [exact Ha |]. split; [exact Hb |]. split; [exact Hc |].
  exact (@ClassifierFacts.three_segments_make_a_product
           "https://x.test" "category" "shoes" "sale" Ha Hb Hc).
Defined.

End MoreWitnesses.
